(** * Verification of the chat protocol layer (src/lib/chat-protocol.js)

    A shallow embedding of [ChatSession], [ChatProtocol] and the history
    storage they write to, followed by the properties of the protocol
    layer: the session registry, the Hello exchange, room identifiers,
    session close, sending and broadcasting, and the dispatch of received
    envelopes. *)

From Stdlib Require Import NArith ZArith Ascii String List Bool Lia.
From stdpp Require Import base option list gmap.
Import ListNotations.

Set Warnings "-register-all".

Local Open Scope N_scope.

(** ** JavaScript strings and byte arrays *)

(** A JavaScript string is a sequence of UTF-16 code units. *)
Definition jsstring := list N.

(** A source-code literal; every literal of the program is ASCII. *)
Definition js (s : string) : jsstring :=
  map N_of_ascii (list_ascii_of_string s).

(** A [Uint8Array]. *)
Definition bytes := list Byte.byte.

Definition byte_of_N (n : N) : Byte.byte :=
  match Byte.of_N (n mod 256) with
  | Some b => b
  | None => Byte.x00
  end.

(** Big-endian bytes of a value, [n] bytes wide. *)
Fixpoint be_bytes (n : nat) (x : N) : bytes :=
  match n with
  | O => []
  | S n' => byte_of_N (N.shiftr x (8 * N.of_nat n')) :: be_bytes n' x
  end.

(** [x < y] on strings: code unit by code unit, a proper prefix first. *)
Fixpoint js_lt (x y : jsstring) : bool :=
  match x, y with
  | _, [] => false
  | [], _ :: _ => true
  | c :: x', d :: y' =>
      if c <? d then true
      else if d <? c then false
      else js_lt x' y'
  end.

(** [Array.prototype.sort] with the default comparator on an array of
    strings: a stable sort by [js_lt]. *)
Fixpoint sort_insert (x : jsstring) (l : list jsstring) : list jsstring :=
  match l with
  | [] => [x]
  | y :: l' => if js_lt y x then y :: sort_insert x l' else x :: y :: l'
  end.

Definition Array_sort (l : list jsstring) : list jsstring :=
  foldr sort_insert [] l.

(** [Array.prototype.join] on an array of strings. *)
Fixpoint Array_join (l : list jsstring) (sep : jsstring) : jsstring :=
  match l with
  | [] => []
  | [x] => x
  | x :: l' => x ++ sep ++ Array_join l' sep
  end.

(** [String.prototype.substring(from, to)] for [from <= to]. *)
Definition substring (from to : nat) (s : jsstring) : jsstring :=
  take (to - from) (drop from s).

(** ** [TextEncoder.encode]: UTF-16 to UTF-8 *)

Definition is_high_surrogate (c : N) : bool := (0xD800 <=? c) && (c <=? 0xDBFF).
Definition is_low_surrogate (c : N) : bool := (0xDC00 <=? c) && (c <=? 0xDFFF).

(** The UTF-8 bytes of one code point. *)
Definition utf8_code_point (cp : N) : bytes :=
  if cp <? 0x80 then [byte_of_N cp]
  else if cp <? 0x800 then
    [byte_of_N (N.lor 0xC0 (N.shiftr cp 6));
     byte_of_N (N.lor 0x80 (N.land cp 0x3F))]
  else if cp <? 0x10000 then
    [byte_of_N (N.lor 0xE0 (N.shiftr cp 12));
     byte_of_N (N.lor 0x80 (N.land (N.shiftr cp 6) 0x3F));
     byte_of_N (N.lor 0x80 (N.land cp 0x3F))]
  else
    [byte_of_N (N.lor 0xF0 (N.shiftr cp 18));
     byte_of_N (N.lor 0x80 (N.land (N.shiftr cp 12) 0x3F));
     byte_of_N (N.lor 0x80 (N.land (N.shiftr cp 6) 0x3F));
     byte_of_N (N.lor 0x80 (N.land cp 0x3F))].

(** A surrogate pair is one code point; a lone surrogate is replaced by
    U+FFFD. *)
Fixpoint TextEncoder_encode (s : jsstring) : bytes :=
  match s with
  | [] => []
  | c :: s' =>
      if is_high_surrogate c then
        match s' with
        | d :: s'' =>
            if is_low_surrogate d then
              utf8_code_point (0x10000 + (c - 0xD800) * 0x400 + (d - 0xDC00))
                ++ TextEncoder_encode s''
            else utf8_code_point 0xFFFD ++ TextEncoder_encode s'
        | [] => utf8_code_point 0xFFFD
        end
      else if is_low_surrogate c then
        utf8_code_point 0xFFFD ++ TextEncoder_encode s'
      else utf8_code_point c ++ TextEncoder_encode s'
  end.

(** ** [crypto.subtle.digest('SHA-256', data)] (FIPS 180-4) *)

Module SHA256.

Definition w32 (x : N) : N := x mod 0x100000000.

Definition add32 (x y : N) : N := w32 (x + y).

Definition rotr (n x : N) : N :=
  N.lor (N.shiftr x n) (w32 (N.shiftl x (32 - n))).

Definition Ch (x y z : N) : N :=
  N.lxor (N.land x y) (N.land (N.lxor x 0xFFFFFFFF) z).

Definition Maj (x y z : N) : N :=
  N.lxor (N.lxor (N.land x y) (N.land x z)) (N.land y z).

Definition Sigma0 (x : N) : N := N.lxor (N.lxor (rotr 2 x) (rotr 13 x)) (rotr 22 x).
Definition Sigma1 (x : N) : N := N.lxor (N.lxor (rotr 6 x) (rotr 11 x)) (rotr 25 x).
Definition sigma0 (x : N) : N := N.lxor (N.lxor (rotr 7 x) (rotr 18 x)) (N.shiftr x 3).
Definition sigma1 (x : N) : N := N.lxor (N.lxor (rotr 17 x) (rotr 19 x)) (N.shiftr x 10).

(** The first primes, by trial division. *)
Fixpoint primes_from (fuel count : nat) (n : N) (found : list N) : list N :=
  match fuel, count with
  | S fuel', S count' =>
      if forallb (fun p => negb (n mod p =? 0)) found
      then primes_from fuel' count' (n + 1) (found ++ [n])
      else primes_from fuel' count (n + 1) found
  | _, _ => found
  end.

Definition primes (count : nat) : list N := primes_from 400 count 2 [].

(** The largest [r] below [2 ^ bits] that passes [test], for a [test]
    that holds on an initial segment: integer roots, bit by bit. *)
Fixpoint largest (bits : nat) (test : N -> bool) (r : N) : N :=
  match bits with
  | O => r
  | S bits' =>
      let candidate := r + 2 ^ N.of_nat bits' in
      largest bits' test (if test candidate then candidate else r)
  end.

Definition cube_root (n : N) : N := largest 40 (fun r => r * r * r <=? n) 0.

(** The round constants: the first thirty-two bits of the fractional
    parts of the cube roots of the first sixty-four primes. *)
Definition K : list N :=
  Eval vm_compute in map (fun p => w32 (cube_root (p * 2 ^ 96))) (primes 64).

(** The eight working words. *)
Record state := State { ha : N; hb : N; hc : N; hd : N; he : N; hf : N; hg : N; hh : N }.

(** The initial hash value: the first thirty-two bits of the fractional
    parts of the square roots of the first eight primes. *)
Definition H0 : state :=
  Eval vm_compute in
    match map (fun p => w32 (N.sqrt (p * 2 ^ 64))) (primes 8) with
    | [a; b; c; d; e; f; g; h] => State a b c d e f g h
    | _ => State 0 0 0 0 0 0 0 0
    end.

Definition be_word (bs : bytes) : N :=
  fold_left (fun acc b => acc * 256 + Byte.to_N b) bs 0.

(** Message padding: a 1 bit, zeros, and the bit length in 64 bits. *)
Definition pad (msg : bytes) : bytes :=
  let len := length msg in
  let zeros := ((64 - (len + 9) mod 64) mod 64)%nat in
  msg ++ [Byte.x80] ++ repeat Byte.x00 zeros ++ be_bytes 8 (8 * N.of_nat len).

Fixpoint chunks (k : nat) (fuel : nat) (bs : bytes) : list bytes :=
  match fuel with
  | O => []
  | S fuel' =>
      match bs with
      | [] => []
      | _ => take k bs :: chunks k fuel' (drop k bs)
      end
  end.

Definition words_of_block (block : bytes) : list N :=
  map be_word (chunks 4 16 block).

(** The message schedule: the sixteen block words, then forty-eight
    words each computed from the sixteen before it. *)
Fixpoint extend (n : nat) (window : list N) : list N :=
  match n with
  | O => []
  | S n' =>
      let w := add32 (add32 (sigma1 (nth 14 window 0)) (nth 9 window 0))
                     (add32 (sigma0 (nth 1 window 0)) (nth 0 window 0)) in
      w :: extend n' (drop 1 window ++ [w])
  end.

Definition schedule (block : bytes) : list N :=
  let w := words_of_block block in w ++ extend 48 w.

Definition round (s : state) (kw : N * N) : state :=
  let '(k, w) := kw in
  let t1 := add32 (add32 (add32 (hh s) (Sigma1 (he s))) (Ch (he s) (hf s) (hg s)))
                  (add32 k w) in
  let t2 := add32 (Sigma0 (ha s)) (Maj (ha s) (hb s) (hc s)) in
  State (add32 t1 t2) (ha s) (hb s) (hc s) (add32 (hd s) t1) (he s) (hf s) (hg s).

Definition compress (h : state) (block : bytes) : state :=
  let s := fold_left round (combine K (schedule block)) h in
  State (add32 (ha h) (ha s)) (add32 (hb h) (hb s)) (add32 (hc h) (hc s))
        (add32 (hd h) (hd s)) (add32 (he h) (he s)) (add32 (hf h) (hf s))
        (add32 (hg h) (hg s)) (add32 (hh h) (hh s)).

Definition state_bytes (s : state) : bytes :=
  be_bytes 4 (ha s) ++ be_bytes 4 (hb s) ++ be_bytes 4 (hc s) ++ be_bytes 4 (hd s)
  ++ be_bytes 4 (he s) ++ be_bytes 4 (hf s) ++ be_bytes 4 (hg s) ++ be_bytes 4 (hh s).

Definition digest (msg : bytes) : bytes :=
  let padded := pad msg in
  state_bytes (fold_left compress (chunks 64 (length padded) padded) H0).

End SHA256.

(** ** Hexadecimal rendering *)

Definition hex_digit (n : N) : N :=
  if n <? 10 then 48 + n else 87 + n.

(** [b.toString(16).padStart(2, '0')] *)
Definition byte_hex (b : Byte.byte) : jsstring :=
  let n := Byte.to_N b in [hex_digit (n / 16); hex_digit (n mod 16)].

(** [hashArray.map(b => ...).join('')] *)
Definition bytes_hex (bs : bytes) : jsstring := flat_map byte_hex bs.

Local Close Scope N_scope.

(** ** JavaScript values

    The values messages are made of: what [JSON.parse] returns, and
    [undefined].  A number is an integer (timestamps, counters, sizes),
    a safe one wherever its digits matter;
    an object is the list of its properties in enumeration order. *)

Inductive jsval :=
| VUndefined
| VNull
| VBool (b : bool)
| VNum (n : Z)
| VStr (s : jsstring)
| VArr (items : list jsval)
| VObj (props : list (jsstring * jsval)).

Definition props_get (props : list (jsstring * jsval)) (k : jsstring) : jsval :=
  match find (fun kv => bool_decide (kv.1 = k)) props with
  | Some kv => kv.2
  | None => VUndefined
  end.

(** A property of an object literal written after a spread: it replaces
    an earlier property of that name in place, or is added last. *)
Fixpoint props_set (props : list (jsstring * jsval)) (k : jsstring) (v : jsval)
  : list (jsstring * jsval) :=
  match props with
  | [] => [(k, v)]
  | (k', v') :: rest =>
      if bool_decide (k' = k) then (k, v) :: rest
      else (k', v') :: props_set rest k v
  end.

(** Decimal digits of a natural number, as [Number.prototype.toString]
    prints a safe integer (one below 2^53 in magnitude).  A larger
    number is printed by the shortest digits that identify it, and
    from 10^21 with an exponent; the values the program itself makes
    (sequence numbers, timestamps, indices) are safe integers. *)
Fixpoint uint_digits (d : Decimal.uint) : jsstring :=
  match d with
  | Decimal.Nil => []
  | Decimal.D0 d => 48%N :: uint_digits d
  | Decimal.D1 d => 49%N :: uint_digits d
  | Decimal.D2 d => 50%N :: uint_digits d
  | Decimal.D3 d => 51%N :: uint_digits d
  | Decimal.D4 d => 52%N :: uint_digits d
  | Decimal.D5 d => 53%N :: uint_digits d
  | Decimal.D6 d => 54%N :: uint_digits d
  | Decimal.D7 d => 55%N :: uint_digits d
  | Decimal.D8 d => 56%N :: uint_digits d
  | Decimal.D9 d => 57%N :: uint_digits d
  end.

Definition Number_toString (n : Z) : jsstring :=
  match n with
  | Zneg p => js "-" ++ uint_digits (N.to_uint (Npos p))
  | _ => uint_digits (N.to_uint (Z.to_N n))
  end.

(** *** [JSON.stringify] *)

Definition hex4 (c : N) : jsstring :=
  [hex_digit (c / 4096 mod 16); hex_digit (c / 256 mod 16);
   hex_digit (c / 16 mod 16); hex_digit (c mod 16)]%N.

Definition json_escape (c : N) : jsstring :=
  if (c =? 8)%N then js "\b"
  else if (c =? 9)%N then js "\t"
  else if (c =? 10)%N then js "\n"
  else if (c =? 12)%N then js "\f"
  else if (c =? 13)%N then js "\r"
  else if (c =? 34)%N then [92; 34]%N
  else if (c =? 92)%N then [92; 92]%N
  else if (c <? 32)%N then js "\u" ++ hex4 c
  else [c].

(** The characters of a quoted string; a surrogate that is not part of
    a pair is written as an escape. *)
Fixpoint json_quote_chars (s : jsstring) : jsstring :=
  match s with
  | [] => []
  | c :: s' =>
      if is_high_surrogate c then
        match s' with
        | d :: s'' =>
            if is_low_surrogate d then c :: d :: json_quote_chars s''
            else js "\u" ++ hex4 c ++ json_quote_chars s'
        | [] => js "\u" ++ hex4 c
        end
      else if is_low_surrogate c then js "\u" ++ hex4 c ++ json_quote_chars s'
      else json_escape c ++ json_quote_chars s'
  end.

Definition json_quote (s : jsstring) : jsstring :=
  [34%N] ++ json_quote_chars s ++ [34%N].

(** [None] is the result [undefined]. *)
Fixpoint JSON_stringify (v : jsval) : option jsstring :=
  match v with
  | VUndefined => None
  | VNull => Some (js "null")
  | VBool true => Some (js "true")
  | VBool false => Some (js "false")
  | VNum n => Some (Number_toString n)
  | VStr s => Some (json_quote s)
  | VArr items =>
      Some (js "[" ++
            Array_join (map (fun x => default (js "null") (JSON_stringify x)) items) (js ",")
            ++ js "]")
  | VObj props =>
      Some (js "{" ++
            Array_join
              (omap (fun kv : jsstring * jsval =>
                       text ← JSON_stringify kv.2;
                       Some (json_quote kv.1 ++ js ":" ++ text)) props)
              (js ",")
            ++ js "}")
  end.

(** What [JSON.parse(JSON.stringify(v))] returns for a value that has a
    JSON text: properties holding [undefined] are dropped and
    [undefined] array items become [null]. *)
Fixpoint json_roundtrip (v : jsval) : jsval :=
  match v with
  | VArr items =>
      VArr (map (fun x => match x with
                          | VUndefined => VNull
                          | _ => json_roundtrip x
                          end) items)
  | VObj props =>
      VObj (omap (fun kv : jsstring * jsval =>
                    match kv.2 with
                    | VUndefined => None
                    | _ => Some (kv.1, json_roundtrip kv.2)
                    end) props)
  | _ => v
  end.

(** [String(v)], as a template literal converts a value. *)
Fixpoint ToString (v : jsval) : jsstring :=
  match v with
  | VUndefined => js "undefined"
  | VNull => js "null"
  | VBool true => js "true"
  | VBool false => js "false"
  | VNum n => Number_toString n
  | VStr s => s
  | VArr items =>
      Array_join (map (fun x => match x with
                                | VUndefined | VNull => []
                                | _ => ToString x
                                end) items) (js ",")
  | VObj _ => js "[object Object]"
  end.

(** The own enumerable properties [{...v}] copies. *)
Definition spread (v : jsval) : list (jsstring * jsval) :=
  match v with
  | VObj props => props
  | VArr items => imap (fun i x => (Number_toString (Z.of_nat i), x)) items
  | VStr s => imap (fun i c => (Number_toString (Z.of_nat i), VStr [c])) s
  | _ => []
  end.

(** ** [Map]: keys in insertion order *)

Module JsMap.

Section ops.
Context {K V : Type} `{EqDecision K}.

Definition get (m : list (K * V)) (k : K) : option V :=
  snd <$> find (fun kv => bool_decide (kv.1 = k)) m.

Definition has (m : list (K * V)) (k : K) : bool :=
  bool_decide (is_Some (get m k)).

(** [set] keeps the position of a key that is present. *)
Fixpoint set (m : list (K * V)) (k : K) (v : V) : list (K * V) :=
  match m with
  | [] => [(k, v)]
  | (k', v') :: rest =>
      if bool_decide (k' = k) then (k, v) :: rest
      else (k', v') :: set rest k v
  end.

Definition delete (m : list (K * V)) (k : K) : list (K * V) :=
  filter (fun kv => kv.1 ≠ k) m.

Definition keys (m : list (K * V)) : list K := fst <$> m.

End ops.

End JsMap.

(** ** Program state *)

(** [pushable()]: the chunks pushed and not yet taken by the consumer,
    and whether [end()] was called. *)
Record pushable := Pushable { queue : list bytes; ended : bool }.

(** The fields of a [ChatSession] object.  Its [onMessage] and [onClose]
    are the protocol's [handleMessage] and [handleSessionClose] in every
    session the program constructs. *)
Record ChatSession := Session {
  stream : nat;
  peerId : jsstring;
  outbound : pushable;
  isActive : bool;
  seq : Z
}.

(** A stream of the transport: the frames written to its sink, whether
    writing to it fails, and whether [close()] was called on it. *)
Record Stream := MkStream { sink : list bytes; broken : bool; closed : bool }.

Inductive exn :=
| Error (message : jsstring)
| TypeError (message : jsstring)
| SyntaxError (message : jsstring).

Inductive completion (A : Type) :=
| Normal (a : A)
| Throw (e : exn).
Arguments Normal {A} a.
Arguments Throw {A} e.

Inductive log_level := Warn | Err.

(** A [console.warn] or [console.error] call: its first argument and the
    values that follow ([console.log] is not recorded). *)
Record log_line := Log { level : log_level; text : jsstring; args : list jsval }.

(** What the dialing block of [openStream] ends with: a stream, or the
    error it throws.  The block dials once more when the dial fails and
    the node had no connection to the peer; [RetryFailed] is the error
    of that second attempt, which the block logs before it throws it. *)
Inductive dial_outcome :=
| Dialed
| DialFailed (message : jsstring)
| RetryFailed (message : jsstring).

(** The runtime and the collaborators the program calls.  The [n]-th
    call of the program into the platform is answered by the function
    at index [n]. *)
Record Platform := {
  node_peerId : jsstring;                      (* node.peerId.toString() *)
  Date_now : nat -> Z;                         (* Date.now() *)
  Math_random_toString36 : nat -> jsstring;    (* Math.random().toString(36) *)
  dialProtocol : nat -> jsstring -> dial_outcome;
  getConnections : nat -> jsstring -> nat;     (* node.getConnections(peer).length *)
  setItem : nat -> jsstring -> option jsstring; (* the error localStorage.setItem throws, if any *)
  Error_stack : nat -> jsval;                  (* error.stack of the error just caught *)
  sink_error : nat -> exn                      (* what the sink of a stream that fails rejects with *)
}.

Record world := World {
  platform : Platform;
  session_heap : list ChatSession;       (* the ChatSession objects, by reference *)
  stream_heap : list Stream;             (* the streams, by reference *)
  sessions : list (jsstring * nat);      (* this.sessions *)
  localStorage : gmap jsstring (list jsval); (* the stored histories, parsed *)
  emitted : list (jsstring * jsval);     (* the calls of this.emit *)
  console : list log_line;
  ticks : nat;                           (* platform calls made so far *)
  suspended : list jsstring              (* openStream calls waiting for their dial *)
}.

Definition initial (p : Platform) : world :=
  World p [] [] [] ∅ [] [] 0 [].

(** ** Effects: state and exceptions *)

Definition M (A : Type) : Type := world -> completion A * world.

Definition ret {A} (a : A) : M A := fun w => (Normal a, w).

Definition bind {A B} (m : M A) (k : A -> M B) : M B :=
  fun w => match m w with
           | (Normal a, w') => k a w'
           | (Throw e, w') => (Throw e, w')
           end.

Definition throw {A} (e : exn) : M A := fun w => (Throw e, w).

Definition try_catch {A} (m : M A) (handler : exn -> M A) : M A :=
  fun w => match m w with
           | (Normal a, w') => (Normal a, w')
           | (Throw e, w') => handler e w'
           end.

(** The settled outcome of a promise. *)
Definition settle {A} (m : M A) : M (completion A) :=
  fun w => let '(c, w') := m w in (Normal c, w').

Definition gets {A} (f : world -> A) : M A := fun w => (Normal (f w), w).

Definition modify (f : world -> world) : M unit := fun w => (Normal tt, f w).

Notation "'let*' x ':=' m 'in' k" := (bind m (fun x => k))
  (at level 10, x binder, m at level 200, k at level 200).
Notation "m >>> k" := (bind m (fun _ => k))
  (at level 100, k at level 200, right associativity).

Fixpoint for_each {A B} (l : list A) (body : A -> M B) : M (list B) :=
  match l with
  | [] => ret []
  | x :: l' => let* y := body x in let* ys := for_each l' body in ret (y :: ys)
  end.

Definition run {A} (m : M A) (w : world) : world := (m w).2.

Definition with_session_heap (f : list ChatSession -> list ChatSession) (w : world) : world :=
  World (platform w) (f (session_heap w)) (stream_heap w) (sessions w)
        (localStorage w) (emitted w) (console w) (ticks w) (suspended w).

Definition with_stream_heap (f : list Stream -> list Stream) (w : world) : world :=
  World (platform w) (session_heap w) (f (stream_heap w)) (sessions w)
        (localStorage w) (emitted w) (console w) (ticks w) (suspended w).

Definition with_sessions (f : list (jsstring * nat) -> list (jsstring * nat)) (w : world) : world :=
  World (platform w) (session_heap w) (stream_heap w) (f (sessions w))
        (localStorage w) (emitted w) (console w) (ticks w) (suspended w).

Definition with_localStorage (f : gmap jsstring (list jsval) -> gmap jsstring (list jsval))
  (w : world) : world :=
  World (platform w) (session_heap w) (stream_heap w) (sessions w)
        (f (localStorage w)) (emitted w) (console w) (ticks w) (suspended w).

Definition with_emitted (f : list (jsstring * jsval) -> list (jsstring * jsval)) (w : world) : world :=
  World (platform w) (session_heap w) (stream_heap w) (sessions w)
        (localStorage w) (f (emitted w)) (console w) (ticks w) (suspended w).

Definition with_console (f : list log_line -> list log_line) (w : world) : world :=
  World (platform w) (session_heap w) (stream_heap w) (sessions w)
        (localStorage w) (emitted w) (f (console w)) (ticks w) (suspended w).

Definition with_ticks (f : nat -> nat) (w : world) : world :=
  World (platform w) (session_heap w) (stream_heap w) (sessions w)
        (localStorage w) (emitted w) (console w) (f (ticks w)) (suspended w).

Definition with_suspended (f : list jsstring -> list jsstring) (w : world) : world :=
  World (platform w) (session_heap w) (stream_heap w) (sessions w)
        (localStorage w) (emitted w) (console w) (ticks w) (f (suspended w)).

(** The next answer of the platform. *)
Definition ask {A} (oracle : Platform -> nat -> A) : M A :=
  fun w => (Normal (oracle (platform w) (ticks w)), with_ticks S w).

Definition console_warn (t : jsstring) (a : list jsval) : M unit :=
  modify (with_console (fun c => c ++ [Log Warn t a])).

Definition console_error (t : jsstring) (a : list jsval) : M unit :=
  modify (with_console (fun c => c ++ [Log Err t a])).

(** [error.message] *)
Definition exn_message (e : exn) : jsstring :=
  match e with
  | Error m | TypeError m | SyntaxError m => m
  end.

(** An [Error] as [console.error] receives it, recorded by its message. *)
Definition exn_value (e : exn) : jsval :=
  match e with
  | Error m | TypeError m | SyntaxError m => VStr m
  end.

(** Reading a property of a value in an expression [v.k], for the
    property names the program reads (none of them is defined on a
    primitive or an array). *)
Definition get_prop (v : jsval) (k : jsstring) : M jsval :=
  match v with
  | VUndefined | VNull =>
      throw (TypeError (js "Cannot read properties of " ++ ToString v))
  | VObj props => ret (props_get props k)
  | _ => ret VUndefined
  end.

(** ** [it-length-prefixed]

    The package (version 10) that frames the chunks of a stream.
    [lp.encode] yields, for each chunk of its source, the length of the
    chunk as an unsigned varint and then the chunk; the two are taken
    together here, as the frame of the chunk.  It refuses a chunk
    longer than [MAX_DATA_LENGTH].  [lp.decode] reads the frames
    back. *)

Module lp.

Definition MAX_DATA_LENGTH : N := 4194304.   (* 1024 * 1024 * 4 *)

Definition MAX_LENGTH_LENGTH : nat := 8.

(** The unsigned varint of a length ([uint8-varint]): seven bits to a
    byte, the lowest first, and [(value & 0xFF) | MSB] for every byte
    but the last.  At most [more] bytes follow the first. *)
Fixpoint varint (more : nat) (value : N) : bytes :=
  match more with
  | O => [byte_of_N value]
  | S more' =>
      if (value <? 128)%N then [byte_of_N value]
      else byte_of_N (N.lor (N.land value 255) 128) :: varint more' (N.shiftr value 7)
  end.

Definition encodeLength (value : N) : bytes := varint 7 value.

Definition frame (chunk : bytes) : bytes :=
  encodeLength (N.of_nat (length chunk)) ++ chunk.

Definition InvalidDataLengthError : exn := Error (js "Message length too long").

(** [lp.encode], for one chunk of its source. *)
Definition encode (chunk : bytes) : completion bytes :=
  if (MAX_DATA_LENGTH <? N.of_nat (length chunk))%N then Throw InvalidDataLengthError
  else Normal (frame chunk).

(** The varint at the start of a buffer, read from at most [width]
    bytes, and what follows it. *)
Fixpoint varint_decode (width : nat) (buf : bytes) : option (N * bytes) :=
  match width, buf with
  | S width', b :: rest =>
      let v := Byte.to_N b in
      if (v <? 128)%N then Some (v, rest)
      else
        match varint_decode width' rest with
        | Some (high, rest') => Some (N.land v 127 + 128 * high, rest')%N
        | None => None
        end
  | _, _ => None
  end.

(** [lp.decode] on the bytes of a source that has ended: the chunks of
    the frames it yields, in order, and whether it ends without an
    error.  A length that does not end within [MAX_LENGTH_LENGTH] bytes
    or is above [MAX_DATA_LENGTH], and a frame that is cut short, are
    errors.  Every frame takes a byte at least, so the length of the
    buffer bounds the number of frames. *)
Fixpoint decode_frames (frames : nat) (buffer : bytes) : list bytes * bool :=
  match buffer, frames with
  | [], _ => ([], true)
  | _, O => ([], false)
  | _, S frames' =>
      match varint_decode MAX_LENGTH_LENGTH buffer with
      | None => ([], false)
      | Some (dataLength, rest) =>
          if (MAX_DATA_LENGTH <? dataLength)%N then ([], false)
          else if (N.of_nat (length rest) <? dataLength)%N then ([], false)
          else
            let n := N.to_nat dataLength in
            let '(chunks, ok) := decode_frames frames' (drop n rest) in
            (take n rest :: chunks, ok)
      end
  end.

Definition decode (buffer : bytes) : list bytes * bool :=
  decode_frames (length buffer) buffer.

End lp.

(** ** Streams of the transport *)

(** The transport hands over a new stream. *)
Definition new_stream : M nat :=
  fun w => (Normal (length (stream_heap w)),
            with_stream_heap (fun h => h ++ [MkStream [] false false]) w).

Definition stream_deref (r : nat) : M Stream :=
  fun w => match stream_heap w !! r with
           | Some st => (Normal st, w)
           | None => (Throw (TypeError (js "not a stream")), w)
           end.

Definition sink_write (r : nat) (frame : bytes) : M unit :=
  modify (with_stream_heap
            (alter (fun st => MkStream (sink st ++ [frame]) (broken st) (closed st)) r)).

(** [stream.close()] *)
Definition stream_close (r : nat) : M unit :=
  modify (with_stream_heap (alter (fun st => MkStream (sink st) (broken st) true) r)).

(** ** [class ChatSession] *)

Module ChatSession.

Section methods.

(** The callbacks the constructor receives. *)
Context (onMessage : jsval -> jsstring -> M unit) (onClose : jsstring -> M unit).

Definition deref (this : nat) : M ChatSession :=
  fun w => match session_heap w !! this with
           | Some s => (Normal s, w)
           | None => (Throw (TypeError (js "not a session")), w)
           end.

Definition update (this : nat) (f : ChatSession -> ChatSession) : M unit :=
  modify (with_session_heap (alter f this)).

(** [this.outbound.push(data)] *)
Definition outbound_push (data : bytes) (s : ChatSession) : ChatSession :=
  Session (stream s) (peerId s)
          (Pushable (queue (outbound s) ++ [data]) (ended (outbound s)))
          (isActive s) (seq s).

(** [this.outbound.end()] *)
Definition outbound_end (s : ChatSession) : ChatSession :=
  Session (stream s) (peerId s) (Pushable (queue (outbound s)) true)
          (isActive s) (seq s).

Definition set_queue (q : list bytes) (s : ChatSession) : ChatSession :=
  Session (stream s) (peerId s) (Pushable q (ended (outbound s)))
          (isActive s) (seq s).

Definition set_isActive (b : bool) (s : ChatSession) : ChatSession :=
  Session (stream s) (peerId s) (outbound s) b (seq s).

Definition incr_seq (s : ChatSession) : ChatSession :=
  Session (stream s) (peerId s) (outbound s) (isActive s) (seq s + 1).

(** [new ChatSession(stream, peerId, onMessage, onClose)].  The
    constructor starts [handleStream], which sets its two pipes up on
    the source and the sink of the stream; they run later, as
    [outbound_pipe], [inbound_data] and [inbound_end] below. *)
Definition new (stream : nat) (peerId : jsstring) : M nat :=
  fun w => (Normal (length (session_heap w)),
            with_session_heap
              (fun h => h ++ [Session stream peerId (Pushable [] false) true 0]) w).

Definition send (this : nat) (message : jsval) : M unit :=
  let* s := deref this in
  if negb (isActive s) then
    console_error
      (js "[ChatSession] " ++ [0x274C%N] ++ js " Cannot send - session not active") []
    >>> throw (Error (js "Session is not active"))
  else
    try_catch
      (match JSON_stringify message with
       | None =>
           (* [messageStr.length] of [undefined] *)
           throw (TypeError (js "Cannot read properties of undefined"))
       | Some messageStr =>
           let data := TextEncoder_encode messageStr in
           update this (outbound_push data) >>>
           update this incr_seq
       end)
      (fun error =>
         console_error (js "[ChatSession] " ++ [0x274C%N] ++ js " Send error:")
                       [exn_value error]
         >>> throw error).

Definition handshake (ourPeerId : jsstring) : jsval :=
  VObj [ (js "type", VStr (js "hello"));
         (js "sender", VStr ourPeerId);
         (js "protocol_version", VStr (js "length-prefixed-v1"));
         (js "capabilities", VObj [(js "v", VNum 1); (js "maxFrame", VNum 131072)]) ].

Definition sendHandshake (this : nat) (ourPeerId : jsstring) : M unit :=
  send this (handshake ourPeerId).

Definition close (this : nat) : M unit :=
  let* s := deref this in
  if negb (isActive s) then ret tt
  else
    update this (set_isActive false) >>>
    update this outbound_end >>>
    onClose (peerId s).

(** The [catch] of the outbound pipe.  The pipe has ended: what is
    queued is never written; the error is logged and the session
    closed. *)
Definition outbound_failed (this : nat) (err : exn) : M unit :=
  update this (set_queue []) >>>
  console_error (js "Outbound pipe error:") [exn_value err] >>>
  close this.

(** One step of the outbound pipe of [handleStream]: the oldest queued
    chunk goes through [lp.encode] into the sink of the stream.  The
    pipe fails when [lp.encode] refuses the chunk and when the sink
    fails. *)
Definition outbound_pipe (this : nat) : M unit :=
  let* s := deref this in
  match queue (outbound s) with
  | [] => ret tt
  | chunk :: rest =>
      let* st := stream_deref (stream s) in
      match lp.encode chunk with
      | Throw err => outbound_failed this err
      | Normal frame =>
          if broken st then
            let* err := gets (fun w => sink_error (platform w) (stream s)) in
            outbound_failed this err
          else
            update this (set_queue rest) >>>
            sink_write (stream s) frame
      end
  end.

(** One turn of the inbound loop of [handleStream], for a frame that
    [lp.decode] produced: [parsed] is what [JSON.parse] returns for its
    text, or [None] when it throws. *)
Definition inbound_data (this : nat) (parsed : option jsval) : M unit :=
  let* s := deref this in
  try_catch
    (match parsed with
     | None => throw (SyntaxError (js "Unexpected token"))
     | Some message => onMessage message (peerId s)
     end)
    (fun error => console_error (js "Message parse error:") [exn_value error]).

(** The source of the stream ends, or fails with [error] (a frame that
    does not decode, a reset): the [finally] block closes the session. *)
Definition inbound_end (this : nat) (error : option exn) : M unit :=
  match error with
  | Some e => console_error (js "Stream handling error:") [exn_value e]
  | None => ret tt
  end >>>
  close this.

End methods.

End ChatSession.

(** ** [class ChatHistoryStorage extends Storage] *)

Module ChatHistoryStorage.

Definition prefix : jsstring := js "libp2p-chat".

Definition MAX_MESSAGES_PER_ROOM : nat := 1000.

Definition _getKey (key : jsstring) : jsstring := prefix ++ js "-" ++ key.

(** [get(key)]: the parsed item, or [None] for [null]. *)
Definition get (key : jsstring) : M (option (list jsval)) :=
  gets (fun w => localStorage w !! _getKey key).

(** What reading back a stored array returns. *)
Definition stored (value : list jsval) : list jsval :=
  match json_roundtrip (VArr value) with
  | VArr items => items
  | _ => []
  end.

Definition set (key : jsstring) (value : list jsval) : M unit :=
  let* failure := ask (fun p n => setItem p n (_getKey key)) in
  match failure with
  | Some message =>
      console_error (js "Storage set error:") [VStr message] >>>
      throw (Error (js "Failed to store " ++ key ++ js ": " ++ message))
  | None => modify (with_localStorage (insert (_getKey key) (stored value)))
  end.

(** [messages.splice(0, messages.length - MAX)] when over the limit. *)
Definition limit (messages : list jsval) : list jsval :=
  if (MAX_MESSAGES_PER_ROOM <? length messages)%nat
  then drop (length messages - MAX_MESSAGES_PER_ROOM) messages
  else messages.

Definition addMessage (roomId : jsval) (message : jsval) : M unit :=
  let historyKey := js "history-" ++ ToString roomId in
  let* found := get historyKey in
  let messages := default [] found in
  let* now := ask Date_now in
  let messages :=
    messages ++ [VObj (props_set (spread message) (js "stored_at") (VNum now))] in
  set historyKey (limit messages).

End ChatHistoryStorage.

(** ** Hash computations

    A room identifier is derived by hashing; a derivation is recorded
    with the hash computations it performs.  The program only ever calls
    [crypto.subtle.digest]; [SeededHash32] is a run of a seeded 32-bit
    hash, which the specification speaks of. *)

Inductive hash_call :=
| SubtleDigest (algorithm : jsstring) (data : bytes)
| SeededHash32 (seed : N) (data : bytes).

(** [crypto.subtle.digest(algorithm, data)], for the one algorithm the
    program names. *)
Definition crypto_subtle_digest (algorithm : jsstring) (data : bytes)
  : list hash_call * bytes :=
  ([SubtleDigest algorithm data],
   if bool_decide (algorithm = js "SHA-256") then SHA256.digest data else []).

(** ** [class ChatProtocol] *)

Module ChatProtocol.

Definition CHAT_PROTOCOL : jsstring := js "/chat/1.0.0".

(** [this.emit(eventName, detail)] *)
Definition emit (eventName : jsstring) (detail : jsval) : M unit :=
  modify (with_emitted (fun e => e ++ [(eventName, detail)])).

Definition handleSessionClose (peerId : jsstring) : M unit :=
  modify (with_sessions (fun m => JsMap.delete m peerId)) >>>
  emit (js "chat:disconnected") (VObj [(js "peerId", VStr peerId)]).

(** The handlers [registerMessageHandlers] stores in
    [this.messageHandlers], by message type. *)
Definition handle_hello (message : jsval) (peerId : jsstring) : M unit :=
  let* capabilities := get_prop message (js "capabilities") in
  emit (js "peer:handshake")
       (VObj [(js "peerId", VStr peerId); (js "capabilities", capabilities)]).

Definition handle_room_message (message : jsval) (peerId : jsstring) : M unit :=
  let* room_id := get_prop message (js "room_id") in
  ChatHistoryStorage.addMessage room_id message >>>
  emit (js "message:received") message.

Definition handle_typing (message : jsval) (peerId : jsstring) : M unit :=
  let* typing := get_prop message (js "typing") in
  emit (js "peer:typing") (VObj [(js "peerId", VStr peerId); (js "typing", typing)]).

Definition handle_nickname (message : jsval) (peerId : jsstring) : M unit :=
  let* nickname := get_prop message (js "nickname") in
  emit (js "peer:nickname") (VObj [(js "peerId", VStr peerId); (js "nickname", nickname)]).

Definition registerMessageHandlers : list (jsstring * (jsval -> jsstring -> M unit)) :=
  [ (js "hello", handle_hello);
    (js "m.room.message", handle_room_message);
    (js "m.typing", handle_typing);
    (js "m.nickname", handle_nickname) ].

(** [this.messageHandlers.get(type)]: the keys are strings. *)
Definition messageHandlers_get (type : jsval) : option (jsval -> jsstring -> M unit) :=
  match type with
  | VStr name => JsMap.get registerMessageHandlers name
  | _ => None
  end.

Definition handleMessage (message : jsval) (peerId : jsstring) : M unit :=
  let* type := get_prop message (js "type") in
  match messageHandlers_get type with
  | Some handler => handler message peerId
  | None => console_warn (js "Unknown message type:") [type]
  end.

(** The methods of a session, with the callbacks every session of the
    program is constructed with. *)
Definition session_close : nat -> M unit := ChatSession.close handleSessionClose.
Definition session_outbound_pipe : nat -> M unit :=
  ChatSession.outbound_pipe handleSessionClose.
Definition session_inbound_data : nat -> option jsval -> M unit :=
  ChatSession.inbound_data handleMessage.
Definition session_inbound_end : nat -> option exn -> M unit :=
  ChatSession.inbound_end handleSessionClose.

Definition self : M jsstring := gets (fun w => node_peerId (platform w)).

Definition handleIncomingStream (stream : nat) (remotePeer : jsstring) : M unit :=
  let peerId := remotePeer in
  let* registry := gets sessions in
  if JsMap.has registry peerId then
    console_warn (js "Duplicate session attempt from:") [VStr peerId] >>>
    stream_close stream
  else
    let* session := ChatSession.new stream peerId in
    modify (with_sessions (fun m => JsMap.set m peerId session)) >>>
    let* ourPeerId := self in
    ChatSession.sendHandshake session ourPeerId >>>
    emit (js "chat:connected") (VObj [(js "peerId", VStr peerId)]).

(** [openStream] up to its first suspension: the session that is
    registered for the peer, if there is one. *)
Definition openStream_existing (peerId : jsstring) : M (option nat) :=
  let* registry := gets sessions in
  ret (JsMap.get registry peerId).

(** The tag of the log lines of [openStream]. *)
Definition log_tag (mark : jsstring) : jsstring := js "[ChatProtocol] " ++ mark ++ js " ".

Definition cross_mark : jsstring := [0x274C%N].

Definition telephone : jsstring := [0xD83D%N; 0xDCDE%N].

(** [openStream] from the dial on: the [try] block and its [catch]. *)
Definition openStream_dial (peerId : jsstring) : M nat :=
  try_catch
    (let* outcome := ask (fun p n => dialProtocol p n peerId) in
     match outcome with
     | DialFailed message => throw (Error message)
     | RetryFailed message =>
         console_error (log_tag telephone ++ js "Retry failed:") [VStr message] >>>
         throw (Error message)
     | Dialed =>
         let* stream := new_stream in
         let* session := ChatSession.new stream peerId in
         modify (with_sessions (fun m => JsMap.set m peerId session)) >>>
         let* ourPeerId := self in
         ChatSession.sendHandshake session ourPeerId >>>
         emit (js "chat:connected") (VObj [(js "peerId", VStr peerId)]) >>>
         ret session
     end)
    (fun error =>
       console_error (log_tag cross_mark ++ js "Failed to open stream to") [VStr peerId] >>>
       console_error (log_tag cross_mark ++ js "Error:") [VStr (exn_message error)] >>>
       let* stack := ask Error_stack in
       console_error (log_tag cross_mark ++ js "Error stack:") [stack] >>>
       let* connections := ask (fun p n => getConnections p n peerId) in
       if (connections =? 0)%nat then
         console_error
           (log_tag cross_mark
              ++ js "No active connection to peer - cannot establish chat stream") [] >>>
         throw (Error (js "Not connected to peer " ++ peerId ++ js ". Use /connect first."))
       else throw error).

(** [openStream] when nothing else runs while it waits for the dial. *)
Definition openStream (peerId : jsstring) : M nat :=
  let* existing := openStream_existing peerId in
  match existing with
  | Some session => ret session
  | None => openStream_dial peerId
  end.

Definition generateEventId : M jsstring :=
  let* now := ask Date_now in
  let* random := ask Math_random_toString36 in
  ret (Number_toString now ++ js "_" ++ substring 2 9 random).

Definition chat_message (sender roomId : jsstring) (origin_ts seq : Z)
  (event_id content : jsstring) : jsval :=
  VObj [ (js "type", VStr (js "m.room.message"));
         (js "sender", VStr sender);
         (js "room_id", VStr roomId);
         (js "origin_ts", VNum origin_ts);
         (js "seq", VNum seq);
         (js "event_id", VStr event_id);
         (js "content", VObj [(js "msgtype", VStr (js "m.text")); (js "body", VStr content)]) ].

(** [sendMessage] up to and including [await session.send(message)]. *)
Definition sendMessage_send (peerId content roomId : jsstring) : M jsval :=
  let* registry := gets sessions in
  let* session :=
    match JsMap.get registry peerId with
    | Some session => ret session
    | None => openStream peerId
    end in
  let* sender := self in
  let* origin_ts := ask Date_now in
  let* s := ChatSession.deref session in
  let* event_id := generateEventId in
  let message := chat_message sender roomId origin_ts (seq s) event_id content in
  ChatSession.send session message >>>
  ret message.

(** [sendMessage] after that [await]: history, event, result. *)
Definition sendMessage_record (roomId : jsstring) (message : jsval) : M jsval :=
  ChatHistoryStorage.addMessage (VStr roomId) message >>>
  emit (js "message:sent") message >>>
  ret message.

Definition sendMessage (peerId content roomId : jsstring) : M jsval :=
  let* message := sendMessage_send peerId content roomId in
  sendMessage_record roomId message.

(** [broadcast].  The loop calls [sendMessage] for each active session,
    and each call runs up to its [await session.send(message)] at once
    ([broadcast_call]); the calls resume, in the order they were made,
    while [broadcast] awaits [Promise.allSettled] ([broadcast_resume]),
    which holds every outcome and throws none.  The loop does not
    change [this.sessions]. *)
Definition broadcast_call (content roomId : jsstring) (entry : jsstring * nat)
  : M (option (completion jsval)) :=
  let* session := ChatSession.deref entry.2 in
  if isActive session then
    let* sent := settle (sendMessage_send entry.1 content roomId) in
    ret (Some sent)
  else ret None.

Definition broadcast_resume (roomId : jsstring) (promise : option (completion jsval))
  : M unit :=
  match promise with
  | Some (Normal message) => settle (sendMessage_record roomId message) >>> ret tt
  | _ => ret tt
  end.

Definition broadcast (content roomId : jsstring) : M unit :=
  let* registry := gets sessions in
  let* promises := for_each registry (broadcast_call content roomId) in
  for_each promises (broadcast_resume roomId) >>>
  ret tt.

(** [static async generateRoomId(peerId1, peerId2)], with the hash
    computations it performs. *)
Definition generateRoomId (peerId1 peerId2 : jsstring) : list hash_call * jsstring :=
  let sorted := Array_sort [peerId1; peerId2] in
  let combined := Array_join sorted (js ":") in
  let data := TextEncoder_encode combined in
  let '(calls, hashBuffer) := crypto_subtle_digest (js "SHA-256") data in
  let hashHex := bytes_hex hashBuffer in
  (calls, substring 0 16 hashHex).

Definition getActiveSessions : M (list (jsstring * nat)) :=
  fun w =>
    (Normal (filter (fun entry : jsstring * nat =>
                       (isActive <$> session_heap w !! entry.2) = Some true)
                    (sessions w)), w).

Definition closeSession (peerId : jsstring) : M unit :=
  let* registry := gets sessions in
  match JsMap.get registry peerId with
  | Some session => session_close session
  | None => ret tt
  end.

End ChatProtocol.

(** ** Executions

    The program runs one piece of code at a time; these are the pieces
    that the transport, the streams and the callers of the protocol
    start, each run to its end or to the point where it waits. *)

Inductive action :=
| InboundStream (remotePeer : jsstring)   (* the handler registered with node.handle *)
| OpenStream (peerId : jsstring)          (* openStream is called *)
| DialSettled (call : nat)                (* the dial of a waiting openStream settles *)
| SendMessage (peerId content roomId : jsstring)
| Broadcast (content roomId : jsstring)
| CloseSession (peerId : jsstring)
| SessionClose (session : nat)            (* close() on a session the caller holds *)
| SessionSend (session : nat) (message : jsval)
| InboundData (session : nat) (parsed : option jsval)
| InboundEnd (session : nat) (error : option exn)
| OutboundPipe (session : nat)
| SinkBreaks (stream : nat).

Definition perform (a : action) : M unit :=
  match a with
  | InboundStream remotePeer =>
      let* stream := new_stream in
      ChatProtocol.handleIncomingStream stream remotePeer
  | OpenStream peerId =>
      let* existing := ChatProtocol.openStream_existing peerId in
      match existing with
      | Some _ => ret tt
      | None => modify (with_suspended (fun l => l ++ [peerId]))
      end
  | DialSettled call =>
      let* waiting := gets suspended in
      match waiting !! call with
      | Some peerId =>
          modify (with_suspended (delete call)) >>>
          ChatProtocol.openStream_dial peerId >>> ret tt
      | None => ret tt
      end
  | SendMessage peerId content roomId =>
      ChatProtocol.sendMessage peerId content roomId >>> ret tt
  | Broadcast content roomId => ChatProtocol.broadcast content roomId
  | CloseSession peerId => ChatProtocol.closeSession peerId
  | SessionClose session => ChatProtocol.session_close session
  | SessionSend session message => ChatSession.send session message
  | InboundData session parsed => ChatProtocol.session_inbound_data session parsed
  | InboundEnd session error => ChatProtocol.session_inbound_end session error
  | OutboundPipe session => ChatProtocol.session_outbound_pipe session
  | SinkBreaks stream =>
      modify (with_stream_heap (alter (fun st => MkStream (sink st) true (closed st)) stream))
  end.

(** An exception that reaches the top is an unhandled rejection: the
    state stays as the code left it. *)
Definition step (w : world) (a : action) : world := run (perform a) w.

Definition exec (trace : list action) (w : world) : world := fold_left step trace w.

(** ** The derivation the specification describes

    Follows the specification's words, for comparison with
    [ChatProtocol.generateRoomId]: the two identifiers sorted and joined
    with a separator, a 32-bit hash run with two seeds, and the two
    results in hexadecimal, eight digits each. *)

Definition hex32 (x : N) : jsstring := bytes_hex (be_bytes 4 x).

Definition spec_roomId (hash32 : N -> bytes -> N) (seed1 seed2 : N)
  (peerA peerB : jsstring) : list hash_call * jsstring :=
  let data := TextEncoder_encode (Array_join (Array_sort [peerA; peerB]) (js ":")) in
  ([SeededHash32 seed1 data; SeededHash32 seed2 data],
   hex32 (hash32 seed1 data) ++ hex32 (hash32 seed2 data)).

(** ** The frame the specification describes

    Follows the specification's words, for comparison with [lp.frame]:
    a four-byte big-endian length before the chunk. *)
Definition int32BE_frame (chunk : bytes) : bytes :=
  be_bytes 4 (N.of_nat (length chunk)) ++ chunk.

(** ** A platform to run examples on *)

Definition demo : Platform := {|
  node_peerId := js "QmSelf";
  Date_now := fun n => (1700000000000 + Z.of_nat n)%Z;
  Math_random_toString36 := fun n => js "0.4fzyo82mvyr";
  dialProtocol := fun _ _ => Dialed;
  getConnections := fun _ _ => 1;
  setItem := fun _ _ => None;
  Error_stack := fun _ => VStr (js "Error: at openStream");
  sink_error := fun _ => Error (js "stream reset")
|}.


(** The platform [demo] with a storage that refuses one write: the call
    numbered 12, the second write of a broadcast to three sessions that
    are the first thing the program does. *)
Definition flaky : Platform := {|
  node_peerId := node_peerId demo;
  Date_now := Date_now demo;
  Math_random_toString36 := Math_random_toString36 demo;
  dialProtocol := dialProtocol demo;
  getConnections := getConnections demo;
  setItem := fun n _ => if (n =? 12)%nat then Some (js "QuotaExceededError") else None;
  Error_stack := Error_stack demo;
  sink_error := sink_error demo
|}.

(** * Vocabulary of the properties *)

(** The JSON text of a value that has one, and the chunk [send] pushes
    for it. *)
Definition json_text (v : jsval) : jsstring := default [] (JSON_stringify v).
Definition payload (v : jsval) : bytes := TextEncoder_encode (json_text v).

(** A chunk within the limit of [lp.encode]. *)
Definition fits (chunk : bytes) : Prop :=
  (N.of_nat (length chunk) <= lp.MAX_DATA_LENGTH)%N.

(** The length prefix of a frame, byte by byte.  A length within the
    limit takes one to four bytes: seven bits each, the lowest first,
    and every byte but the last with its high bit set. *)
Definition length_prefix (n : N) : bytes :=
  if (n <? 128)%N then [byte_of_N n]
  else if (n <? 16384)%N then
    [byte_of_N (128 + n mod 128); byte_of_N (n / 128)]
  else if (n <? 2097152)%N then
    [byte_of_N (128 + n mod 128); byte_of_N (128 + n / 128 mod 128); byte_of_N (n / 16384)]
  else
    [byte_of_N (128 + n mod 128); byte_of_N (128 + n / 128 mod 128);
     byte_of_N (128 + n / 16384 mod 128); byte_of_N (n / 2097152)].

(** A frame on the stream: the length prefix, then the chunk. *)
Definition framed (chunk : bytes) : bytes :=
  length_prefix (N.of_nat (length chunk)) ++ chunk.

(** The smaller and the larger of two identifiers. *)
Definition lower (a b : jsstring) : jsstring := if js_lt b a then b else a.
Definition upper (a b : jsstring) : jsstring := if js_lt b a then a else b.

(** The type discriminant at the top level of a message. *)
Definition type_of (v : jsval) : jsval :=
  match v with
  | VObj props => props_get props (js "type")
  | _ => VUndefined
  end.

(** A session after one chunk was pushed by [send]. *)
Definition pushed (data : bytes) (s : ChatSession) : ChatSession :=
  ChatSession.incr_seq (ChatSession.outbound_push data s).

(** A session after [close]. *)
Definition closed_session (s : ChatSession) : ChatSession :=
  Session (stream s) (peerId s) (Pushable (queue (outbound s)) true) false (seq s).

(** A session as [handleIncomingStream] and [openStream] leave it: one
    Hello queued. *)
Definition opened_session (stream : nat) (peer ourPeerId : jsstring) : ChatSession :=
  Session stream peer (Pushable [payload (ChatSession.handshake ourPeerId)] false) true 1.

Definition cannot_send : log_line :=
  Log Err (js "[ChatSession] " ++ [0x274C%N] ++ js " Cannot send - session not active") [].

Definition unknown_type (type : jsval) : log_line :=
  Log Warn (js "Unknown message type:") [type].

Definition connected (peer : jsstring) : jsstring * jsval :=
  (js "chat:connected", VObj [(js "peerId", VStr peer)]).

Definition disconnected (peer : jsstring) : jsstring * jsval :=
  (js "chat:disconnected", VObj [(js "peerId", VStr peer)]).

Definition message_sent (message : jsval) : jsstring * jsval :=
  (js "message:sent", message).

Definition peer_handshake (peer : jsstring) (capabilities : jsval) : jsstring * jsval :=
  (js "peer:handshake",
   VObj [(js "peerId", VStr peer); (js "capabilities", capabilities)]).

(** The event identifier generated when the platform has answered [t]
    calls, and the message [sendMessage] then builds for a session. *)
Definition event_id_at (p : Platform) (t : nat) : jsstring :=
  Number_toString (Date_now p t) ++ js "_" ++ substring 2 9 (Math_random_toString36 p (S t)).

Definition message_at (p : Platform) (t : nat) (content roomId : jsstring)
  (s : ChatSession) : jsval :=
  ChatProtocol.chat_message (node_peerId p) roomId (Date_now p t) (seq s)
    (event_id_at p (S t)) content.

(** The entry [addMessage] appends for a message. *)
Definition stored_entry (message : jsval) (now : Z) : jsval :=
  VObj (props_set (spread message) (js "stored_at") (VNum now)).

(** The key of a room's history in [localStorage]. *)
Definition history_key (roomId : jsstring) : jsstring :=
  ChatHistoryStorage._getKey (js "history-" ++ roomId).

Definition history (w : world) (roomId : jsstring) : list jsval :=
  default [] (localStorage w !! history_key roomId).


(** The registry has one entry per key, and the entry of a peer refers
    to a session object of that peer. *)
Definition registry_ok (w : world) : Prop :=
  NoDup (JsMap.keys (sessions w)) /\
  forall p r, (p, r) ∈ sessions w ->
    exists s, session_heap w !! r = Some s /\ peerId s = p.

(** Every active session object is the one the registry holds for its
    peer. *)
Definition live_registered (w : world) : Prop :=
  forall r s, session_heap w !! r = Some s -> isActive s = true ->
    (peerId s, r) ∈ sessions w.

Definition sessions_ok (w : world) : Prop := registry_ok w /\ live_registered w.

(** No peer has two active session objects. *)
Definition one_live_session_per_peer (w : world) : Prop :=
  forall r1 r2 s1 s2,
    session_heap w !! r1 = Some s1 -> session_heap w !! r2 = Some s2 ->
    isActive s1 = true -> isActive s2 = true -> peerId s1 = peerId s2 ->
    r1 = r2.

(** An execution in which no [openStream] is overtaken: whenever a dial
    settles, the peer it was for has no session registered. *)
Fixpoint not_overtaken (trace : list action) (w : world) : Prop :=
  match trace with
  | [] => True
  | a :: rest =>
      match a with
      | DialSettled call =>
          forall peer, suspended w !! call = Some peer ->
                       JsMap.has (sessions w) peer = false
      | _ => True
      end /\ not_overtaken rest (step w a)
  end.

(** The session objects of a peer that are active. *)
Definition live_sessions (peer : jsstring) (w : world) : list nat :=
  omap id (imap (fun r s => if bool_decide (peerId s = peer) && isActive s
                            then Some r else None)
                (session_heap w)).

(** The registered sessions that are active, as [broadcast] and
    [getActiveSessions] select them. *)
Definition active_entries (w : world) : list (jsstring * nat) :=
  filter (fun entry : jsstring * nat =>
            (isActive <$> session_heap w !! entry.2) = Some true) (sessions w).


(** The envelope of a chat message, field by field, as it is built for
    a session when the platform has answered [t] calls: the time, and
    the event identifier made of the time and of seven characters of a
    random number. *)
Definition room_message (p : Platform) (roomId body : jsstring) (t : nat) (s : ChatSession)
  : list (jsstring * jsval) :=
  [ (js "type", VStr (js "m.room.message"));
    (js "sender", VStr (node_peerId p));
    (js "room_id", VStr roomId);
    (js "origin_ts", VNum (Date_now p t));
    (js "seq", VNum (seq s));
    (js "event_id",
     VStr (Number_toString (Date_now p (S t)) ++ js "_"
           ++ substring 2 9 (Math_random_toString36 p (S (S t)))));
    (js "content", VObj [(js "msgtype", VStr (js "m.text")); (js "body", VStr body)]) ].


(** What the loop of [broadcast] leaves alone. *)
Definition same_but_heap_ticks (w w' : world) : Prop :=
  platform w' = platform w /\ stream_heap w' = stream_heap w /\
  sessions w' = sessions w /\ localStorage w' = localStorage w /\
  emitted w' = emitted w /\ console w' = console w /\ suspended w' = suspended w /\
  length (session_heap w') = length (session_heap w).

(** A chat message of [broadcast] for a session: the sender is this
    node, room and body are the arguments, and the sequence number is
    the one of the session. *)
Definition broadcast_message (w : world) (content roomId : jsstring)
  (s : ChatSession) (m : jsval) : Prop :=
  exists origin_ts event_id,
    m = ChatProtocol.chat_message (node_peerId (platform w)) roomId origin_ts
          (seq s) event_id content.

(** The outcome of the loop of [broadcast] for one entry of the
    registry: an active session got one chat message pushed, an
    inactive one nothing. *)
Definition sent_to (w0 w' : world) (content roomId : jsstring)
  (entry : jsstring * nat) (promise : option (completion jsval)) : Prop :=
  exists s, session_heap w0 !! entry.2 = Some s /\
    if isActive s then
      exists m, broadcast_message w0 content roomId s m /\
        promise = Some (Normal m) /\
        session_heap w' !! entry.2 = Some (pushed (payload m) s)
    else promise = None /\ session_heap w' !! entry.2 = Some s.


(** * Properties *)

Arguments JSON_stringify : simpl never.
Arguments TextEncoder_encode : simpl never.
Arguments js : simpl never.

(** ** Running a computation step by step *)

Lemma bind_normal {A B} (m : M A) (k : A -> M B) (w w1 : world) (a : A)
  (r : completion B * world) :
  m w = (Normal a, w1) -> k a w1 = r -> bind m k w = r.
Proof. intros Hm Hk. unfold bind. rewrite Hm. exact Hk. Qed.

Lemma bind_throw {A B} (m : M A) (k : A -> M B) (w w1 : world) (e : exn) :
  m w = (Throw e, w1) -> bind m k w = (Throw e, w1).
Proof. intros Hm. unfold bind. rewrite Hm. reflexivity. Qed.

Lemma try_catch_normal {A} (m : M A) (handler : exn -> M A) (w w1 : world) (a : A) :
  m w = (Normal a, w1) -> try_catch m handler w = (Normal a, w1).
Proof. intros Hm. unfold try_catch. rewrite Hm. reflexivity. Qed.

Lemma try_catch_throw {A} (m : M A) (handler : exn -> M A) (w w1 : world) (e : exn) :
  m w = (Throw e, w1) -> try_catch m handler w = handler e w1.
Proof. intros Hm. unfold try_catch. rewrite Hm. reflexivity. Qed.

Lemma deref_some (w : world) (this : nat) (s : ChatSession) :
  session_heap w !! this = Some s -> ChatSession.deref this w = (Normal s, w).
Proof. intros Hs. unfold ChatSession.deref. rewrite Hs. reflexivity. Qed.

Lemma alter_snoc {A} (f : A -> A) (l : list A) (x : A) :
  alter f (length l) (l ++ [x]) = l ++ [f x].
Proof.
  rewrite (alter_app_r_alt f l [x] (length l)) by lia.
  now rewrite Nat.sub_diag.
Qed.

Lemma JSON_stringify_object (props : list (jsstring * jsval)) :
  JSON_stringify (VObj props) = Some (json_text (VObj props)).
Proof. reflexivity. Qed.
(** ** Room identifiers *)

(** The digest of the test vector of FIPS 180-4, and of a message of two
    blocks. *)
Example sha256_abc :
  bytes_hex (SHA256.digest (TextEncoder_encode (js "abc")))
  = js "ba7816bf8f01cfea414140de5dae2223b00361a396177a9cb410ff61f20015ad".
Proof. vm_compute. reflexivity. Qed.

Example sha256_two_blocks :
  bytes_hex (SHA256.digest (repeat Byte.x61 100))
  = js "2816597888e4a0d3a36b82b83316ab32680eb8f00f8cd3b904d681246d285a0e".
Proof. vm_compute. reflexivity. Qed.

Lemma js_lt_irrefl (x : jsstring) : js_lt x x = false.
Proof.
  induction x as [|c x IH]; simpl; [reflexivity|].
  rewrite N.ltb_irrefl. exact IH.
Qed.

Lemma js_lt_asym (x y : jsstring) : js_lt x y = true -> js_lt y x = false.
Proof.
  revert y. induction x as [|c x IH]; intros [|d y]; simpl; try easy.
  destruct (N.ltb_spec c d), (N.ltb_spec d c); try easy; try lia.
  apply IH.
Qed.

Lemma js_lt_total (x y : jsstring) :
  js_lt x y = false -> js_lt y x = false -> x = y.
Proof.
  revert y. induction x as [|c x IH]; intros [|d y]; simpl; try easy.
  destruct (N.ltb_spec c d), (N.ltb_spec d c); try easy.
  intros Hxy Hyx. f_equal; [lia | auto].
Qed.

(** Sorting a pair puts the smaller identifier first. *)
Lemma Array_sort_pair (a b : jsstring) :
  Array_sort [a; b] = if js_lt b a then [b; a] else [a; b].
Proof. reflexivity. Qed.

Lemma Array_sort_pair_comm (a b : jsstring) : Array_sort [a; b] = Array_sort [b; a].
Proof.
  rewrite !Array_sort_pair.
  destruct (js_lt b a) eqn:Hba.
  - rewrite (js_lt_asym _ _ Hba). reflexivity.
  - destruct (js_lt a b) eqn:Hab; [reflexivity|].
    rewrite (js_lt_total _ _ Hab Hba). reflexivity.
Qed.

(** C4. The room identifier does not depend on the order of the two
    peers: [generateRoomId a b] and [generateRoomId b a] are the same
    identifier, obtained from the same hash computation.  The derivation
    is a function of its two arguments, so the same pair always gives
    the same identifier. *)
Theorem generateRoomId_symmetric (a b : jsstring) :
  ChatProtocol.generateRoomId a b = ChatProtocol.generateRoomId b a.
Proof.
  unfold ChatProtocol.generateRoomId.
  rewrite (Array_sort_pair_comm a b). reflexivity.
Qed.

Lemma be_bytes_length (n : nat) (x : N) : length (be_bytes n x) = n.
Proof. induction n as [|n IH]; simpl; [reflexivity | now rewrite IH]. Qed.

Lemma digest_length (msg : bytes) : length (SHA256.digest msg) = 32%nat.
Proof.
  unfold SHA256.digest, SHA256.state_bytes.
  rewrite !length_app, !be_bytes_length. reflexivity.
Qed.

Lemma bytes_hex_length (bs : bytes) : length (bytes_hex bs) = (2 * length bs)%nat.
Proof.
  induction bs as [|b bs IH]; simpl; [reflexivity|].
  rewrite IH. lia.
Qed.

Lemma bytes_hex_take (k : nat) (bs : bytes) :
  take (2 * k) (bytes_hex bs) = bytes_hex (take k bs).
Proof.
  revert bs. induction k as [|k IH]; intros bs; [reflexivity|].
  destruct bs as [|b bs]; [reflexivity|].
  replace (2 * S k)%nat with (S (S (2 * k))) by lia.
  simpl. f_equal. f_equal. apply IH.
Qed.

(** C5, as the code has it.  The two identifiers are sorted and joined
    with a colon, the UTF-8 bytes of that string are hashed once with
    SHA-256, and the identifier is the first sixteen hexadecimal digits
    of the digest, that is its first eight bytes. *)
Theorem generateRoomId_sha256_prefix (a b : jsstring) :
  let data := TextEncoder_encode (lower a b ++ js ":" ++ upper a b) in
  ChatProtocol.generateRoomId a b =
    ([SubtleDigest (js "SHA-256") data], bytes_hex (take 8 (SHA256.digest data)))
  /\ length (ChatProtocol.generateRoomId a b).2 = 16%nat.
Proof.
  assert (Hid : ChatProtocol.generateRoomId a b =
    ([SubtleDigest (js "SHA-256")
        (TextEncoder_encode (lower a b ++ js ":" ++ upper a b))],
     bytes_hex (take 8 (SHA256.digest
        (TextEncoder_encode (lower a b ++ js ":" ++ upper a b)))))).
  { unfold ChatProtocol.generateRoomId, lower, upper.
    rewrite Array_sort_pair.
    destruct (js_lt b a); simpl Array_join;
      unfold crypto_subtle_digest, substring; cbn [bool_decide];
      rewrite (bool_decide_eq_true_2 _ eq_refl);
      rewrite drop_0; change (16 - 0)%nat with (2 * 8)%nat;
      rewrite bytes_hex_take; reflexivity. }
  split; [exact Hid|].
  rewrite Hid. cbn [snd].
  rewrite bytes_hex_length, length_take, digest_length. reflexivity.
Qed.

(** C5, as the specification has it, fails: whatever the 32-bit hash
    and the two seeds, the derivation of the specification runs that
    hash twice, and the code computes one SHA-256 digest. *)
Lemma generateRoomId_not_seeded_hash32 :
  ~ exists (hash32 : N -> bytes -> N) (seed1 seed2 : N),
      ChatProtocol.generateRoomId (js "QmPeerA") (js "QmPeerB")
      = spec_roomId hash32 seed1 seed2 (js "QmPeerA") (js "QmPeerB").
Proof.
  intros (hash32 & seed1 & seed2 & H).
  apply (f_equal fst) in H. discriminate H.
Qed.

(** The identifier of the pair the tests use. *)
Example generateRoomId_QmPeerA_QmPeerB :
  (ChatProtocol.generateRoomId (js "QmPeerB") (js "QmPeerA")).2 = js "73be3e46c40be7d9".
Proof. vm_compute. reflexivity. Qed.

(** ** Sending on a session *)

Lemma send_active (w : world) (this : nat) (s : ChatSession) (message : jsval)
  (text : jsstring) :
  session_heap w !! this = Some s -> isActive s = true ->
  JSON_stringify message = Some text ->
  ChatSession.send this message w =
    (Normal tt, with_session_heap (alter (pushed (TextEncoder_encode text)) this) w).
Proof.
  intros Hs Hact Htext.
  unfold ChatSession.send. eapply bind_normal; [apply deref_some, Hs|].
  rewrite Hact. cbn [negb]. unfold try_catch, bind. rewrite Htext. cbn.
  unfold with_session_heap. cbn. rewrite list_alter_alter_eq. reflexivity.
Qed.

Lemma send_object (w : world) (this : nat) (s : ChatSession)
  (props : list (jsstring * jsval)) :
  session_heap w !! this = Some s -> isActive s = true ->
  ChatSession.send this (VObj props) w =
    (Normal tt, with_session_heap (alter (pushed (payload (VObj props))) this) w).
Proof.
  intros Hs Hact. apply (send_active w this s _ _ Hs Hact), JSON_stringify_object.
Qed.

Lemma send_inactive (w : world) (this : nat) (s : ChatSession) (message : jsval) :
  session_heap w !! this = Some s -> isActive s = false ->
  ChatSession.send this message w =
    (Throw (Error (js "Session is not active")),
     with_console (fun c => c ++ [cannot_send]) w).
Proof.
  intros Hs Hact.
  unfold ChatSession.send. eapply bind_normal; [apply deref_some, Hs|].
  rewrite Hact. reflexivity.
Qed.

(** On an active session [send] either queues the chunk or, for a value
    without JSON text, fails with a [TypeError]. *)
Lemma send_active_outcome (w : world) (this : nat) (s : ChatSession) (message : jsval) :
  session_heap w !! this = Some s -> isActive s = true ->
  (ChatSession.send this message w).1 = Normal tt \/
  exists m, (ChatSession.send this message w).1 = Throw (TypeError m).
Proof.
  intros Hs Hact. destruct (JSON_stringify message) as [text|] eqn:Htext.
  - left. rewrite (send_active w this s message text Hs Hact Htext). reflexivity.
  - right. eexists.
    unfold ChatSession.send. erewrite bind_normal; [|apply deref_some, Hs|reflexivity].
    rewrite Hact. cbn [negb]. unfold try_catch, bind. rewrite Htext. reflexivity.
Qed.

(** C8. [send] fails with the error "Session is not active" exactly
    when the session has closed.  On an active session it takes any
    message that has a JSON text, whatever else the state is (no Hello
    needs to have been sent or received): the chunk is appended to the
    outbound queue and the counter goes up by one; no stream is
    written, that is left to the outbound pipe. *)
Theorem send_fails_iff_inactive (w : world) (this : nat) (s : ChatSession)
  (message : jsval) :
  session_heap w !! this = Some s ->
  ((ChatSession.send this message w).1 = Throw (Error (js "Session is not active"))
     <-> isActive s = false)
  /\ (isActive s = true ->
      forall text, JSON_stringify message = Some text ->
        ChatSession.send this message w =
          (Normal tt,
           with_session_heap (alter (pushed (TextEncoder_encode text)) this) w)).
Proof.
  intros Hs. split; [split|].
  - intros Hfail. destruct (isActive s) eqn:Hact; [|reflexivity].
    destruct (send_active_outcome w this s message Hs Hact) as [H|[m H]];
      rewrite H in Hfail; discriminate Hfail.
  - intros Hact. rewrite (send_inactive w this s message Hs Hact). reflexivity.
  - intros Hact text Htext. exact (send_active w this s message text Hs Hact Htext).
Qed.

(** A session on which no Hello was sent or received takes a chat
    message; a closed one refuses it. *)
Lemma send_fails_iff_inactive_witness :
  let w := run (ChatSession.new 0 (js "QmPeer")) (initial demo) in
  let message := ChatProtocol.chat_message (js "QmSelf") (js "room") 1 0 (js "e") (js "hi") in
  session_heap w !! 0%nat = Some (Session 0 (js "QmPeer") (Pushable [] false) true 0)
  /\ ChatSession.send 0 message w =
       (Normal tt, with_session_heap (alter (pushed (payload message)) 0%nat) w)
  /\ (ChatSession.send 0 message w).1 <> Throw (Error (js "Session is not active")).
Proof.
  cbv zeta.
  pose proof (send_fails_iff_inactive
                (run (ChatSession.new 0 (js "QmPeer")) (initial demo)) 0
                (Session 0 (js "QmPeer") (Pushable [] false) true 0)
                (ChatProtocol.chat_message (js "QmSelf") (js "room") 1 0 (js "e") (js "hi"))
                eq_refl) as [Hiff Hsend].
  split; [reflexivity|]. split.
  - exact (Hsend eq_refl _ (JSON_stringify_object _)).
  - intros Hfail. apply Hiff in Hfail. discriminate Hfail.
Defined.

(** ** Closing a session *)

Lemma session_close_active (w : world) (this : nat) (s : ChatSession) :
  session_heap w !! this = Some s -> isActive s = true ->
  ChatProtocol.session_close this w =
    (Normal tt,
     World (platform w) (alter closed_session this (session_heap w)) (stream_heap w)
           (JsMap.delete (sessions w) (peerId s)) (localStorage w)
           (emitted w ++ [disconnected (peerId s)]) (console w) (ticks w) (suspended w)).
Proof.
  intros Hs Hact.
  unfold ChatProtocol.session_close, ChatSession.close.
  eapply bind_normal; [apply deref_some, Hs|].
  rewrite Hact. cbn.
  unfold with_emitted, with_sessions, with_session_heap. cbn.
  rewrite list_alter_alter_eq. reflexivity.
Qed.

Lemma session_close_inactive (w : world) (this : nat) (s : ChatSession) :
  session_heap w !! this = Some s -> isActive s = false ->
  ChatProtocol.session_close this w = (Normal tt, w).
Proof.
  intros Hs Hact.
  unfold ChatProtocol.session_close, ChatSession.close.
  eapply bind_normal; [apply deref_some, Hs|].
  rewrite Hact. reflexivity.
Qed.

(** C6. Closing is idempotent.  The first [close] of an active session
    ends its outbound queue, marks it inactive and calls the close
    callback, which removes the registry entry of the peer and emits
    one [chat:disconnected]; a second [close] changes nothing, so two
    closes in a row produce exactly one [chat:disconnected]. *)
Theorem close_idempotent (w : world) (this : nat) (s : ChatSession) :
  session_heap w !! this = Some s -> isActive s = true ->
  let w1 := run (ChatProtocol.session_close this) w in
  let w2 := run (ChatProtocol.session_close this) w1 in
  session_heap w1 !! this = Some (closed_session s)
  /\ sessions w1 = JsMap.delete (sessions w) (peerId s)
  /\ emitted w1 = emitted w ++ [disconnected (peerId s)]
  /\ ChatProtocol.session_close this w1 = (Normal tt, w1)
  /\ emitted w2 = emitted w ++ [disconnected (peerId s)].
Proof.
  intros Hs Hact w1 w2.
  assert (H1 : session_heap w1 !! this = Some (closed_session s)).
  { unfold w1, run. rewrite (session_close_active w this s Hs Hact). cbn.
    rewrite list_lookup_alter_eq, Hs. reflexivity. }
  assert (H2 : ChatProtocol.session_close this w1 = (Normal tt, w1)).
  { apply (session_close_inactive w1 this _ H1). reflexivity. }
  split; [exact H1|].
  unfold w2, run. rewrite H2. cbn [snd].
  unfold w1, run. rewrite (session_close_active w this s Hs Hact). cbn.
  auto.
Qed.

(** The session of an inbound stream, closed twice. *)
Lemma close_idempotent_witness :
  let w := exec [InboundStream (js "QmPeer")] (initial demo) in
  let w2 := exec [SessionClose 0; SessionClose 0] w in
  emitted w = [connected (js "QmPeer")]
  /\ emitted w2 = [connected (js "QmPeer"); disconnected (js "QmPeer")]
  /\ sessions w2 = [].
Proof.
  cbv zeta.
  pose proof (close_idempotent (exec [InboundStream (js "QmPeer")] (initial demo)) 0
                (opened_session 0 (js "QmPeer") (js "QmSelf")) eq_refl eq_refl)
    as (_ & Hreg & _ & _ & Hev).
  split; [reflexivity|]. split; [exact Hev|exact Hreg].
Defined.

(** Closing twice is closing once, for every session reference. *)
Lemma session_close_twice (w : world) (this : nat) :
  run (ChatProtocol.session_close this) (run (ChatProtocol.session_close this) w)
  = run (ChatProtocol.session_close this) w.
Proof.
  destruct (session_heap w !! this) as [s|] eqn:Hs.
  - destruct (isActive s) eqn:Hact.
    + unfold run at 2 3. rewrite (session_close_active w this s Hs Hact). cbn [snd].
      unfold run.
      rewrite (session_close_inactive _ this (closed_session s)); [reflexivity| |reflexivity].
      cbn. rewrite list_lookup_alter_eq, Hs. reflexivity.
    + unfold run. rewrite (session_close_inactive w this s Hs Hact). cbn.
      rewrite (session_close_inactive w this s Hs Hact). reflexivity.
  - unfold run, ChatProtocol.session_close, ChatSession.close, ChatSession.deref, bind.
    rewrite Hs. cbn. rewrite Hs. reflexivity.
Qed.
(** ** Frames and envelopes *)

(** *** The length prefix *)

Lemma byte_of_N_to_N (x : N) : (x < 256)%N -> Byte.to_N (byte_of_N x) = x.
Proof.
  intros Hx. unfold byte_of_N. rewrite N.mod_small by exact Hx.
  destruct (Byte.of_N x) as [b|] eqn:Hb.
  - apply Byte.to_of_N, Hb.
  - apply Byte.of_N_None_iff in Hb. lia.
Qed.

(** [(value & 0xFF) | MSB], as a number. *)
Lemma continuation_byte (value : N) :
  N.lor (N.land value 255) 128 = (128 + value mod 128)%N.
Proof.
  change 255%N with (N.lor 127 128). rewrite N.land_lor_distr_r, <- N.lor_assoc.
  replace (N.lor (N.land value 128) 128) with 128%N.
  2:{ apply N.bits_inj. intros i. rewrite N.lor_spec, N.land_spec.
      destruct (N.testbit 128 i); [now rewrite orb_true_r|now rewrite andb_false_r]. }
  change 127%N with (N.ones 7). rewrite N.land_ones. change (2 ^ 7)%N with 128%N.
  rewrite <- N.lxor_lor.
  - rewrite <- N.add_nocarry_lxor; [apply N.add_comm|].
    change (value mod 128)%N with (value mod 2 ^ 7)%N. rewrite <- N.land_ones.
    rewrite <- N.land_assoc. change (N.land (N.ones 7) 128) with 0%N. apply N.land_0_r.
  - change (value mod 128)%N with (value mod 2 ^ 7)%N. rewrite <- N.land_ones.
    rewrite <- N.land_assoc. change (N.land (N.ones 7) 128) with 0%N. apply N.land_0_r.
Qed.

Lemma shiftr_7 (value : N) : N.shiftr value 7 = (value / 128)%N.
Proof. rewrite N.shiftr_div_pow2. reflexivity. Qed.

(** The varint of a length within the limit is the prefix spelled out
    in [length_prefix]. *)
Lemma encodeLength_prefix (n : N) :
  (n <= lp.MAX_DATA_LENGTH)%N -> lp.encodeLength n = length_prefix n.
Proof.
  unfold lp.MAX_DATA_LENGTH, lp.encodeLength, length_prefix. intros Hn.
  cbn [lp.varint].
  destruct (N.ltb_spec n 128) as [H1|H1]; [reflexivity|].
  rewrite continuation_byte, shiftr_7.
  destruct (N.ltb_spec n 16384) as [H2|H2].
  { destruct (N.ltb_spec (n / 128) 128) as [_|H]; [reflexivity|].
    exfalso. pose proof (N.Div0.div_lt_upper_bound n 128 128). lia. }
  destruct (N.ltb_spec (n / 128) 128) as [H|_].
  { exfalso. pose proof (N.Div0.mul_div_le n 128).
    pose proof (N.mod_lt n 128). pose proof (N.div_mod n 128). lia. }
  rewrite continuation_byte, shiftr_7, N.Div0.div_div. change (128 * 128)%N with 16384%N.
  destruct (N.ltb_spec n 2097152) as [H3|H3].
  { destruct (N.ltb_spec (n / 16384) 128) as [_|H]; [reflexivity|].
    exfalso. pose proof (N.Div0.div_lt_upper_bound n 16384 128). lia. }
  destruct (N.ltb_spec (n / 16384) 128) as [H|_].
  { exfalso. pose proof (N.mod_lt n 16384). pose proof (N.div_mod n 16384). lia. }
  rewrite continuation_byte, shiftr_7, N.Div0.div_div. change (16384 * 128)%N with 2097152%N.
  destruct (N.ltb_spec (n / 2097152) 128) as [_|H]; [reflexivity|].
  exfalso. pose proof (N.Div0.div_lt_upper_bound n 2097152 128). lia.
Qed.

Lemma frame_framed (chunk : bytes) : fits chunk -> lp.frame chunk = framed chunk.
Proof. intros Hfits. unfold lp.frame, framed. now rewrite encodeLength_prefix. Qed.

Lemma encode_fits (chunk : bytes) : fits chunk -> lp.encode chunk = Normal (lp.frame chunk).
Proof.
  unfold fits, lp.encode. intros Hfits.
  destruct (N.ltb_spec lp.MAX_DATA_LENGTH (N.of_nat (length chunk))); [lia|reflexivity].
Qed.

Lemma encode_refuses (chunk : bytes) :
  ~ fits chunk -> lp.encode chunk = Throw lp.InvalidDataLengthError.
Proof.
  unfold fits, lp.encode. intros Hfits.
  destruct (N.ltb_spec lp.MAX_DATA_LENGTH (N.of_nat (length chunk))); [reflexivity|lia].
Qed.

(** Quotients and remainders by a constant, for [lia]. *)
Ltac Zify.zify_post_hook ::= Z.div_mod_to_equations.

(** Reading a length prefix gives the length back. *)
Lemma varint_decode_prefix (n : N) (rest : bytes) :
  (n <= lp.MAX_DATA_LENGTH)%N ->
  lp.varint_decode lp.MAX_LENGTH_LENGTH (length_prefix n ++ rest) = Some (n, rest).
Proof.
  unfold lp.MAX_DATA_LENGTH, lp.MAX_LENGTH_LENGTH, length_prefix. intros Hn.
  pose proof (N.mod_lt n 128 ltac:(lia)) as Hm0.
  pose proof (N.mod_lt (n / 128) 128 ltac:(lia)) as Hm1.
  pose proof (N.mod_lt (n / 16384) 128 ltac:(lia)) as Hm2.
  pose proof (N.div_mod n 128 ltac:(lia)) as Hd0.
  pose proof (N.div_mod (n / 128) 128 ltac:(lia)) as Hd1.
  pose proof (N.div_mod (n / 16384) 128 ltac:(lia)) as Hd2.
  rewrite N.Div0.div_div in Hd1. change (128 * 128)%N with 16384%N in Hd1.
  rewrite N.Div0.div_div in Hd2. change (16384 * 128)%N with 2097152%N in Hd2.
  assert (Hlow : forall a, (a < 128)%N -> N.land (128 + a) 127 = a).
  { intros a Ha. change 127%N with (N.ones 7). rewrite N.land_ones.
    change (2 ^ 7)%N with 128%N.
    rewrite <- (N.Div0.add_mod_idemp_l 128 a 128), N.Div0.mod_same, N.add_0_l.
    apply N.mod_small, Ha. }
  destruct (N.ltb_spec n 128) as [H1|H1].
  { cbn [app lp.varint_decode]. rewrite byte_of_N_to_N by lia.
    destruct (N.ltb_spec n 128); [reflexivity|lia]. }
  destruct (N.ltb_spec n 16384) as [H2|H2].
  { assert (n / 128 < 128)%N by lia.
    cbn [app lp.varint_decode]. rewrite !byte_of_N_to_N by lia.
    destruct (N.ltb_spec (128 + n mod 128) 128); [lia|].
    destruct (N.ltb_spec (n / 128) 128); [|lia].
    rewrite Hlow by lia. do 2 f_equal. lia. }
  destruct (N.ltb_spec n 2097152) as [H3|H3].
  { assert (n / 16384 < 128)%N by lia.
    cbn [app lp.varint_decode]. rewrite !byte_of_N_to_N by lia.
    destruct (N.ltb_spec (128 + n mod 128) 128); [lia|].
    destruct (N.ltb_spec (128 + n / 128 mod 128) 128); [lia|].
    destruct (N.ltb_spec (n / 16384) 128); [|lia].
    rewrite !Hlow by lia. do 2 f_equal. lia. }
  assert (n / 2097152 < 128)%N by lia.
  cbn [app lp.varint_decode]. rewrite !byte_of_N_to_N by lia.
  destruct (N.ltb_spec (128 + n mod 128) 128); [lia|].
  destruct (N.ltb_spec (128 + n / 128 mod 128) 128); [lia|].
  destruct (N.ltb_spec (128 + n / 16384 mod 128) 128); [lia|].
  destruct (N.ltb_spec (n / 2097152) 128); [|lia].
  rewrite !Hlow by lia. do 2 f_equal. lia.
Qed.

Ltac Zify.zify_post_hook ::= idtac.

Lemma length_prefix_cons (n : N) : exists b prefix, length_prefix n = b :: prefix.
Proof. unfold length_prefix. repeat destruct (_ <? _)%N; eauto. Qed.

(** [lp.decode] reads back the chunks of the frames [lp.encode] makes. *)
Lemma decode_frames_framed (chunks : list bytes) :
  Forall fits chunks ->
  forall frames, length chunks <= frames ->
    lp.decode_frames frames (concat (framed <$> chunks)) = (chunks, true).
Proof.
  induction 1 as [|chunk chunks Hfits _ IH]; intros frames Hframes.
  - destruct frames; reflexivity.
  - destruct frames as [|frames]; [cbn in Hframes; lia|].
    rewrite fmap_cons. cbn [concat]. unfold framed at 1. rewrite <- app_assoc.
    destruct (length_prefix_cons (N.of_nat (length chunk))) as (b & prefix & Hprefix).
    rewrite Hprefix. cbn [app lp.decode_frames].
    change (b :: prefix ++ chunk ++ concat (framed <$> chunks))
      with ((b :: prefix) ++ chunk ++ concat (framed <$> chunks)).
    rewrite <- Hprefix, (varint_decode_prefix _ _ Hfits).
    unfold fits in Hfits.
    destruct (N.ltb_spec lp.MAX_DATA_LENGTH (N.of_nat (length chunk))); [lia|].
    destruct (N.ltb_spec (N.of_nat (length (chunk ++ concat (framed <$> chunks))))
                (N.of_nat (length chunk))) as [Hshort|_].
    { rewrite length_app in Hshort. lia. }
    rewrite Nat2N.id, drop_app_length, take_app_length, IH by (cbn in Hframes; lia).
    reflexivity.
Qed.

Lemma framed_length (chunks : list bytes) :
  length chunks <= length (concat (framed <$> chunks)).
Proof.
  induction chunks as [|chunk chunks IH]; [reflexivity|].
  rewrite fmap_cons. cbn [concat]. rewrite length_app. unfold framed at 1.
  destruct (length_prefix_cons (N.of_nat (length chunk))) as (b & prefix & ->).
  cbn [length app]. lia.
Qed.

Lemma decode_framed (chunks : list bytes) :
  Forall fits chunks -> lp.decode (concat (framed <$> chunks)) = (chunks, true).
Proof.
  intros Hfits. apply decode_frames_framed; [exact Hfits|apply framed_length].
Qed.

(** *** The outbound pipe *)

Lemma outbound_pipe_writes (w : world) (this : nat) (s : ChatSession)
  (chunk : bytes) (rest : list bytes) (st : Stream) :
  session_heap w !! this = Some s ->
  queue (outbound s) = chunk :: rest ->
  stream_heap w !! stream s = Some st -> broken st = false ->
  fits chunk ->
  ChatProtocol.session_outbound_pipe this w =
    (Normal tt,
     with_stream_heap
       (alter (fun st => MkStream (sink st ++ [lp.frame chunk])
                                  (broken st) (closed st)) (stream s))
       (with_session_heap (alter (ChatSession.set_queue rest) this) w)).
Proof.
  intros Hs Hq Hst Hok Hfits.
  unfold ChatProtocol.session_outbound_pipe, ChatSession.outbound_pipe.
  eapply bind_normal; [apply deref_some, Hs|]. rewrite Hq.
  eapply bind_normal; [unfold stream_deref; rewrite Hst; reflexivity|].
  rewrite (encode_fits chunk Hfits), Hok. reflexivity.
Qed.

(** The pipe fails, for a chunk [lp.encode] refuses and for a sink that
    fails: the queue is dropped, the error logged, the session closed. *)
Lemma outbound_pipe_fails (w : world) (this : nat) (s : ChatSession) (chunk : bytes)
  (rest : list bytes) (st : Stream) :
  session_heap w !! this = Some s -> isActive s = true ->
  queue (outbound s) = chunk :: rest ->
  stream_heap w !! stream s = Some st ->
  ~ fits chunk \/ broken st = true ->
  exists err,
    (err = if decide (fits chunk) then sink_error (platform w) (stream s)
           else lp.InvalidDataLengthError)
    /\ ChatProtocol.session_outbound_pipe this w =
         (Normal tt,
          World (platform w)
            (alter (fun s => closed_session (ChatSession.set_queue [] s)) this (session_heap w))
            (stream_heap w) (JsMap.delete (sessions w) (peerId s)) (localStorage w)
            (emitted w ++ [disconnected (peerId s)])
            (console w ++ [Log Err (js "Outbound pipe error:") [exn_value err]])
            (ticks w) (suspended w)).
Proof.
  intros Hs Hact Hq Hst Hfail.
  assert (Hfailed : forall err,
             ChatSession.outbound_failed ChatProtocol.handleSessionClose this err w =
               (Normal tt,
                World (platform w)
                  (alter (fun s => closed_session (ChatSession.set_queue [] s)) this
                     (session_heap w))
                  (stream_heap w) (JsMap.delete (sessions w) (peerId s)) (localStorage w)
                  (emitted w ++ [disconnected (peerId s)])
                  (console w ++ [Log Err (js "Outbound pipe error:") [exn_value err]])
                  (ticks w) (suspended w))).
  { intros err. unfold ChatSession.outbound_failed.
    eapply bind_normal; [reflexivity|].
    eapply bind_normal; [reflexivity|].
    match goal with
    | |- ChatSession.close _ _ ?w1 = _ =>
        pose proof (session_close_active w1 this (ChatSession.set_queue [] s)) as Hclose
    end.
    unfold ChatProtocol.session_close in Hclose. rewrite Hclose.
    - cbn. rewrite list_alter_alter_eq. reflexivity.
    - cbn. rewrite list_lookup_alter_eq, Hs. reflexivity.
    - exact Hact. }
  eexists. split; [reflexivity|].
  unfold ChatProtocol.session_outbound_pipe, ChatSession.outbound_pipe.
  eapply bind_normal; [apply deref_some, Hs|]. rewrite Hq.
  eapply bind_normal; [unfold stream_deref; rewrite Hst; reflexivity|].
  destruct (decide (fits chunk)) as [Hfits|Hfits].
  - destruct Hfail as [Hno|Hbroken]; [contradiction|].
    rewrite (encode_fits chunk Hfits), Hbroken.
    eapply bind_normal; [reflexivity|]. apply Hfailed.
  - rewrite (encode_refuses chunk Hfits). apply Hfailed.
Qed.

(** The outbound pipe of a session whose stream works empties the
    queue into the stream, oldest chunk first, one frame per chunk. *)
Lemma outbound_pipe_drains (q : list bytes) :
  forall (w : world) (this : nat) (s : ChatSession) (st : Stream),
    session_heap w !! this = Some s -> queue (outbound s) = q ->
    stream_heap w !! stream s = Some st -> broken st = false ->
    Forall fits q ->
    let w' := exec (replicate (length q) (OutboundPipe this)) w in
    stream_heap w' !! stream s
      = Some (MkStream (sink st ++ (lp.frame <$> q)) false (closed st))
    /\ session_heap w' !! this = Some (ChatSession.set_queue [] s)
    /\ (forall r, r <> this -> session_heap w' !! r = session_heap w !! r).
Proof.
  induction q as [|chunk rest IH]; intros w this s st Hs Hq Hst Hok Hfits; cbn zeta.
  - cbn. rewrite app_nil_r. split; [|split; [|reflexivity]].
    + rewrite Hst. destruct st as [k b c]. cbn in *. now subst b.
    + rewrite Hs. destruct s as [r p [q e] a n]. cbn in *. now subst q.
  - apply Forall_cons in Hfits as [Hchunk Hfits].
    pose proof (outbound_pipe_writes w this s chunk rest st Hs Hq Hst Hok Hchunk) as Hstep.
    match type of Hstep with _ = (_, ?w1') => set (w1 := w1') in * end.
    assert (step w (OutboundPipe this) = w1) as Hw1
      by (unfold step, run; cbn [perform]; now rewrite Hstep).
    cbn [length replicate exec fold_left]. rewrite Hw1.
    specialize (IH w1 this (ChatSession.set_queue rest s)
                  (MkStream (sink st ++ [lp.frame chunk]) (broken st) (closed st))).
    cbn zeta in IH. unfold exec in IH.
    destruct IH as (Hsink & Hq' & Hother).
    + unfold w1. cbn. rewrite list_lookup_alter_eq, Hs. reflexivity.
    + reflexivity.
    + unfold w1. cbn. rewrite list_lookup_alter_eq, Hst. reflexivity.
    + exact Hok.
    + exact Hfits.
    + split; [|split].
      * etransitivity; [exact Hsink|]. cbn.
        rewrite <- app_assoc. destruct s as [r p [q e] a n]. reflexivity.
      * etransitivity; [exact Hq'|]. destruct s as [r p [q e] a n]. reflexivity.
      * intros r Hr. etransitivity; [exact (Hother r Hr)|]. unfold w1. cbn.
        apply list_lookup_alter_ne. auto.
Qed.

Lemma fmap_frame_framed (q : list bytes) : Forall fits q -> lp.frame <$> q = framed <$> q.
Proof.
  induction 1 as [|chunk q Hfits _ IH]; [reflexivity|].
  rewrite !fmap_cons, IH, (frame_framed chunk Hfits). reflexivity.
Qed.

Lemma type_of_handshake (ourPeerId : jsstring) :
  type_of (ChatSession.handshake ourPeerId) = VStr (js "hello").
Proof. reflexivity. Qed.

Lemma type_of_chat_message (sender roomId : jsstring) (origin_ts seq : Z)
  (event_id content : jsstring) :
  type_of (ChatProtocol.chat_message sender roomId origin_ts seq event_id content)
  = VStr (js "m.room.message").
Proof. reflexivity. Qed.

(** C2, as the code has it.  [send] queues the UTF-8 bytes of the JSON
    text of the message it is given, whatever that message is.  The
    outbound pipe takes the queued chunks, oldest first, and writes
    each as one frame: the length of the chunk as an unsigned varint of
    one to four bytes ([length_prefix]), then the chunk; a queue is
    written out in its order.  A chunk above 4 MiB is not framed:
    [lp.encode] refuses it, nothing is written, and the pipe logs the
    error and closes the session, which leaves the registry.
    [lp.decode] reads the chunks of such frames back, in order.  The Hello and chat-message envelopes the
    protocol builds carry a string [type]. *)
Theorem frames_are_encoded_json_texts (w : world) (this : nat) (s : ChatSession) :
  session_heap w !! this = Some s ->
  (forall message text,
      isActive s = true -> JSON_stringify message = Some text ->
      ChatSession.send this message w =
        (Normal tt,
         with_session_heap (alter (pushed (TextEncoder_encode text)) this) w))
  /\ (forall chunk rest st,
      queue (outbound s) = chunk :: rest ->
      stream_heap w !! stream s = Some st -> broken st = false -> fits chunk ->
      ChatProtocol.session_outbound_pipe this w =
        (Normal tt,
         with_stream_heap
           (alter (fun st => MkStream (sink st ++ [framed chunk])
                                      (broken st) (closed st)) (stream s))
           (with_session_heap (alter (ChatSession.set_queue rest) this) w)))
  /\ (forall chunk rest st,
      isActive s = true -> queue (outbound s) = chunk :: rest ->
      stream_heap w !! stream s = Some st -> ~ fits chunk ->
      let w' := step w (OutboundPipe this) in
      stream_heap w' = stream_heap w
      /\ session_heap w' !! this = Some (closed_session (ChatSession.set_queue [] s))
      /\ sessions w' = JsMap.delete (sessions w) (peerId s)
      /\ exists err,
           console w' = console w ++ [Log Err (js "Outbound pipe error:") [exn_value err]])
  /\ (forall st,
      stream_heap w !! stream s = Some st -> broken st = false ->
      Forall fits (queue (outbound s)) ->
      let w' := exec (replicate (length (queue (outbound s))) (OutboundPipe this)) w in
      (sink <$> stream_heap w' !! stream s)
      = Some (sink st ++ (framed <$> queue (outbound s))))
  /\ (forall chunks,
      Forall fits chunks -> lp.decode (concat (framed <$> chunks)) = (chunks, true))
  /\ (forall ourPeerId, type_of (ChatSession.handshake ourPeerId) = VStr (js "hello"))
  /\ (forall sender roomId origin_ts seq event_id content,
      type_of (ChatProtocol.chat_message sender roomId origin_ts seq event_id content)
      = VStr (js "m.room.message")).
Proof.
  intros Hs. split; [|split; [|split; [|split; [|split; [|split; reflexivity]]]]].
  - intros message text Hact Htext. exact (send_active w this s message text Hs Hact Htext).
  - intros chunk rest st Hq Hst Hok Hfits.
    rewrite (outbound_pipe_writes w this s chunk rest st Hs Hq Hst Hok Hfits).
    rewrite (frame_framed chunk Hfits). reflexivity.
  - intros chunk rest st Hact Hq Hst Hfits. cbv zeta. unfold step, run. cbn [perform].
    destruct (outbound_pipe_fails w this s chunk rest st Hs Hact Hq Hst (or_introl Hfits))
      as (err & _ & ->).
    cbn. rewrite list_lookup_alter_eq, Hs. eauto 6.
  - intros st Hst Hok Hfits.
    destruct (outbound_pipe_drains _ w this s st Hs eq_refl Hst Hok Hfits) as (Hsink & _).
    cbn zeta in *. rewrite Hsink, (fmap_frame_framed _ Hfits). reflexivity.
  - exact decode_framed.
Qed.

(** The Hello of a new session, queued and then written as one frame:
    its 115 bytes after a length prefix of one byte. *)
Lemma frames_are_encoded_json_texts_witness :
  let w := exec [InboundStream (js "QmPeer")] (initial demo) in
  let hello := payload (ChatSession.handshake (js "QmSelf")) in
  session_heap w !! 0%nat = Some (opened_session 0 (js "QmPeer") (js "QmSelf"))
  /\ framed hello = Byte.x73 :: hello
  /\ (sink <$> stream_heap (run (ChatProtocol.session_outbound_pipe 0) w) !! 0%nat)
     = Some [framed hello].
Proof.
  cbv zeta.
  pose proof (frames_are_encoded_json_texts
                (exec [InboundStream (js "QmPeer")] (initial demo)) 0
                (opened_session 0 (js "QmPeer") (js "QmSelf")) eq_refl)
    as (_ & Hpipe & _).
  split; [reflexivity|]. split; [reflexivity|].
  unfold run.
  rewrite (Hpipe (payload (ChatSession.handshake (js "QmSelf"))) []
             (MkStream [] false false) eq_refl eq_refl eq_refl).
  - reflexivity.
  - unfold fits. vm_compute. discriminate.
Defined.

(** C2, as the specification has it, fails, on the stream and in the
    payload.  A raw message of the debug panel goes to [send] as it was
    typed; for the text [{}], the frame written after the Hello is the
    three bytes [02 7b 7d]: a length prefix of one byte, not of four,
    and a JSON payload with no [type].  The six bytes of the frame the
    specification describes are not read as one frame either:
    [lp.decode] takes each of the three leading zero bytes for the
    prefix of an empty frame. *)
Lemma frame_has_varint_prefix_and_no_type :
  let raw := VObj [] in
  let chunk := TextEncoder_encode (js "{}") in
  let w := exec [InboundStream (js "QmPeer"); SessionSend 0 raw;
                 OutboundPipe 0; OutboundPipe 0] (initial demo) in
  JSON_stringify raw = Some (js "{}")
  /\ type_of raw = VUndefined
  /\ (sink <$> stream_heap w !! 0%nat)
     = Some [Byte.x73 :: payload (ChatSession.handshake (js "QmSelf"));
             [Byte.x02; Byte.x7b; Byte.x7d]]
  /\ int32BE_frame chunk = [Byte.x00; Byte.x00; Byte.x00; Byte.x02; Byte.x7b; Byte.x7d]
  /\ lp.decode (int32BE_frame chunk) = ([[]; []; []; chunk], true).
Proof. vm_compute. auto 6. Qed.

(** ** The Hello exchange *)

Lemma handleIncomingStream_new (w : world) (stream : nat) (peer : jsstring) :
  JsMap.has (sessions w) peer = false ->
  ChatProtocol.handleIncomingStream stream peer w =
    (Normal tt,
     World (platform w)
           (session_heap w ++ [opened_session stream peer (node_peerId (platform w))])
           (stream_heap w)
           (JsMap.set (sessions w) peer (length (session_heap w)))
           (localStorage w) (emitted w ++ [connected peer]) (console w) (ticks w)
           (suspended w)).
Proof.
  intros Hnew.
  unfold ChatProtocol.handleIncomingStream.
  eapply bind_normal; [reflexivity|]. rewrite Hnew.
  eapply bind_normal; [reflexivity|].
  eapply bind_normal; [reflexivity|].
  eapply bind_normal; [reflexivity|].
  eapply bind_normal.
  { unfold ChatSession.sendHandshake, ChatSession.handshake. eapply send_object.
    - cbn. apply list_lookup_middle. reflexivity.
    - reflexivity. }
  unfold ChatProtocol.emit, modify, with_emitted, with_session_heap, with_sessions. cbn.
  rewrite alter_snoc. reflexivity.
Qed.

Lemma handleIncomingStream_duplicate (w : world) (stream : nat) (peer : jsstring) :
  JsMap.has (sessions w) peer = true ->
  ChatProtocol.handleIncomingStream stream peer w =
    (Normal tt,
     with_stream_heap (alter (fun st => MkStream (sink st) (broken st) true) stream)
       (with_console
          (fun c => c ++ [Log Warn (js "Duplicate session attempt from:") [VStr peer]]) w)).
Proof.
  intros Hhas. unfold ChatProtocol.handleIncomingStream.
  eapply bind_normal; [reflexivity|]. rewrite Hhas. reflexivity.
Qed.

Lemma openStream_dial_dialed (w : world) (peer : jsstring) :
  dialProtocol (platform w) (ticks w) peer = Dialed ->
  ChatProtocol.openStream_dial peer w =
    (Normal (length (session_heap w)),
     World (platform w)
           (session_heap w ++
              [opened_session (length (stream_heap w)) peer (node_peerId (platform w))])
           (stream_heap w ++ [MkStream [] false false])
           (JsMap.set (sessions w) peer (length (session_heap w)))
           (localStorage w) (emitted w ++ [connected peer]) (console w) (S (ticks w))
           (suspended w)).
Proof.
  intros Hdial.
  unfold ChatProtocol.openStream_dial. apply try_catch_normal.
  eapply bind_normal; [reflexivity|]. rewrite Hdial.
  eapply bind_normal; [reflexivity|].
  eapply bind_normal; [reflexivity|].
  eapply bind_normal; [reflexivity|].
  eapply bind_normal; [reflexivity|].
  eapply bind_normal.
  { unfold ChatSession.sendHandshake, ChatSession.handshake. eapply send_object.
    - cbn. apply list_lookup_middle. reflexivity.
    - reflexivity. }
  unfold ChatProtocol.emit, modify, with_emitted, with_session_heap, with_sessions,
    with_stream_heap, with_ticks. cbn.
  rewrite alter_snoc. reflexivity.
Qed.

Lemma openStream_unregistered (w : world) (peer : jsstring) :
  JsMap.get (sessions w) peer = None ->
  ChatProtocol.openStream peer w = ChatProtocol.openStream_dial peer w.
Proof.
  intros Hnone. unfold ChatProtocol.openStream.
  eapply bind_normal; [reflexivity|]. cbn beta. rewrite Hnone. reflexivity.
Qed.

Lemma openStream_registered (w : world) (peer : jsstring) (session : nat) :
  JsMap.get (sessions w) peer = Some session ->
  ChatProtocol.openStream peer w = (Normal session, w).
Proof.
  intros Hsome. unfold ChatProtocol.openStream.
  eapply bind_normal; [reflexivity|]. cbn beta. rewrite Hsome. reflexivity.
Qed.

Lemma messageHandlers_get_hello :
  ChatProtocol.messageHandlers_get (VStr (js "hello")) = Some ChatProtocol.handle_hello.
Proof. reflexivity. Qed.

Lemma handleMessage_hello (w : world) (props : list (jsstring * jsval)) (peer : jsstring) :
  props_get props (js "type") = VStr (js "hello") ->
  ChatProtocol.handleMessage (VObj props) peer w =
    (Normal tt,
     with_emitted
       (fun e => e ++ [peer_handshake peer (props_get props (js "capabilities"))]) w).
Proof.
  intros Htype. unfold ChatProtocol.handleMessage.
  eapply bind_normal; [reflexivity|]. rewrite Htype, messageHandlers_get_hello.
  reflexivity.
Qed.

(** C3, as the code has it.  A Hello is sent once when a session is
    opened, by [handleIncomingStream] and by [openStream] alike: the new
    session starts with exactly one Hello queued.  Receiving the Hello
    of the peer sends nothing: it emits [peer:handshake] with the peer
    and its capabilities and changes nothing else, on a session of an
    inbound stream as on any other. *)
Theorem hello_sent_once_when_opened (w : world) :
  (forall stream peer,
      JsMap.has (sessions w) peer = false ->
      session_heap (run (ChatProtocol.handleIncomingStream stream peer) w)
      = session_heap w ++ [opened_session stream peer (node_peerId (platform w))])
  /\ (forall peer,
      JsMap.get (sessions w) peer = None ->
      dialProtocol (platform w) (ticks w) peer = Dialed ->
      session_heap (run (ChatProtocol.openStream peer) w)
      = session_heap w ++
          [opened_session (length (stream_heap w)) peer (node_peerId (platform w))])
  /\ (forall this s props,
      session_heap w !! this = Some s ->
      props_get props (js "type") = VStr (js "hello") ->
      ChatProtocol.session_inbound_data this (Some (VObj props)) w =
        (Normal tt,
         with_emitted
           (fun e => e ++ [peer_handshake (peerId s) (props_get props (js "capabilities"))])
           w)).
Proof.
  split; [|split].
  - intros stream peer Hnew. unfold run.
    rewrite (handleIncomingStream_new w stream peer Hnew). reflexivity.
  - intros peer Hnone Hdial. unfold run.
    rewrite (openStream_unregistered w peer Hnone).
    rewrite (openStream_dial_dialed w peer Hdial). reflexivity.
  - intros this s props Hs Htype.
    unfold ChatProtocol.session_inbound_data, ChatSession.inbound_data.
    eapply bind_normal; [apply deref_some, Hs|].
    unfold try_catch. rewrite (handleMessage_hello w props (peerId s) Htype).
    reflexivity.
Qed.

(** An inbound stream, an outbound dial, and a Hello received on the
    session of the inbound stream. *)
Lemma hello_sent_once_when_opened_witness :
  let w := exec [InboundStream (js "QmA")] (initial demo) in
  session_heap w = [opened_session 0 (js "QmA") (js "QmSelf")]
  /\ session_heap (run (ChatProtocol.openStream (js "QmB")) w)
     = [opened_session 0 (js "QmA") (js "QmSelf"); opened_session 1 (js "QmB") (js "QmSelf")]
  /\ run (ChatProtocol.session_inbound_data 0 (Some (ChatSession.handshake (js "QmA")))) w
     = with_emitted
         (fun e => e ++ [peer_handshake (js "QmA")
                           (VObj [(js "v", VNum 1); (js "maxFrame", VNum 131072)])]) w.
Proof.
  cbv zeta.
  pose proof (hello_sent_once_when_opened (initial demo)) as (Hin & _ & _).
  pose proof (hello_sent_once_when_opened (exec [InboundStream (js "QmA")] (initial demo)))
    as (_ & Hout & Hrecv).
  split; [|split].
  - exact (Hin 0%nat (js "QmA") eq_refl).
  - exact (Hout (js "QmB") eq_refl eq_refl).
  - unfold run, ChatSession.handshake.
    rewrite (Hrecv 0%nat (opened_session 0 (js "QmA") (js "QmSelf"))
               [ (js "type", VStr (js "hello"));
                 (js "sender", VStr (js "QmA"));
                 (js "protocol_version", VStr (js "length-prefixed-v1"));
                 (js "capabilities", VObj [(js "v", VNum 1); (js "maxFrame", VNum 131072)]) ]
               eq_refl eq_refl).
    reflexivity.
Defined.

(** C3, as the specification has it, fails.  The session of an inbound
    stream receives the Hello of the peer: it still holds the one Hello
    it queued when it was opened, and after the outbound pipe has run
    the stream carries that single Hello frame. *)
Lemma inbound_hello_gets_no_reply :
  let w0 := exec [InboundStream (js "QmPeer")] (initial demo) in
  let w1 := exec [InboundData 0 (Some (ChatSession.handshake (js "QmPeer")))] w0 in
  let w2 := exec [OutboundPipe 0; OutboundPipe 0] w1 in
  session_heap w1 = session_heap w0
  /\ session_heap w1 = [opened_session 0 (js "QmPeer") (js "QmSelf")]
  /\ (sink <$> stream_heap w2 !! 0%nat)
     = Some [framed (payload (ChatSession.handshake (js "QmSelf")))].
Proof. vm_compute. auto. Qed.

(** ** Envelopes of an unknown type *)

Lemma get_prop_type (w : world) (message : jsval) :
  message <> VUndefined -> message <> VNull ->
  get_prop message (js "type") w = (Normal (type_of message), w).
Proof. intros Hu Hn. destruct message; try reflexivity; congruence. Qed.

Lemma handleMessage_unknown (w : world) (message : jsval) (peer : jsstring) :
  message <> VUndefined -> message <> VNull ->
  ChatProtocol.messageHandlers_get (type_of message) = None ->
  ChatProtocol.handleMessage message peer w =
    (Normal tt, with_console (fun c => c ++ [unknown_type (type_of message)]) w).
Proof.
  intros Hu Hn Hnone. unfold ChatProtocol.handleMessage.
  eapply bind_normal; [apply get_prop_type; assumption|].
  rewrite Hnone. reflexivity.
Qed.

(** C9, as the code has it.  A received value that is not [null] and
    whose [type] has no handler (an unknown string, no string at all,
    or no [type]) is not an error and ends nothing: the inbound loop
    completes its turn, and the only effect is the console warning
    "Unknown message type:".  The session, the registry, the history
    and the emitted events stay as they were: the envelope is dropped,
    not passed on. *)
Theorem unknown_type_logged_and_dropped (w : world) (this : nat) (s : ChatSession)
  (message : jsval) :
  session_heap w !! this = Some s ->
  message <> VUndefined -> message <> VNull ->
  ChatProtocol.messageHandlers_get (type_of message) = None ->
  ChatProtocol.session_inbound_data this (Some message) w =
    (Normal tt, with_console (fun c => c ++ [unknown_type (type_of message)]) w).
Proof.
  intros Hs Hu Hn Hnone.
  unfold ChatProtocol.session_inbound_data, ChatSession.inbound_data.
  eapply bind_normal; [apply deref_some, Hs|].
  apply try_catch_normal.
  exact (handleMessage_unknown w message (peerId s) Hu Hn Hnone).
Qed.

(** A frame of a type from the future, received on an open session. *)
Lemma unknown_type_logged_and_dropped_witness :
  let w := exec [InboundStream (js "QmPeer")] (initial demo) in
  let message := VObj [(js "type", VStr (js "m.unknown.future")); (js "data", VNum 1)] in
  let w' := run (ChatProtocol.session_inbound_data 0 (Some message)) w in
  w' = with_console (fun c => c ++ [unknown_type (VStr (js "m.unknown.future"))]) w
  /\ (isActive <$> session_heap w' !! 0%nat) = Some true
  /\ sessions w' = [(js "QmPeer", 0%nat)].
Proof.
  cbv zeta.
  pose proof (unknown_type_logged_and_dropped
                (exec [InboundStream (js "QmPeer")] (initial demo)) 0
                (opened_session 0 (js "QmPeer") (js "QmSelf"))
                (VObj [(js "type", VStr (js "m.unknown.future")); (js "data", VNum 1)])
                eq_refl ltac:(discriminate) ltac:(discriminate) eq_refl) as Hrecv.
  unfold run. rewrite Hrecv. cbn [snd]. split; [reflexivity|]. split; reflexivity.
Defined.

(** C9, as the specification has it, fails.  After a frame of an unknown
    type no collaborator has received anything: no event was emitted,
    nothing was stored and nothing was written to a stream; there is
    one more line on the console. *)
Lemma unknown_type_reaches_no_collaborator :
  let w := exec [InboundStream (js "QmPeer")] (initial demo) in
  let message := VObj [(js "type", VStr (js "m.unknown.future")); (js "data", VNum 1)] in
  let w' := exec [InboundData 0 (Some message)] w in
  emitted w' = emitted w
  /\ localStorage w' = localStorage w
  /\ stream_heap w' = stream_heap w
  /\ console w' = console w ++ [unknown_type (VStr (js "m.unknown.future"))].
Proof. vm_compute. auto. Qed.

(** ** The registry *)

Lemma JsMap_get_elem {V} (m : list (jsstring * V)) (k : jsstring) (v : V) :
  NoDup (JsMap.keys m) -> (k, v) ∈ m -> JsMap.get m k = Some v.
Proof.
  unfold JsMap.get, JsMap.keys.
  induction m as [|[k' v'] m IH]; intros Hnd Hin.
  - inversion Hin.
  - cbn. apply NoDup_cons in Hnd as [Hk' Hnd]. case_bool_decide as Hk; cbn in Hk.
    + subst k'. apply elem_of_cons in Hin as [Heq|Hin]; [inversion Heq; reflexivity|].
      exfalso. apply Hk'. apply list_elem_of_fmap. exists (k, v). auto.
    + apply elem_of_cons in Hin as [Heq|Hin]; [inversion Heq; congruence|]. auto.
Qed.

Lemma JsMap_get_Some_elem {V} (m : list (jsstring * V)) (k : jsstring) (v : V) :
  JsMap.get m k = Some v -> (k, v) ∈ m.
Proof.
  unfold JsMap.get. induction m as [|[k' v'] m IH]; cbn; [discriminate|].
  case_bool_decide as Hk; cbn in Hk.
  - intros [= <-]. subst k'. left.
  - intros H. right. auto.
Qed.

Lemma JsMap_has_get {V} (m : list (jsstring * V)) (k : jsstring) :
  JsMap.has m k = false <-> JsMap.get m k = None.
Proof.
  unfold JsMap.has. destruct (JsMap.get m k) as [v|].
  - split; [|discriminate]. intros H. apply bool_decide_eq_false in H.
    exfalso. apply H. eauto.
  - split; [reflexivity|]. intros _. apply bool_decide_eq_false. intros [v Hv]. discriminate.
Qed.

Lemma JsMap_set_keys {V} (m : list (jsstring * V)) (k : jsstring) (v : V) :
  JsMap.keys (JsMap.set m k v) = JsMap.keys m \/
  ((k ∉ JsMap.keys m) /\ JsMap.keys (JsMap.set m k v) = JsMap.keys m ++ [k]).
Proof.
  unfold JsMap.keys. induction m as [|[k0 v0] m IH]; cbn.
  - right. split; [apply not_elem_of_nil|reflexivity].
  - case_bool_decide as Hk.
    + subst k0. left. reflexivity.
    + destruct IH as [IH|[Hnot IH]].
      * left. cbn. now rewrite IH.
      * right. split.
        -- apply not_elem_of_cons. split; [congruence|exact Hnot].
        -- cbn. now rewrite IH.
Qed.

Lemma JsMap_set_NoDup {V} (m : list (jsstring * V)) (k : jsstring) (v : V) :
  NoDup (JsMap.keys m) -> NoDup (JsMap.keys (JsMap.set m k v)).
Proof.
  intros Hnd. destruct (JsMap_set_keys m k v) as [->|[Hnot ->]]; [exact Hnd|].
  apply NoDup_app. split; [exact Hnd|]. split.
  - intros x Hx Hx'. apply list_elem_of_singleton in Hx'. subst x. auto.
  - apply NoDup_singleton.
Qed.

Lemma JsMap_set_elem {V} (m : list (jsstring * V)) (k k' : jsstring) (v v' : V) :
  (k', v') ∈ JsMap.set m k v -> (k' = k /\ v' = v) \/ (k', v') ∈ m.
Proof.
  induction m as [|[k0 v0] m IH]; cbn.
  - intros H. apply list_elem_of_singleton in H. inversion H. auto.
  - case_bool_decide as Hk.
    + intros H. apply elem_of_cons in H as [H|H].
      * inversion H. auto.
      * right. right. exact H.
    + intros H. apply elem_of_cons in H as [H|H].
      * right. rewrite H. left.
      * destruct (IH H) as [?|?]; [auto|]. right. right. assumption.
Qed.

Lemma JsMap_delete_elem {V} (m : list (jsstring * V)) (k k' : jsstring) (v' : V) :
  (k', v') ∈ JsMap.delete m k -> (k', v') ∈ m.
Proof. unfold JsMap.delete. intros H. apply list_elem_of_filter in H. tauto. Qed.

Lemma JsMap_delete_NoDup {V} (m : list (jsstring * V)) (k : jsstring) :
  NoDup (JsMap.keys m) -> NoDup (JsMap.keys (JsMap.delete m k)).
Proof.
  unfold JsMap.keys, JsMap.delete. induction m as [|[k0 v0] m IH]; intros Hnd; [exact Hnd|].
  cbn in Hnd. apply NoDup_cons in Hnd as [Hk0 Hnd].
  rewrite filter_cons. case_decide as Hk; [|auto].
  cbn. apply NoDup_cons. split; [|auto].
  intros Hin. apply Hk0. apply list_elem_of_fmap in Hin as [[k1 v1] [-> Hin]].
  apply list_elem_of_filter in Hin as [_ Hin].
  apply list_elem_of_fmap. exists (k1, v1). auto.
Qed.

Lemma JsMap_set_absent {V} (m : list (jsstring * V)) (k : jsstring) (v : V) :
  JsMap.get m k = None -> JsMap.set m k v = m ++ [(k, v)].
Proof.
  unfold JsMap.get. induction m as [|[k0 v0] m IH]; cbn; [reflexivity|].
  case_bool_decide as Hk; cbn; [discriminate|].
  intros Hnone. now rewrite IH.
Qed.

(** *** Invariants of executions *)

Definition preserves {A} (I : world -> Prop) (m : M A) : Prop :=
  forall w, I w -> I (m w).2.

Section preserves.
Context (I : world -> Prop).

Lemma preserves_ret {A} (a : A) : preserves I (ret a).
Proof. intros w Hw. exact Hw. Qed.

Lemma preserves_throw {A} (e : exn) : preserves I (@throw A e).
Proof. intros w Hw. exact Hw. Qed.

Lemma preserves_gets {A} (f : world -> A) : preserves I (gets f).
Proof. intros w Hw. exact Hw. Qed.

Lemma preserves_modify (f : world -> world) :
  (forall w, I w -> I (f w)) -> preserves I (modify f).
Proof. intros Hf w Hw. apply Hf, Hw. Qed.

Lemma preserves_bind {A B} (m : M A) (k : A -> M B) :
  preserves I m -> (forall a, preserves I (k a)) -> preserves I (bind m k).
Proof.
  intros Hm Hk w Hw. unfold bind. specialize (Hm w Hw).
  destruct (m w) as [[a|e] w1]; cbn in *; [apply Hk, Hm|exact Hm].
Qed.

Lemma preserves_try_catch {A} (m : M A) (handler : exn -> M A) :
  preserves I m -> (forall e, preserves I (handler e)) -> preserves I (try_catch m handler).
Proof.
  intros Hm Hh w Hw. unfold try_catch. specialize (Hm w Hw).
  destruct (m w) as [[a|e] w1]; cbn in *; [exact Hm|apply Hh, Hm].
Qed.

Lemma preserves_settle {A} (m : M A) : preserves I m -> preserves I (settle m).
Proof.
  intros Hm w Hw. unfold settle. specialize (Hm w Hw).
  destruct (m w) as [c w1]. exact Hm.
Qed.

Lemma preserves_for_each {A B} (l : list A) (body : A -> M B) :
  (forall a, preserves I (body a)) -> preserves I (for_each l body).
Proof.
  intros Hbody. induction l as [|x l IH]; cbn [for_each].
  - apply preserves_ret.
  - apply preserves_bind; [apply Hbody|]. intros y.
    apply preserves_bind; [exact IH|]. intros ys. apply preserves_ret.
Qed.

End preserves.

Create HintDb preserves.

(** An invariant of the session objects and the registry is kept by
    every piece of the program as soon as it is kept by a change of a
    session that leaves its peer and its activity alone, and by the
    three places that close, accept and open sessions. *)
Section invariant.

Context (I : world -> Prop).

Hypothesis I_frame : forall w w',
  session_heap w' = session_heap w -> sessions w' = sessions w -> I w -> I w'.

Hypothesis I_alter : forall (f : ChatSession -> ChatSession) (this : nat) (w : world),
  (forall s, peerId (f s) = peerId s /\ isActive (f s) = isActive s) ->
  I w -> I (with_session_heap (alter f this) w).

Hypothesis I_close : forall this, preserves I (ChatProtocol.session_close this).

Hypothesis I_incoming : forall stream peer,
  preserves I (ChatProtocol.handleIncomingStream stream peer).

Hypothesis I_openStream : forall peer, preserves I (ChatProtocol.openStream peer).

#[local] Hint Resolve preserves_ret preserves_throw preserves_gets preserves_bind
  preserves_try_catch preserves_settle preserves_for_each : preserves.

Lemma kept_frame {A} (m : M A) :
  (forall w, session_heap (m w).2 = session_heap w /\ sessions (m w).2 = sessions w) ->
  preserves I m.
Proof. intros H w Hw. destruct (H w). eapply I_frame; eauto. Qed.

Lemma kept_update (this : nat) (f : ChatSession -> ChatSession) :
  (forall s, peerId (f s) = peerId s /\ isActive (f s) = isActive s) ->
  preserves I (ChatSession.update this f).
Proof. intros Hf. apply preserves_modify. intros w. apply I_alter, Hf. Qed.

Lemma kept_deref (this : nat) : preserves I (ChatSession.deref this).
Proof. intros w Hw. unfold ChatSession.deref. destruct (_ !! _); exact Hw. Qed.

Lemma kept_stream_deref (r : nat) : preserves I (stream_deref r).
Proof. intros w Hw. unfold stream_deref. destruct (_ !! _); exact Hw. Qed.

Lemma kept_ask {A} (oracle : Platform -> nat -> A) : preserves I (ask oracle).
Proof. apply kept_frame. auto. Qed.

Lemma kept_console_error (t : jsstring) (a : list jsval) : preserves I (console_error t a).
Proof. apply kept_frame. auto. Qed.

Lemma kept_console_warn (t : jsstring) (a : list jsval) : preserves I (console_warn t a).
Proof. apply kept_frame. auto. Qed.

Lemma kept_emit (name : jsstring) (detail : jsval) :
  preserves I (ChatProtocol.emit name detail).
Proof. apply kept_frame. auto. Qed.

Lemma kept_get_prop (v : jsval) (k : jsstring) : preserves I (get_prop v k).
Proof. apply kept_frame. intros w. destruct v; auto. Qed.

#[local] Hint Resolve kept_deref kept_stream_deref kept_ask kept_console_error
  kept_console_warn kept_emit kept_get_prop I_close I_incoming I_openStream : preserves.

Lemma kept_send (this : nat) (message : jsval) :
  preserves I (ChatSession.send this message).
Proof.
  unfold ChatSession.send. apply preserves_bind; [auto with preserves|]. intros s.
  destruct (negb (isActive s)); [auto with preserves|].
  apply preserves_try_catch; [|auto with preserves].
  destruct (JSON_stringify message); [|auto with preserves].
  apply preserves_bind; [|intros _]; apply kept_update; intros s'; split; reflexivity.
Qed.

Lemma kept_addMessage (roomId message : jsval) :
  preserves I (ChatHistoryStorage.addMessage roomId message).
Proof.
  unfold ChatHistoryStorage.addMessage, ChatHistoryStorage.get, ChatHistoryStorage.set.
  apply preserves_bind; [auto with preserves|]. intros found.
  apply preserves_bind; [auto with preserves|]. intros now.
  apply preserves_bind; [auto with preserves|]. intros [msg|].
  - auto with preserves.
  - apply kept_frame. auto.
Qed.

#[local] Hint Resolve kept_send kept_addMessage : preserves.

Lemma kept_handleMessage (message : jsval) (peer : jsstring) :
  preserves I (ChatProtocol.handleMessage message peer).
Proof.
  unfold ChatProtocol.handleMessage. apply preserves_bind; [auto with preserves|].
  intros type. destruct (ChatProtocol.messageHandlers_get type) as [handler|] eqn:Hh;
    [|auto with preserves].
  destruct type as [| | | |name| |]; try discriminate Hh.
  change (JsMap.get ChatProtocol.registerMessageHandlers name = Some handler) in Hh.
  apply JsMap_get_Some_elem in Hh. unfold ChatProtocol.registerMessageHandlers in Hh.
  repeat (apply elem_of_cons in Hh as [Hh|Hh]; [inversion Hh; subst handler; clear Hh|]);
    [| | | |inversion Hh].
  - unfold ChatProtocol.handle_hello. auto with preserves.
  - unfold ChatProtocol.handle_room_message. auto 10 with preserves.
  - unfold ChatProtocol.handle_typing. auto with preserves.
  - unfold ChatProtocol.handle_nickname. auto with preserves.
Qed.

Lemma kept_outbound_pipe (this : nat) :
  preserves I (ChatProtocol.session_outbound_pipe this).
Proof.
  unfold ChatProtocol.session_outbound_pipe, ChatSession.outbound_pipe.
  apply preserves_bind; [auto with preserves|]. intros s.
  destruct (queue (outbound s)) as [|chunk rest]; [auto with preserves|].
  apply preserves_bind; [auto with preserves|]. intros st.
  assert (Hfailed : forall err,
             preserves I (ChatSession.outbound_failed ChatProtocol.handleSessionClose
                            this err)).
  { intros err. unfold ChatSession.outbound_failed.
    apply preserves_bind; [apply kept_update; intros s'; split; reflexivity|]. intros _.
    apply preserves_bind; [auto with preserves|]. intros _.
    apply I_close. }
  destruct (lp.encode chunk) as [frame|err]; [|apply Hfailed].
  destruct (broken st).
  - apply preserves_bind; [auto with preserves|]. exact Hfailed.
  - apply preserves_bind; [apply kept_update; intros s'; split; reflexivity|]. intros _.
    apply kept_frame. auto.
Qed.

Lemma kept_inbound_data (this : nat) (parsed : option jsval) :
  preserves I (ChatProtocol.session_inbound_data this parsed).
Proof.
  unfold ChatProtocol.session_inbound_data, ChatSession.inbound_data.
  apply preserves_bind; [auto with preserves|]. intros s.
  apply preserves_try_catch; [|auto with preserves].
  destruct parsed; [apply kept_handleMessage|auto with preserves].
Qed.

Lemma kept_inbound_end (this : nat) (error : option exn) :
  preserves I (ChatProtocol.session_inbound_end this error).
Proof.
  unfold ChatProtocol.session_inbound_end, ChatSession.inbound_end.
  apply preserves_bind; [destruct error; auto with preserves|]. intros _.
  apply I_close.
Qed.

Lemma kept_sendMessage_send (peer content roomId : jsstring) :
  preserves I (ChatProtocol.sendMessage_send peer content roomId).
Proof.
  unfold ChatProtocol.sendMessage_send, ChatProtocol.self, ChatProtocol.generateEventId.
  apply preserves_bind; [auto with preserves|]. intros registry.
  apply preserves_bind; [destruct (JsMap.get registry peer); auto with preserves|].
  intros session. auto 20 with preserves.
Qed.

Lemma kept_sendMessage_record (roomId : jsstring) (message : jsval) :
  preserves I (ChatProtocol.sendMessage_record roomId message).
Proof. unfold ChatProtocol.sendMessage_record. auto 10 with preserves. Qed.

#[local] Hint Resolve kept_handleMessage kept_outbound_pipe kept_inbound_data
  kept_inbound_end kept_sendMessage_send kept_sendMessage_record : preserves.

Lemma kept_broadcast (content roomId : jsstring) :
  preserves I (ChatProtocol.broadcast content roomId).
Proof.
  unfold ChatProtocol.broadcast.
  apply preserves_bind; [auto with preserves|]. intros registry.
  apply preserves_bind.
  - apply preserves_for_each. intros entry. unfold ChatProtocol.broadcast_call.
    apply preserves_bind; [auto with preserves|]. intros s.
    destruct (isActive s); auto 10 with preserves.
  - intros promises. apply preserves_bind; [|auto with preserves].
    apply preserves_for_each. intros [[m|e]|]; cbn; auto 10 with preserves.
Qed.

(** Every piece but the settling of a dial, which has its own lemma for
    each invariant. *)
Lemma kept_perform (a : action) :
  (forall call, a <> DialSettled call) -> preserves I (perform a).
Proof.
  intros Hnot.
  destruct a as [remotePeer|peer|call|peer content roomId|content roomId|peer
                |session|session message|session parsed|session error|session|r];
    cbn [perform].
  - apply preserves_bind; [apply kept_frame; auto|]. intros stream. apply I_incoming.
  - unfold ChatProtocol.openStream_existing.
    apply preserves_bind; [auto with preserves|]. intros [session|];
      [auto with preserves|apply kept_frame; auto].
  - destruct (Hnot call eq_refl).
  - unfold ChatProtocol.sendMessage. auto 10 with preserves.
  - apply kept_broadcast.
  - unfold ChatProtocol.closeSession.
    apply preserves_bind; [auto with preserves|]. intros registry.
    destruct (JsMap.get registry peer); auto with preserves.
  - apply I_close.
  - apply kept_send.
  - apply kept_inbound_data.
  - apply kept_inbound_end.
  - apply kept_outbound_pipe.
  - apply kept_frame. auto.
Qed.

(** The settling of a dial keeps the invariant when resuming
    [openStream] does. *)
Lemma kept_dial_settled (call : nat) (w : world) :
  (forall peer, suspended w !! call = Some peer ->
     forall w1, session_heap w1 = session_heap w -> sessions w1 = sessions w ->
                I w1 -> I (ChatProtocol.openStream_dial peer w1).2) ->
  I w -> I (perform (DialSettled call) w).2.
Proof.
  intros Hdial Hw. cbn [perform]. unfold bind, gets. cbn.
  destruct (suspended w !! call) as [peer|] eqn:Hcall; [|exact Hw]. cbn.
  specialize (Hdial peer eq_refl (with_suspended (delete call) w) eq_refl eq_refl
                (I_frame w (with_suspended (delete call) w) eq_refl eq_refl Hw)).
  destruct (ChatProtocol.openStream_dial peer _) as [[session|e] w1]; exact Hdial.
Qed.

End invariant.

(** *** The registry is well formed in every execution *)

Lemma registry_ok_frame (w w' : world) :
  session_heap w' = session_heap w -> sessions w' = sessions w ->
  registry_ok w -> registry_ok w'.
Proof. unfold registry_ok. intros -> ->. auto. Qed.

Lemma registry_ok_alter (f : ChatSession -> ChatSession) (this : nat) (w : world) :
  (forall s, peerId (f s) = peerId s) ->
  registry_ok w -> registry_ok (with_session_heap (alter f this) w).
Proof.
  intros Hf [Hnd Hreg]. split; [exact Hnd|]. cbn. intros p r Hin.
  destruct (Hreg p r Hin) as (s & Hs & Hp).
  destruct (decide (this = r)) as [->|Hne].
  - exists (f s). rewrite list_lookup_alter_eq, Hs. split; [reflexivity|]. now rewrite Hf.
  - exists s. rewrite list_lookup_alter_ne by exact Hne. auto.
Qed.

Lemma registry_ok_delete (p : jsstring) (w : world) :
  registry_ok w -> registry_ok (with_sessions (fun m => JsMap.delete m p) w).
Proof.
  intros [Hnd Hreg]. split; cbn.
  - apply JsMap_delete_NoDup, Hnd.
  - intros p' r Hin. apply Hreg. eapply JsMap_delete_elem, Hin.
Qed.

Lemma registry_ok_new (s : ChatSession) (w : world) :
  registry_ok w ->
  registry_ok (with_session_heap (fun h => h ++ [s]) w).
Proof.
  intros [Hnd Hreg]. split; [exact Hnd|]. cbn. intros p r Hin.
  destruct (Hreg p r Hin) as (s' & Hs' & Hp). exists s'.
  split; [|exact Hp]. apply lookup_app_l_Some, Hs'.
Qed.

Lemma registry_ok_set (peer : jsstring) (session : nat) (s : ChatSession) (w : world) :
  session_heap w !! session = Some s -> peerId s = peer ->
  registry_ok w -> registry_ok (with_sessions (fun m => JsMap.set m peer session) w).
Proof.
  intros Hs Hp [Hnd Hreg]. split; cbn.
  - apply JsMap_set_NoDup, Hnd.
  - intros p r Hin. apply JsMap_set_elem in Hin as [[-> ->]|Hin]; [eauto|auto].
Qed.


Lemma registry_ok_registered (peer : jsstring) (s : ChatSession) (w : world) :
  peerId s = peer ->
  registry_ok w ->
  registry_ok
    (with_sessions (fun m => JsMap.set m peer (length (session_heap w)))
       (with_session_heap (fun h => h ++ [s]) w)).
Proof.
  intros Hp Hw.
  apply (registry_ok_set peer (length (session_heap w)) s
           (with_session_heap (fun h => h ++ [s]) w)).
  - cbn. apply list_lookup_middle. reflexivity.
  - exact Hp.
  - apply registry_ok_new, Hw.
Qed.

Lemma registry_ok_close (this : nat) :
  preserves registry_ok (ChatProtocol.session_close this).
Proof.
  intros w Hw. destruct (session_heap w !! this) as [s|] eqn:Hs.
  - destruct (isActive s) eqn:Hact.
    + rewrite (session_close_active w this s Hs Hact). cbn [snd].
      eapply registry_ok_frame;
        [| |apply (registry_ok_delete (peerId s)),
              (registry_ok_alter closed_session this w); [reflexivity|exact Hw]];
        reflexivity.
    + rewrite (session_close_inactive w this s Hs Hact). exact Hw.
  - unfold ChatProtocol.session_close, ChatSession.close, ChatSession.deref, bind.
    rewrite Hs. exact Hw.
Qed.

Lemma registry_ok_incoming (stream : nat) (peer : jsstring) :
  preserves registry_ok (ChatProtocol.handleIncomingStream stream peer).
Proof.
  intros w Hw. destruct (JsMap.has (sessions w) peer) eqn:Hhas.
  - rewrite (handleIncomingStream_duplicate w stream peer Hhas).
    eapply registry_ok_frame; [| |exact Hw]; reflexivity.
  - rewrite (handleIncomingStream_new w stream peer Hhas). cbn [snd].
    eapply registry_ok_frame;
      [| |apply (registry_ok_registered peer
                   (opened_session stream peer (node_peerId (platform w))) w eq_refl Hw)];
      reflexivity.
Qed.

(** A dial that fails: [openStream] throws, and only the console and
    the number of platform calls have changed. *)
Lemma openStream_dial_failed (w : world) (peer : jsstring) :
  dialProtocol (platform w) (ticks w) peer <> Dialed ->
  exists e lines,
    ChatProtocol.openStream_dial peer w =
      (Throw e,
       with_console (fun c => c ++ lines) (with_ticks (fun t => S (S (S t))) w)).
Proof.
  destruct w as [p sh st ss ls em co ti su]. intros Hdial.
  unfold ChatProtocol.openStream_dial, try_catch, bind, ask, throw, console_error, modify.
  lazy beta iota zeta delta [fst snd platform ticks with_ticks with_console console
    session_heap stream_heap sessions localStorage emitted suspended] in Hdial |- *.
  destruct (dialProtocol p ti peer) as [|message|message]; [contradiction| |];
    lazy beta iota zeta delta [fst snd platform ticks with_ticks with_console console
      session_heap stream_heap sessions localStorage emitted suspended];
    destruct (getConnections p _ peer =? 0)%nat;
    lazy beta iota zeta delta [fst snd platform ticks with_ticks with_console console
      session_heap stream_heap sessions localStorage emitted suspended];
    eexists; eexists; rewrite <- ?app_assoc; reflexivity.
Qed.

Lemma dialed_or_not (outcome : dial_outcome) : outcome = Dialed \/ outcome <> Dialed.
Proof. destruct outcome; [left; reflexivity|right; discriminate..]. Qed.

Lemma registry_ok_openStream_dial (peer : jsstring) :
  preserves registry_ok (ChatProtocol.openStream_dial peer).
Proof.
  intros w Hw. destruct (dialed_or_not (dialProtocol (platform w) (ticks w) peer)) as [Hdial|Hdial].
  - rewrite (openStream_dial_dialed w peer Hdial). cbn [snd].
    eapply registry_ok_frame;
      [| |apply (registry_ok_registered peer
                   (opened_session (length (stream_heap w)) peer (node_peerId (platform w)))
                   w eq_refl Hw)];
      reflexivity.
  - destruct (openStream_dial_failed w peer Hdial) as (e & lines & ->).
    eapply registry_ok_frame; [| |exact Hw]; reflexivity.
Qed.

Lemma registry_ok_openStream (peer : jsstring) :
  preserves registry_ok (ChatProtocol.openStream peer).
Proof.
  intros w Hw. destruct (JsMap.get (sessions w) peer) as [session|] eqn:Hget.
  - rewrite (openStream_registered w peer session Hget). exact Hw.
  - rewrite (openStream_unregistered w peer Hget).
    apply registry_ok_openStream_dial, Hw.
Qed.

Lemma dial_settled_or_not (a : action) :
  (exists call, a = DialSettled call) \/ (forall call, a <> DialSettled call).
Proof. destruct a; first [left; eexists; reflexivity | right; discriminate]. Qed.

Lemma registry_ok_perform (a : action) : preserves registry_ok (perform a).
Proof.
  intros w Hw. destruct (dial_settled_or_not a) as [[call ->]|Hnot].
  - apply (kept_dial_settled registry_ok registry_ok_frame); [|exact Hw].
    intros peer _ w1 _ _. apply registry_ok_openStream_dial.
  - apply (kept_perform registry_ok registry_ok_frame); try assumption.
    + intros f this w0 Hf. apply registry_ok_alter. intros s. apply Hf.
    + exact registry_ok_close.
    + exact registry_ok_incoming.
    + exact registry_ok_openStream.
Qed.

Lemma registry_ok_initial (p : Platform) : registry_ok (initial p).
Proof. split; [constructor|]. intros q r Hin. inversion Hin. Qed.

Lemma registry_ok_exec (trace : list action) (w : world) :
  registry_ok w -> registry_ok (exec trace w).
Proof.
  revert w. induction trace as [|a trace IH]; intros w Hw; [exact Hw|].
  cbn. apply IH. apply registry_ok_perform, Hw.
Qed.

(** ** One session per peer *)

(** A duplicate inbound stream is closed and the session that is
    registered stays as it is: no session, no registry entry and no
    event changes. *)
Lemma duplicate_stream_is_closed (w : world) (stream : nat) (peer : jsstring) (st : Stream) :
  JsMap.has (sessions w) peer = true ->
  stream_heap w !! stream = Some st ->
  let w' := run (ChatProtocol.handleIncomingStream stream peer) w in
  session_heap w' = session_heap w /\ sessions w' = sessions w
  /\ emitted w' = emitted w
  /\ stream_heap w' !! stream = Some (MkStream (sink st) (broken st) true).
Proof.
  intros Hhas Hst w'. unfold w', run.
  rewrite (handleIncomingStream_duplicate w stream peer Hhas). cbn.
  rewrite list_lookup_alter_eq, Hst. auto.
Qed.

(** *** Without an overtaken dial, one live session per peer *)

Lemma sessions_ok_frame (w w' : world) :
  session_heap w' = session_heap w -> sessions w' = sessions w ->
  sessions_ok w -> sessions_ok w'.
Proof.
  intros Hh Hs [Hreg Hlive]. split; [exact (registry_ok_frame w w' Hh Hs Hreg)|].
  unfold live_registered. rewrite Hh, Hs. exact Hlive.
Qed.

Lemma sessions_ok_alter (f : ChatSession -> ChatSession) (this : nat) (w : world) :
  (forall s, peerId (f s) = peerId s /\ isActive (f s) = isActive s) ->
  sessions_ok w -> sessions_ok (with_session_heap (alter f this) w).
Proof.
  intros Hf [Hreg Hlive]. split; [apply registry_ok_alter; [apply Hf|exact Hreg]|].
  intros r s'. cbn. destruct (decide (this = r)) as [->|Hne].
  - rewrite list_lookup_alter_eq. destruct (session_heap w !! r) as [s|] eqn:Hs;
      [|discriminate]. cbn. intros [= <-] Hact.
    destruct (Hf s) as [-> Hact']. rewrite Hact' in Hact. exact (Hlive r s Hs Hact).
  - rewrite list_lookup_alter_ne by exact Hne. apply Hlive.
Qed.

Lemma sessions_ok_close (this : nat) :
  preserves sessions_ok (ChatProtocol.session_close this).
Proof.
  intros w [Hreg Hlive].
  split; [exact (registry_ok_close this w Hreg)|].
  destruct (session_heap w !! this) as [s|] eqn:Hs.
  - destruct (isActive s) eqn:Hact.
    + rewrite (session_close_active w this s Hs Hact). cbn [snd].
      intros r s'. cbn. destruct (decide (this = r)) as [->|Hne].
      * rewrite list_lookup_alter_eq, Hs. cbn. intros [= <-]. discriminate.
      * rewrite list_lookup_alter_ne by exact Hne. intros Hs' Hact'.
        apply list_elem_of_filter. split; [|exact (Hlive r s' Hs' Hact')].
        cbn. intros Heq. apply Hne.
        pose proof (JsMap_get_elem _ _ _ (proj1 Hreg) (Hlive this s Hs Hact)) as H1.
        pose proof (JsMap_get_elem _ _ _ (proj1 Hreg) (Hlive r s' Hs' Hact')) as H2.
        rewrite Heq in H2. congruence.
    + rewrite (session_close_inactive w this s Hs Hact). exact Hlive.
  - unfold ChatProtocol.session_close, ChatSession.close, ChatSession.deref, bind.
    rewrite Hs. exact Hlive.
Qed.

(** Registering a new session for a peer that has none. *)
Lemma sessions_ok_registered (peer : jsstring) (s : ChatSession) (w : world) :
  peerId s = peer -> JsMap.get (sessions w) peer = None ->
  sessions_ok w ->
  sessions_ok
    (with_sessions (fun m => JsMap.set m peer (length (session_heap w)))
       (with_session_heap (fun h => h ++ [s]) w)).
Proof.
  intros Hp Hnone [Hreg Hlive]. split; [exact (registry_ok_registered peer s w Hp Hreg)|].
  intros r s'. cbn. rewrite (JsMap_set_absent _ _ _ Hnone).
  intros Hs' Hact. apply lookup_snoc_Some in Hs' as [[_ Hs']|[-> <-]].
  - apply elem_of_app. left. exact (Hlive r s' Hs' Hact).
  - apply elem_of_app. right. rewrite Hp. apply list_elem_of_singleton. reflexivity.
Qed.

Lemma sessions_ok_incoming (stream : nat) (peer : jsstring) :
  preserves sessions_ok (ChatProtocol.handleIncomingStream stream peer).
Proof.
  intros w Hw. destruct (JsMap.has (sessions w) peer) eqn:Hhas.
  - rewrite (handleIncomingStream_duplicate w stream peer Hhas).
    eapply sessions_ok_frame; [| |exact Hw]; reflexivity.
  - rewrite (handleIncomingStream_new w stream peer Hhas). cbn [snd].
    eapply sessions_ok_frame;
      [| |apply (sessions_ok_registered peer
                   (opened_session stream peer (node_peerId (platform w))) w eq_refl
                   (proj1 (JsMap_has_get _ _) Hhas) Hw)];
      reflexivity.
Qed.

(** Resuming [openStream] for a peer that still has no session. *)
Lemma sessions_ok_openStream_dial (peer : jsstring) (w : world) :
  JsMap.get (sessions w) peer = None ->
  sessions_ok w -> sessions_ok (ChatProtocol.openStream_dial peer w).2.
Proof.
  intros Hnone Hw.
  destruct (dialed_or_not (dialProtocol (platform w) (ticks w) peer)) as [Hdial|Hdial].
  - rewrite (openStream_dial_dialed w peer Hdial). cbn [snd].
    eapply sessions_ok_frame;
      [| |apply (sessions_ok_registered peer
                   (opened_session (length (stream_heap w)) peer (node_peerId (platform w)))
                   w eq_refl Hnone Hw)];
      reflexivity.
  - destruct (openStream_dial_failed w peer Hdial) as (e & lines & ->).
    eapply sessions_ok_frame; [| |exact Hw]; reflexivity.
Qed.

Lemma sessions_ok_openStream (peer : jsstring) :
  preserves sessions_ok (ChatProtocol.openStream peer).
Proof.
  intros w Hw. destruct (JsMap.get (sessions w) peer) as [session|] eqn:Hget.
  - rewrite (openStream_registered w peer session Hget). exact Hw.
  - rewrite (openStream_unregistered w peer Hget).
    exact (sessions_ok_openStream_dial peer w Hget Hw).
Qed.

Lemma sessions_ok_initial (p : Platform) : sessions_ok (initial p).
Proof. split; [apply registry_ok_initial|]. intros r s Hs. inversion Hs. Qed.

Lemma sessions_ok_exec (trace : list action) (w : world) :
  not_overtaken trace w -> sessions_ok w -> sessions_ok (exec trace w).
Proof.
  revert w. induction trace as [|a trace IH]; intros w Hfree Hw; [exact Hw|].
  destruct Hfree as [Ha Hfree]. cbn [exec fold_left]. apply (IH _ Hfree). unfold step, run.
  destruct (dial_settled_or_not a) as [[call ->]|Hnot].
  - apply (kept_dial_settled sessions_ok sessions_ok_frame); [|exact Hw].
    intros peer Hcall w1 Hh Hs Hw1. apply sessions_ok_openStream_dial; [|exact Hw1].
    rewrite Hs. apply JsMap_has_get, Ha, Hcall.
  - apply (kept_perform sessions_ok sessions_ok_frame sessions_ok_alter sessions_ok_close
             sessions_ok_incoming sessions_ok_openStream a Hnot w Hw).
Qed.

Lemma sessions_ok_one_live (w : world) : sessions_ok w -> one_live_session_per_peer w.
Proof.
  intros [[Hnd _] Hlive] r1 r2 s1 s2 Hs1 Hs2 Hact1 Hact2 Hpeer.
  pose proof (JsMap_get_elem _ _ _ Hnd (Hlive r1 s1 Hs1 Hact1)) as H1.
  pose proof (JsMap_get_elem _ _ _ Hnd (Hlive r2 s2 Hs2 Hact2)) as H2.
  rewrite Hpeer in H1. congruence.
Qed.

(** In an execution from the start in which no [openStream] is
    overtaken, no peer ever has two live sessions, and every live
    session is the registered one of its peer. *)
Lemma one_live_session_unless_overtaken (p : Platform) (trace : list action) :
  not_overtaken trace (initial p) ->
  one_live_session_per_peer (exec trace (initial p))
  /\ live_registered (exec trace (initial p)).
Proof.
  intros Hfree.
  pose proof (sessions_ok_exec trace (initial p) Hfree (sessions_ok_initial p)) as Hok.
  split; [exact (sessions_ok_one_live _ Hok)|exact (proj2 Hok)].
Qed.

(** C1 at the input where it fails.  [openStream] finds no session for
    the peer and waits for its dial; an inbound stream of the same peer
    arrives and its session 0 is registered; the dial settles and
    [openStream] registers session 1 for the peer, in place of session
    0, which it neither closes nor looks at.  Two sessions of the peer
    are then live.  When the displaced session ends, the registry entry
    of the peer, which refers to the other session, is removed. *)
Theorem openStream_race_displaces_registered_session :
  let peer := js "QmPeer" in
  let w1 := exec [OpenStream peer; InboundStream peer] (initial demo) in
  let w2 := exec [DialSettled 0] w1 in
  let w3 := exec [InboundEnd 0 None] w2 in
  (sessions w1 = [(peer, 0%nat)] /\ live_sessions peer w1 = [0%nat])
  /\ (sessions w2 = [(peer, 1%nat)] /\ live_sessions peer w2 = [0%nat; 1%nat])
  /\ ~ one_live_session_per_peer w2
  /\ (sessions w3 = [] /\ live_sessions peer w3 = [1%nat]).
Proof.
  cbv zeta. split; [vm_compute; auto|]. split; [vm_compute; auto|].
  split; [|vm_compute; auto].
  intros Hone.
  specialize (Hone 0%nat 1%nat
                (opened_session 0 (js "QmPeer") (js "QmSelf"))
                (opened_session 1 (js "QmPeer") (js "QmSelf"))
                eq_refl eq_refl eq_refl eq_refl eq_refl).
  discriminate Hone.
Qed.

(** The same happens without any inbound stream, when [openStream] is
    called again for a peer while the first call still waits for its
    dial: both calls find no session, and each registers its own. *)
Example openStream_twice_while_dialing :
  let peer := js "QmPeer" in
  let w := exec [OpenStream peer; OpenStream peer; DialSettled 0; DialSettled 0]
             (initial demo) in
  sessions w = [(peer, 1%nat)] /\ live_sessions peer w = [0%nat; 1%nat].
Proof. vm_compute. auto. Qed.

(** ** Broadcast *)

Lemma getActiveSessions_active_entries (w : world) :
  ChatProtocol.getActiveSessions w = (Normal (active_entries w), w).
Proof. reflexivity. Qed.

Lemma registry_refs_NoDup (w : world) : registry_ok w -> NoDup (sessions w).*2.
Proof.
  intros [Hnd Hreg].
  apply NoDup_fmap_2_strong; [|apply (NoDup_fmap_1 fst), Hnd].
  intros [p1 r1] [p2 r2] H1 H2 Heq. cbn in Heq. subst r2.
  destruct (Hreg _ _ H1) as (s1 & Hs1 & Hp1).
  destruct (Hreg _ _ H2) as (s2 & Hs2 & Hp2).
  congruence.
Qed.

Lemma sendMessage_send_registered (w : world) (p : jsstring) (r : nat) (s : ChatSession)
  (content roomId : jsstring) :
  JsMap.get (sessions w) p = Some r ->
  session_heap w !! r = Some s -> isActive s = true ->
  ChatProtocol.sendMessage_send p content roomId w =
    (Normal (message_at (platform w) (ticks w) content roomId s),
     with_session_heap
       (alter (pushed (payload (message_at (platform w) (ticks w) content roomId s))) r)
       (with_ticks (fun t => S (S (S t))) w)).
Proof.
  intros Hget Hs Hact.
  unfold ChatProtocol.sendMessage_send.
  eapply bind_normal; [reflexivity|]. rewrite Hget.
  eapply bind_normal; [reflexivity|].
  eapply bind_normal; [reflexivity|].
  eapply bind_normal; [reflexivity|].
  eapply bind_normal; [apply deref_some, Hs|].
  eapply bind_normal; [reflexivity|].
  eapply bind_normal.
  { unfold ChatProtocol.chat_message. eapply send_object; [exact Hs|exact Hact]. }
  reflexivity.
Qed.

(** The loop of [broadcast]: every entry of the registry is visited,
    and a session is only changed by its own entry. *)
Lemma broadcast_loop (content roomId : jsstring) (w0 : world)
  (entries : list (jsstring * nat)) :
  forall w,
    platform w = platform w0 ->
    (forall e, e ∈ entries -> JsMap.get (sessions w) e.1 = Some e.2) ->
    (forall e, e ∈ entries -> is_Some (session_heap w0 !! e.2)) ->
    (forall e, e ∈ entries -> session_heap w !! e.2 = session_heap w0 !! e.2) ->
    NoDup entries.*2 ->
    exists promises w',
      for_each entries (ChatProtocol.broadcast_call content roomId) w = (Normal promises, w')
      /\ same_but_heap_ticks w w'
      /\ Forall2 (sent_to w0 w' content roomId) entries promises
      /\ (forall r, r ∉ entries.*2 -> session_heap w' !! r = session_heap w !! r).
Proof.
  induction entries as [|[p r] rest IH]; intros w Hp Hget Hsome Hagree Hnd.
  - exists [], w. repeat split; auto.
  - rewrite fmap_cons in Hnd. apply NoDup_cons in Hnd as [Hr Hnd]. cbn in Hr.
    destruct (Hsome (p, r)) as [s Hs0]; [left|]. cbn in Hs0.
    assert (Hs : session_heap w !! r = Some s).
    { rewrite <- Hs0. apply (Hagree (p, r)). left. }
    assert (Hrest : forall e, e ∈ rest -> e.2 <> r).
    { intros e He Heq. apply Hr. apply list_elem_of_fmap. exists e. auto. }
    destruct (isActive s) eqn:Hact.
    + pose (m := message_at (platform w) (ticks w) content roomId s).
      pose (w1 := with_session_heap (alter (pushed (payload m)) r)
                    (with_ticks (fun t => S (S (S t))) w)).
      destruct (IH w1) as (promises & w' & Hrun & Hsame & Hall & Hother).
      * exact Hp.
      * intros e He. apply Hget. now right.
      * intros e He. apply Hsome. now right.
      * intros e He. cbn. rewrite list_lookup_alter_ne by (symmetry; auto).
        apply Hagree. now right.
      * exact Hnd.
      * exists (Some (Normal m) :: promises), w'. split; [|split; [|split]].
        -- cbn [for_each]. eapply bind_normal.
           { unfold ChatProtocol.broadcast_call.
             eapply bind_normal; [apply deref_some, Hs|].
             rewrite Hact. eapply bind_normal.
             { unfold settle. cbn [fst snd].
               rewrite (sendMessage_send_registered w p r s content roomId
                          (Hget (p, r) ltac:(left)) Hs Hact). reflexivity. }
             reflexivity. }
           eapply bind_normal; [exact Hrun|]. reflexivity.
        -- destruct Hsame as (? & ? & ? & ? & ? & ? & ? & Hlen).
           repeat split; try assumption. rewrite Hlen. cbn. apply length_alter.
        -- constructor; [|exact Hall].
           exists s. split; [exact Hs0|]. rewrite Hact.
           exists m. split; [|split; [reflexivity|]].
           ++ exists (Date_now (platform w) (ticks w)),
                (event_id_at (platform w) (S (ticks w))).
              rewrite <- Hp. reflexivity.
           ++ cbn [fst snd]. rewrite (Hother r Hr). cbn.
              rewrite list_lookup_alter_eq, Hs. reflexivity.
        -- intros r' Hr'. rewrite fmap_cons in Hr'.
           apply not_elem_of_cons in Hr' as [Hne Hr'].
           rewrite (Hother r' Hr'). cbn. apply list_lookup_alter_ne. auto.
    + destruct (IH w) as (promises & w' & Hrun & Hsame & Hall & Hother).
      * exact Hp.
      * intros e He. apply Hget. now right.
      * intros e He. apply Hsome. now right.
      * intros e He. apply Hagree. now right.
      * exact Hnd.
      * exists (None :: promises), w'. split; [|split; [|split]].
        -- cbn [for_each]. eapply bind_normal.
           { unfold ChatProtocol.broadcast_call.
             eapply bind_normal; [apply deref_some, Hs|].
             rewrite Hact. reflexivity. }
           eapply bind_normal; [exact Hrun|]. reflexivity.
        -- exact Hsame.
        -- constructor; [|exact Hall].
           exists s. split; [exact Hs0|]. rewrite Hact. split; [reflexivity|].
           cbn [fst snd]. rewrite (Hother r Hr). exact Hs.
        -- intros r' Hr'. rewrite fmap_cons in Hr'.
           apply not_elem_of_cons in Hr' as [Hne Hr'].
           apply (Hother r' Hr').
Qed.

Lemma broadcast_loop_registry (content roomId : jsstring) (w : world) :
  registry_ok w ->
  exists promises w',
    for_each (sessions w) (ChatProtocol.broadcast_call content roomId) w
      = (Normal promises, w')
    /\ same_but_heap_ticks w w'
    /\ Forall2 (sent_to w w' content roomId) (sessions w) promises
    /\ (forall r, r ∉ (sessions w).*2 -> session_heap w' !! r = session_heap w !! r).
Proof.
  intros Hok. apply broadcast_loop; auto.
  - intros [p r] He. apply JsMap_get_elem; [apply Hok|exact He].
  - intros [p r] He. destruct Hok as [_ Hreg].
    destruct (Hreg p r He) as (s & Hs & _). cbn. eauto.
  - apply registry_refs_NoDup, Hok.
Qed.

(** Resuming the calls changes no session, whatever the storage does. *)
Definition keeps_sessions {A} (m : M A) : Prop :=
  forall w, session_heap (m w).2 = session_heap w /\ sessions (m w).2 = sessions w
            /\ stream_heap (m w).2 = stream_heap w.

Lemma keeps_sessions_bind {A B} (m : M A) (k : A -> M B) :
  keeps_sessions m -> (forall a, keeps_sessions (k a)) -> keeps_sessions (bind m k).
Proof.
  intros Hm Hk w. unfold bind. specialize (Hm w).
  destruct (m w) as [[a|e] w1]; cbn in *; [|exact Hm].
  destruct (Hk a w1) as (-> & -> & ->). exact Hm.
Qed.

Lemma keeps_sessions_record (roomId : jsstring) (message : jsval) :
  keeps_sessions (ChatProtocol.sendMessage_record roomId message).
Proof.
  unfold ChatProtocol.sendMessage_record, ChatHistoryStorage.addMessage,
    ChatHistoryStorage.get, ChatHistoryStorage.set.
  apply keeps_sessions_bind.
  - apply keeps_sessions_bind; [intros w; cbn; auto|]. intros found.
    apply keeps_sessions_bind; [intros w; cbn; auto|]. intros now.
    apply keeps_sessions_bind; [intros w; cbn; auto|]. intros [failure|].
    + apply keeps_sessions_bind; [|intros _]; intros w; cbn; auto.
    + intros w. cbn. auto.
  - intros _. apply keeps_sessions_bind; [|intros _]; intros w; cbn; auto.
Qed.

Lemma broadcast_resume_all (roomId : jsstring) (promises : list (option (completion jsval))) :
  forall w, exists results w',
    for_each promises (ChatProtocol.broadcast_resume roomId) w = (Normal results, w')
    /\ session_heap w' = session_heap w /\ sessions w' = sessions w
    /\ stream_heap w' = stream_heap w.
Proof.
  induction promises as [|promise promises IH]; intros w.
  - exists [], w. auto.
  - assert (Hone : exists w1,
               ChatProtocol.broadcast_resume roomId promise w = (Normal tt, w1)
               /\ session_heap w1 = session_heap w /\ sessions w1 = sessions w
               /\ stream_heap w1 = stream_heap w).
    { destruct promise as [[m|e]|]; cbn; eauto.
      unfold bind, settle.
      pose proof (keeps_sessions_record roomId m w) as Hk.
      destruct (ChatProtocol.sendMessage_record roomId m w) as [c w1]. cbn in *. eauto. }
    destruct Hone as (w1 & Hrun1 & Hh1 & Hs1 & Hst1).
    destruct (IH w1) as (results & w' & Hrun & Hh & Hs & Hst).
    exists (tt :: results), w'. split; [|split; [|split]]; try congruence.
    cbn [for_each]. eapply bind_normal; [exact Hrun1|].
    eapply bind_normal; [exact Hrun|]. reflexivity.
Qed.

(** C7. [broadcast] completes without an exception and sends once to
    every session that is registered and active: such a session gets
    exactly one chat message with the given body and room pushed onto
    its outbound queue.  This holds in every state of the registry's
    sessions and of the platform: whether the history storage then
    refuses the message of some session, or the stream of some session
    is broken, the other sessions are sent to all the same.  No other
    session, and no stream, is touched. *)
Theorem broadcast_sends_to_every_active_session (w : world) (content roomId : jsstring) :
  registry_ok w ->
  let w' := run (ChatProtocol.broadcast content roomId) w in
  (ChatProtocol.broadcast content roomId w).1 = Normal tt
  /\ (forall p r s,
        (p, r) ∈ sessions w -> session_heap w !! r = Some s -> isActive s = true ->
        exists m, broadcast_message w content roomId s m
                  /\ session_heap w' !! r = Some (pushed (payload m) s))
  /\ (forall r s,
        session_heap w !! r = Some s ->
        r ∉ (sessions w).*2 \/ isActive s = false ->
        session_heap w' !! r = Some s)
  /\ sessions w' = sessions w
  /\ stream_heap w' = stream_heap w.
Proof.
  intros Hok w'.
  destruct (broadcast_loop_registry content roomId w Hok)
    as (promises & w1 & Hloop & Hsame & Hall & Hother).
  destruct (broadcast_resume_all roomId promises w1) as (results & w2 & Hres & Hh & Hs & Hst).
  assert (Hrun : ChatProtocol.broadcast content roomId w = (Normal tt, w2)).
  { unfold ChatProtocol.broadcast. eapply bind_normal; [reflexivity|].
    eapply bind_normal; [exact Hloop|].
    eapply bind_normal; [exact Hres|]. reflexivity. }
  unfold w', run. rewrite Hrun. cbn [fst snd].
  destruct Hsame as (_ & Hstreams & Hsessions & _).
  split; [reflexivity|]. split; [|split; [|split]]; try congruence.
  - intros p r s Hin Hsr Hact.
    apply list_elem_of_lookup in Hin as [i Hi].
    destruct (Forall2_lookup_l _ _ _ _ _ Hall Hi) as (promise & _ & s' & Hs' & Hsent).
    cbn in Hs'. rewrite Hsr in Hs'. injection Hs' as <-. rewrite Hact in Hsent.
    destruct Hsent as (m & Hm & _ & Hpushed). exists m. split; [exact Hm|].
    rewrite Hh. exact Hpushed.
  - intros r s Hsr [Hnot|Hinactive].
    + rewrite Hh, (Hother r Hnot). exact Hsr.
    + rewrite Hh. destruct (decide (r ∈ (sessions w).*2)) as [Hin|Hnot];
        [|rewrite (Hother r Hnot); exact Hsr].
      apply list_elem_of_fmap in Hin as [[p r'] [-> Hin]]. cbn in *.
      apply list_elem_of_lookup in Hin as [i Hi].
      destruct (Forall2_lookup_l _ _ _ _ _ Hall Hi) as (promise & _ & s' & Hs' & Hsent).
      cbn in Hs'. rewrite Hsr in Hs'. injection Hs' as <-. rewrite Hinactive in Hsent.
      tauto.
Qed.
(** *** The history of a broadcast *)

Lemma limit_small (messages : list jsval) :
  length messages <= ChatHistoryStorage.MAX_MESSAGES_PER_ROOM ->
  ChatHistoryStorage.limit messages = messages.
Proof.
  intros Hlen. unfold ChatHistoryStorage.limit.
  destruct (Nat.ltb_spec ChatHistoryStorage.MAX_MESSAGES_PER_ROOM (length messages));
    [lia|reflexivity].
Qed.

Lemma limit_length (messages : list jsval) :
  length (ChatHistoryStorage.limit messages)
  = Nat.min (length messages) ChatHistoryStorage.MAX_MESSAGES_PER_ROOM.
Proof.
  unfold ChatHistoryStorage.limit.
  destruct (Nat.ltb_spec ChatHistoryStorage.MAX_MESSAGES_PER_ROOM (length messages)).
  - rewrite length_drop. lia.
  - lia.
Qed.




Lemma addMessage_stored (w : world) (roomId : jsstring) (message : jsval) :
  setItem (platform w) (S (ticks w)) (history_key roomId) = None ->
  ChatHistoryStorage.addMessage (VStr roomId) message w =
    (Normal tt,
     World (platform w) (session_heap w) (stream_heap w) (sessions w)
       (<[history_key roomId :=
            ChatHistoryStorage.stored
              (ChatHistoryStorage.limit
                 (history w roomId ++
                    [stored_entry message (Date_now (platform w) (ticks w))]))]>
          (localStorage w))
       (emitted w) (console w) (S (S (ticks w))) (suspended w)).
Proof.
  intros Hok. unfold ChatHistoryStorage.addMessage.
  eapply bind_normal; [reflexivity|].
  eapply bind_normal; [reflexivity|].
  unfold ChatHistoryStorage.set.
  eapply bind_normal; [reflexivity|].
  cbn [ToString platform ticks with_ticks].
  change (ChatHistoryStorage._getKey (js "history-" ++ roomId)) with (history_key roomId).
  rewrite Hok. reflexivity.
Qed.

Lemma sendMessage_record_stored (w : world) (roomId : jsstring) (message : jsval) :
  setItem (platform w) (S (ticks w)) (history_key roomId) = None ->
  ChatProtocol.sendMessage_record roomId message w =
    (Normal message,
     World (platform w) (session_heap w) (stream_heap w) (sessions w)
       (<[history_key roomId :=
            ChatHistoryStorage.stored
              (ChatHistoryStorage.limit
                 (history w roomId ++
                    [stored_entry message (Date_now (platform w) (ticks w))]))]>
          (localStorage w))
       (emitted w ++ [message_sent message]) (console w) (S (S (ticks w))) (suspended w)).
Proof.
  intros Hok. unfold ChatProtocol.sendMessage_record.
  eapply bind_normal; [apply (addMessage_stored w roomId message Hok)|].
  reflexivity.
Qed.


Lemma stored_entry_room_message (p : Platform) (t : nat) (content roomId : jsstring)
  (s : ChatSession) (now : Z) :
  stored_entry (VObj (room_message p roomId content t s)) now
  = VObj (room_message p roomId content t s ++ [(js "stored_at", VNum now)]).
Proof. reflexivity. Qed.







(** Three sessions, the stream of the second one broken, and a storage
    that refuses the message of the second one. *)
Lemma broadcast_sends_to_every_active_session_witness :
  let w := exec [InboundStream (js "QmA"); InboundStream (js "QmB");
                 InboundStream (js "QmC"); SinkBreaks 1] (initial flaky) in
  let w' := run (ChatProtocol.broadcast (js "yo") (js "public")) w in
  registry_ok w
  /\ Forall (fun entry : jsstring * nat =>
               exists m,
                 broadcast_message w (js "yo") (js "public")
                   (opened_session entry.2 entry.1 (js "QmSelf")) m
                 /\ session_heap w' !! entry.2
                    = Some (pushed (payload m) (opened_session entry.2 entry.1 (js "QmSelf"))))
            [(js "QmA", 0%nat); (js "QmB", 1%nat); (js "QmC", 2%nat)].
Proof.
  cbv zeta.
  pose proof (registry_ok_exec
                [InboundStream (js "QmA"); InboundStream (js "QmB");
                 InboundStream (js "QmC"); SinkBreaks 1] (initial flaky)
                (registry_ok_initial flaky)) as Hok.
  destruct (broadcast_sends_to_every_active_session _ (js "yo") (js "public") Hok)
    as (_ & Hsent & _).
  split; [exact Hok|].
  apply Forall_cons; split;
    [|apply Forall_cons; split; [|apply Forall_cons; split; [|constructor]]];
    cbn [fst snd].
  - apply (Hsent (js "QmA"));
      [apply (list_elem_of_lookup_2 _ 0%nat); reflexivity|reflexivity|reflexivity].
  - apply (Hsent (js "QmB"));
      [apply (list_elem_of_lookup_2 _ 1%nat); reflexivity|reflexivity|reflexivity].
  - apply (Hsent (js "QmC"));
      [apply (list_elem_of_lookup_2 _ 2%nat); reflexivity|reflexivity|reflexivity].
Defined.

(** The scenario of the specification: three active sessions, the
    stream of one of them broken.  After the broadcast and one run of
    each outbound pipe per queued chunk, the two other streams carry the
    Hello and the chat message, and the session of the broken stream is
    closed. *)
Example broadcast_with_one_broken_stream :
  let w := exec [InboundStream (js "QmA"); InboundStream (js "QmB");
                 InboundStream (js "QmC"); SinkBreaks 1;
                 Broadcast (js "yo") (js "public");
                 OutboundPipe 0; OutboundPipe 0; OutboundPipe 1; OutboundPipe 1;
                 OutboundPipe 2; OutboundPipe 2] (initial demo) in
  (length ∘ sink <$> stream_heap w) = [2; 0; 2]%nat
  /\ (isActive <$> session_heap w) = [true; false; true]
  /\ sessions w = [(js "QmA", 0%nat); (js "QmC", 2%nat)]
  /\ length (history w (js "public")) = 3%nat.
Proof. vm_compute. auto. Qed.

(** The same broadcast when the storage refuses the message of the
    second session: all three sessions were sent to, two messages are in
    the history and were announced. *)
Example broadcast_with_one_refused_write :
  let w := exec [InboundStream (js "QmA"); InboundStream (js "QmB");
                 InboundStream (js "QmC"); Broadcast (js "yo") (js "public")]
             (initial flaky) in
  (length ∘ queue ∘ outbound <$> session_heap w) = [2; 2; 2]%nat
  /\ length (history w (js "public")) = 2%nat
  /\ length (filter (fun e : jsstring * jsval => e.1 = js "message:sent") (emitted w)) = 2%nat.
Proof. vm_compute. auto. Qed.



(** * More of the program

    The methods of the protocol and of the history storage that the
    properties above do not use, and the functions of the application
    (src/index.js) that call the protocol. *)

(** ** [ChatProtocol.closeAllSessions]

    The loop runs over [this.sessions.values()] while [close] deletes
    entries of that map; the iterator of a [Map] passes over an entry
    that was deleted before it is reached. *)
Definition closeAllSessions : M unit :=
  let* registry := gets sessions in
  for_each registry
    (fun entry : jsstring * nat =>
       let* current := gets sessions in
       if JsMap.has current entry.1 then ChatProtocol.session_close entry.2
       else ret tt)
  >>> ret tt.

(** ** [class Storage]: the methods [ChatHistoryStorage] inherits *)

(** [s.startsWith(p)] *)
Definition startsWith (s p : jsstring) : bool := bool_decide (take (length p) s = p).

Module Storage.

Section methods.

(** [this.prefix] *)
Context (prefix : jsstring).

Definition _getKey (key : jsstring) : jsstring := prefix ++ js "-" ++ key.

(** [this.storage.key(i)] for every [i] below [this.storage.length];
    the order of the keys is the user agent's. *)
Definition storage_keys (w : world) : list jsstring := (map_to_list (localStorage w)).*1.

Definition has (key : jsstring) : M bool :=
  gets (fun w => bool_decide (is_Some (localStorage w !! _getKey key))).

(** [this.storage.removeItem(...)] *)
Definition removeItem (key : jsstring) : M unit :=
  modify (with_localStorage (delete key)).

Definition remove (key : jsstring) : M unit := removeItem (_getKey key).

Definition own (key : jsstring) : bool :=
  negb (bool_decide (key = [])) && startsWith key (prefix ++ js "-").

Definition clear : M unit :=
  let* all := gets storage_keys in
  let keysToRemove := filter (fun key => own key = true) all in
  for_each keysToRemove removeItem >>> ret tt.

Definition keys : M (list jsstring) :=
  let* all := gets storage_keys in
  let prefixLen := (length prefix + 1)%nat in
  ret (drop prefixLen <$> filter (fun key => own key = true) all).

End methods.

End Storage.

(** [constructor(prefix = 'libp2p')]: the prefix of [new Storage()],
    the storage the application keeps its keys in. *)
Definition Storage_default_prefix : jsstring := js "libp2p".

(** ** [class SettingsStorage], its prefix and its reset *)

Module SettingsStorage.

Definition prefix : jsstring := js "libp2p-settings".

Definition resetToDefaults : M unit := Storage.clear prefix.

End SettingsStorage.

(** ** [class ChatHistoryStorage], the reading side *)

(** [messages.slice(start)] *)
Definition Array_slice {A} (start : Z) (l : list A) : list A :=
  let len := Z.of_nat (length l) in
  let k := if (start <? 0)%Z then Z.max (len + start) 0 else Z.min start len in
  drop (Z.to_nat k) l.

Module ChatHistory.

(** [getHistory(roomId, limit = 100)]: a limit is an integer, and
    [None] is an argument left out. *)
Definition getHistory (roomId : jsval) (limit : option Z) : M (list jsval) :=
  let limit := default 100%Z limit in
  let historyKey := js "history-" ++ ToString roomId in
  let* found := ChatHistoryStorage.get historyKey in
  let messages := default [] found in
  if negb (limit =? 0)%Z && (limit <? Z.of_nat (length messages))%Z
  then ret (Array_slice (- limit) messages)
  else ret messages.

Definition clearHistory (roomId : jsval) : M unit :=
  let historyKey := js "history-" ++ ToString roomId in
  Storage.remove ChatHistoryStorage.prefix historyKey.

Definition getRoomIds : M (list jsstring) :=
  let* keys := Storage.keys ChatHistoryStorage.prefix in
  ret (drop 8 <$> filter (fun key => startsWith key (js "history-") = true) keys).

End ChatHistory.

(** ** The application: [class P2PChatApp] (src/index.js)

    Of the application, the functions that drive the protocol; what
    they show on the terminal is not recorded. *)

Module P2PChatApp.

Definition nickname_update (sender nickname : jsstring) : jsval :=
  VObj [ (js "type", VStr (js "m.nickname"));
         (js "sender", VStr sender);
         (js "nickname", VStr nickname) ].

(** [broadcastNicknameUpdate(nickname)]: every [await session.send] is
    on a promise that is settled already. *)
Definition broadcastNicknameUpdate (nickname : jsstring) : M unit :=
  let* sessions := ChatProtocol.getActiveSessions in
  for_each sessions
    (fun entry : jsstring * nat =>
       try_catch
         (let* sender := ChatProtocol.self in
          ChatSession.send entry.2 (nickname_update sender nickname))
         (fun error =>
            console_error (js "Failed to send nickname update:") [exn_value error]))
  >>> ret tt.

(** [sendDirectMessage(peerId, content)], when nothing else runs while
    it waits. *)
Definition sendDirectMessage (peerId content : jsstring) : M unit :=
  try_catch
    (let* session := ChatProtocol.openStream peerId in
     let* ourPeerId := ChatProtocol.self in
     let roomId := (ChatProtocol.generateRoomId ourPeerId peerId).2 in
     let* message := ChatProtocol.sendMessage peerId content roomId in
     ret tt)
    (fun error =>
       console_error (js "[SendDM] Failed to send message:") [exn_value error]).

End P2PChatApp.

(** ** Executions with the application's calls *)

Inductive call :=
| Protocol (a : action)
| CloseAllSessions
| NicknameUpdate (nickname : jsstring)
| DirectMessage (peerId content : jsstring)
| ClearHistory (roomId : jsval).

Definition perform_call (c : call) : M unit :=
  match c with
  | Protocol a => perform a
  | CloseAllSessions => closeAllSessions
  | NicknameUpdate nickname => P2PChatApp.broadcastNicknameUpdate nickname
  | DirectMessage peerId content => P2PChatApp.sendDirectMessage peerId content
  | ClearHistory roomId => ChatHistory.clearHistory roomId
  end.

Definition exec_calls (trace : list call) (w : world) : world :=
  fold_left (fun w c => run (perform_call c) w) trace w.

(** ** Vocabulary of the further properties *)

(** Every entry of the registry refers to an active session of its
    peer, and no peer has two entries. *)
Definition registry_live (w : world) : Prop :=
  NoDup (JsMap.keys (sessions w)) /\
  forall p r, (p, r) ∈ sessions w ->
    exists s, session_heap w !! r = Some s /\ peerId s = p /\ isActive s = true.

(** No stored history is longer than the limit. *)
Definition histories_bounded (w : world) : Prop :=
  forall key messages, localStorage w !! key = Some messages ->
    length messages <= ChatHistoryStorage.MAX_MESSAGES_PER_ROOM.


Definition peer_nickname (peer : jsstring) (nickname : jsval) : jsstring * jsval :=
  (js "peer:nickname", VObj [(js "peerId", VStr peer); (js "nickname", nickname)]).


(** The error of a refused write, as [Storage.set] rethrows it. *)
Definition failed_to_store (roomId : jsval) (failure : jsstring) : exn :=
  Error (js "Failed to store " ++ (js "history-" ++ ToString roomId) ++ js ": " ++ failure).

(** The platform of the examples with a storage that is full. *)
Definition full : Platform := {|
  node_peerId := node_peerId demo;
  Date_now := Date_now demo;
  Math_random_toString36 := Math_random_toString36 demo;
  dialProtocol := dialProtocol demo;
  getConnections := getConnections demo;
  setItem := fun _ _ => Some (js "QuotaExceededError");
  Error_stack := Error_stack demo;
  sink_error := sink_error demo
|}.

(** The sequence number a message carries. *)
Definition seq_of (message : jsval) : jsval :=
  match message with
  | VObj props => props_get props (js "seq")
  | _ => VUndefined
  end.

(** The error [openStream] throws when its dial, the platform call
    [t], failed with [message]: the one of the dial when the node has a
    connection to the peer. *)
Definition dial_error (p : Platform) (t : nat) (peer message : jsstring) : exn :=
  if (getConnections p (S (S t)) peer =? 0)%nat
  then Error (js "Not connected to peer " ++ peer ++ js ". Use /connect first.")
  else Error message.

(** The lines [openStream] then writes with [console.error]: the one of
    the retry, if it was the retry that failed; the peer, the message
    and the stack of the error; and one more when the node has no
    connection to the peer. *)
Definition retry_failed (message : jsstring) : log_line :=
  Log Err (js "[ChatProtocol] " ++ [0xD83D%N; 0xDCDE%N] ++ js " Retry failed:")
      [VStr message].

Definition open_failed (p : Platform) (t : nat) (peer message : jsstring) : list log_line :=
  [ Log Err (js "[ChatProtocol] " ++ [0x274C%N] ++ js " Failed to open stream to")
        [VStr peer];
    Log Err (js "[ChatProtocol] " ++ [0x274C%N] ++ js " Error:") [VStr message];
    Log Err (js "[ChatProtocol] " ++ [0x274C%N] ++ js " Error stack:")
        [Error_stack p (S t)] ]
  ++ (if (getConnections p (S (S t)) peer =? 0)%nat
      then [Log Err (js "[ChatProtocol] " ++ [0x274C%N]
                     ++ js " No active connection to peer - cannot establish chat stream")
                [] ]
      else []).

Definition dial_failed (retried : bool) (message : jsstring) : dial_outcome :=
  if retried then RetryFailed message else DialFailed message.

Definition dial_lines (p : Platform) (t : nat) (peer message : jsstring) (retried : bool)
  : list log_line :=
  (if retried then [retry_failed message] else []) ++ open_failed p t peer message.


(** A platform on which no dial succeeds and the node has no
    connection. *)
Definition offline : Platform := {|
  node_peerId := node_peerId demo;
  Date_now := Date_now demo;
  Math_random_toString36 := Math_random_toString36 demo;
  dialProtocol := fun _ _ => RetryFailed (js "protocol not supported");
  getConnections := fun _ _ => 0%nat;
  setItem := setItem demo;
  Error_stack := fun _ => VStr (js "Error: protocol not supported");
  sink_error := sink_error demo
|}.

(** The room ids whose text [ToString] gives as the program prints it:
    a string, [undefined], [null], a boolean, and a number that is a
    safe integer. *)
Definition plain_id (v : jsval) : Prop :=
  match v with
  | VNum n => (Z.abs n < 2 ^ 53)%Z
  | VArr _ | VObj _ => False
  | _ => True
  end.

(** An execution with the application's calls in which no [openStream]
    is overtaken, as [not_overtaken]. *)
Fixpoint calls_not_overtaken (trace : list call) (w : world) : Prop :=
  match trace with
  | [] => True
  | c :: rest =>
      match c with
      | Protocol (DialSettled n) =>
          forall peer, suspended w !! n = Some peer ->
                       JsMap.has (sessions w) peer = false
      | _ => True
      end /\ calls_not_overtaken rest (run (perform_call c) w)
  end.

(** The frames of a session on its stream: those written to the sink,
    followed by those the queued chunks will make. *)
Definition wire (st : Stream) (s : ChatSession) : list bytes :=
  sink st ++ (lp.frame <$> queue (outbound s)).

(** The frame of this node's Hello. *)
Definition hello_frame (p : Platform) : bytes :=
  lp.frame (payload (ChatSession.handshake (node_peerId p))).

(** Every session has a stream of its own, and the frames of an active
    session start with the Hello and are as many as its counter says. *)
Definition wire_ok (p : Platform) (w : world) : Prop :=
  platform w = p
  /\ (forall r s, session_heap w !! r = Some s -> stream s < length (stream_heap w))
  /\ (forall r1 r2 s1 s2,
        session_heap w !! r1 = Some s1 -> session_heap w !! r2 = Some s2 ->
        stream s1 = stream s2 -> r1 = r2)
  /\ (forall r s st,
        session_heap w !! r = Some s -> isActive s = true ->
        stream_heap w !! stream s = Some st ->
        head (wire st s) = Some (hello_frame p)
        /\ seq s = Z.of_nat (length (wire st s))).

(** * Further properties *)

(** ** Invariants of the executions with the application's calls *)

Section calls.

Context (I : world -> Prop).

Hypothesis I_frame : forall w w',
  session_heap w' = session_heap w -> sessions w' = sessions w -> I w -> I w'.

Hypothesis I_alter : forall (f : ChatSession -> ChatSession) (this : nat) (w : world),
  (forall s, peerId (f s) = peerId s /\ isActive (f s) = isActive s) ->
  I w -> I (with_session_heap (alter f this) w).

Hypothesis I_close : forall this, preserves I (ChatProtocol.session_close this).

Hypothesis I_incoming : forall stream peer,
  preserves I (ChatProtocol.handleIncomingStream stream peer).

Hypothesis I_openStream : forall peer, preserves I (ChatProtocol.openStream peer).

Lemma kept_closeAllSessions : preserves I closeAllSessions.
Proof.
  unfold closeAllSessions.
  apply preserves_bind; [apply preserves_gets|]. intros registry.
  apply preserves_bind; [|intros _; apply preserves_ret].
  apply preserves_for_each. intros entry.
  apply preserves_bind; [apply preserves_gets|]. intros current.
  destruct (JsMap.has current entry.1); [apply I_close|apply preserves_ret].
Qed.

Lemma kept_broadcastNicknameUpdate (nickname : jsstring) :
  preserves I (P2PChatApp.broadcastNicknameUpdate nickname).
Proof.
  unfold P2PChatApp.broadcastNicknameUpdate.
  apply preserves_bind; [apply (kept_frame I I_frame); auto|]. intros entries.
  apply preserves_bind; [|intros _; apply preserves_ret].
  apply preserves_for_each. intros entry.
  apply preserves_try_catch.
  - apply preserves_bind; [apply preserves_gets|]. intros sender.
    apply (kept_send I I_frame I_alter).
  - intros error. apply (kept_console_error I I_frame).
Qed.

Lemma kept_sendDirectMessage (peer content : jsstring) :
  preserves I (P2PChatApp.sendDirectMessage peer content).
Proof.
  unfold P2PChatApp.sendDirectMessage.
  apply preserves_try_catch; [|intros error; apply (kept_console_error I I_frame)].
  apply preserves_bind; [apply I_openStream|]. intros session.
  apply preserves_bind; [apply preserves_gets|]. intros ourPeerId.
  apply preserves_bind; [|intros _; apply preserves_ret].
  unfold ChatProtocol.sendMessage.
  apply preserves_bind; [apply (kept_sendMessage_send I I_frame I_alter I_openStream)|].
  intros message. apply (kept_sendMessage_record I I_frame).
Qed.

Lemma kept_clearHistory (roomId : jsval) : preserves I (ChatHistory.clearHistory roomId).
Proof. apply (kept_frame I I_frame). auto. Qed.

(** Every call but the settling of a dial. *)
Lemma kept_perform_call (c : call) :
  (forall n, c <> Protocol (DialSettled n)) -> preserves I (perform_call c).
Proof.
  intros Hnot. destruct c as [a| |nickname|peer content|roomId]; cbn [perform_call].
  - apply (kept_perform I I_frame I_alter I_close I_incoming I_openStream).
    intros n ->. exact (Hnot n eq_refl).
  - apply kept_closeAllSessions.
  - apply kept_broadcastNicknameUpdate.
  - apply kept_sendDirectMessage.
  - apply kept_clearHistory.
Qed.

End calls.

(** ** The registry holds active sessions only *)

Lemma registry_live_ok (w : world) : registry_live w -> registry_ok w.
Proof.
  intros [Hnd Hreg]. split; [exact Hnd|]. intros p r Hin.
  destruct (Hreg p r Hin) as (s & Hs & Hp & _). eauto.
Qed.

Lemma registry_live_frame (w w' : world) :
  session_heap w' = session_heap w -> sessions w' = sessions w ->
  registry_live w -> registry_live w'.
Proof. unfold registry_live. intros -> ->. auto. Qed.

Lemma registry_live_alter (f : ChatSession -> ChatSession) (this : nat) (w : world) :
  (forall s, peerId (f s) = peerId s /\ isActive (f s) = isActive s) ->
  registry_live w -> registry_live (with_session_heap (alter f this) w).
Proof.
  intros Hf [Hnd Hreg]. split; [exact Hnd|]. cbn. intros p r Hin.
  destruct (Hreg p r Hin) as (s & Hs & Hp & Hact).
  destruct (decide (this = r)) as [->|Hne].
  - exists (f s). rewrite list_lookup_alter_eq, Hs. destruct (Hf s) as [-> ->]. auto.
  - exists s. rewrite list_lookup_alter_ne by exact Hne. auto.
Qed.

Lemma registry_live_close (this : nat) :
  preserves registry_live (ChatProtocol.session_close this).
Proof.
  intros w [Hnd Hreg]. destruct (session_heap w !! this) as [s|] eqn:Hs.
  - destruct (isActive s) eqn:Hact.
    + rewrite (session_close_active w this s Hs Hact). split; cbn.
      * apply JsMap_delete_NoDup, Hnd.
      * intros p r Hin. apply list_elem_of_filter in Hin as [Hp Hin]. cbn in Hp.
        destruct (Hreg p r Hin) as (s' & Hs' & Hp' & Hact').
        exists s'. split; [|auto].
        rewrite list_lookup_alter_ne; [exact Hs'|].
        intros ->. rewrite Hs in Hs'. injection Hs' as <-. auto.
    + rewrite (session_close_inactive w this s Hs Hact). split; assumption.
  - unfold ChatProtocol.session_close, ChatSession.close, ChatSession.deref, bind.
    rewrite Hs. split; assumption.
Qed.

Lemma registry_live_registered (peer : jsstring) (s : ChatSession) (w : world) :
  peerId s = peer -> isActive s = true ->
  registry_live w ->
  registry_live
    (with_sessions (fun m => JsMap.set m peer (length (session_heap w)))
       (with_session_heap (fun h => h ++ [s]) w)).
Proof.
  intros Hp Hact [Hnd Hreg]. split; cbn.
  - apply JsMap_set_NoDup, Hnd.
  - intros p r Hin. apply JsMap_set_elem in Hin as [[-> ->]|Hin].
    + exists s. split; [apply list_lookup_middle; reflexivity|auto].
    + destruct (Hreg p r Hin) as (s' & Hs' & Hp' & Hact').
      exists s'. split; [apply lookup_app_l_Some, Hs'|auto].
Qed.

Lemma registry_live_incoming (stream : nat) (peer : jsstring) :
  preserves registry_live (ChatProtocol.handleIncomingStream stream peer).
Proof.
  intros w Hw. destruct (JsMap.has (sessions w) peer) eqn:Hhas.
  - rewrite (handleIncomingStream_duplicate w stream peer Hhas).
    eapply registry_live_frame; [| |exact Hw]; reflexivity.
  - rewrite (handleIncomingStream_new w stream peer Hhas). cbn [snd].
    eapply registry_live_frame;
      [| |apply (registry_live_registered peer
                   (opened_session stream peer (node_peerId (platform w))) w
                   eq_refl eq_refl Hw)];
      reflexivity.
Qed.

Lemma registry_live_openStream_dial (peer : jsstring) :
  preserves registry_live (ChatProtocol.openStream_dial peer).
Proof.
  intros w Hw. destruct (dialed_or_not (dialProtocol (platform w) (ticks w) peer)) as [Hdial|Hdial].
  - rewrite (openStream_dial_dialed w peer Hdial). cbn [snd].
    eapply registry_live_frame;
      [| |apply (registry_live_registered peer
                   (opened_session (length (stream_heap w)) peer (node_peerId (platform w)))
                   w eq_refl eq_refl Hw)];
      reflexivity.
  - destruct (openStream_dial_failed w peer Hdial) as (e & lines & ->).
    eapply registry_live_frame; [| |exact Hw]; reflexivity.
Qed.

Lemma registry_live_openStream (peer : jsstring) :
  preserves registry_live (ChatProtocol.openStream peer).
Proof.
  intros w Hw. destruct (JsMap.get (sessions w) peer) as [session|] eqn:Hget.
  - rewrite (openStream_registered w peer session Hget). exact Hw.
  - rewrite (openStream_unregistered w peer Hget).
    apply registry_live_openStream_dial, Hw.
Qed.

Lemma dial_call_or_not (c : call) :
  (exists n, c = Protocol (DialSettled n)) \/ (forall n, c <> Protocol (DialSettled n)).
Proof.
  destruct c as [a| | | | ]; try (right; discriminate).
  destruct (dial_settled_or_not a) as [[n ->]|Hnot]; [left; eauto|].
  right. intros n [= ->]. exact (Hnot n eq_refl).
Qed.

Lemma registry_live_perform_call (c : call) : preserves registry_live (perform_call c).
Proof.
  intros w Hw. destruct (dial_call_or_not c) as [[n ->]|Hnot].
  - apply (kept_dial_settled registry_live registry_live_frame); [|exact Hw].
    intros peer _ w1 _ _. apply registry_live_openStream_dial.
  - apply (kept_perform_call registry_live registry_live_frame registry_live_alter
             registry_live_close registry_live_incoming registry_live_openStream c Hnot w Hw).
Qed.

Lemma registry_live_initial (p : Platform) : registry_live (initial p).
Proof. split; [constructor|]. intros q r Hin. inversion Hin. Qed.

Lemma registry_live_exec_calls (trace : list call) (w : world) :
  registry_live w -> registry_live (exec_calls trace w).
Proof.
  revert w. induction trace as [|c trace IH]; intros w Hw; [exact Hw|].
  cbn. apply IH. apply registry_live_perform_call, Hw.
Qed.

Lemma active_entries_live (w : world) : registry_live w -> active_entries w = sessions w.
Proof.
  intros [_ Hreg]. unfold active_entries.
  induction (sessions w) as [|[p r] l IH]; [reflexivity|].
  rewrite filter_cons. destruct (Hreg p r) as (s & Hs & _ & Hact); [left|].
  cbn [snd]. rewrite Hs. cbn. rewrite Hact.
  rewrite decide_True by reflexivity. f_equal. apply IH.
  intros q r' Hin. apply Hreg. right. exact Hin.
Qed.

(** X1. In every execution of the protocol and of the application's
    calls, whatever the platform answers and however dials and inbound
    streams interleave, the registry has one entry per peer and every
    entry refers to an active session of that peer: a closed session is
    never left registered.  [getActiveSessions] therefore returns the
    whole registry. *)
Theorem registry_holds_active_sessions_only (p : Platform) (trace : list call) :
  let w := exec_calls trace (initial p) in
  registry_live w
  /\ ChatProtocol.getActiveSessions w = (Normal (sessions w), w).
Proof.
  cbv zeta.
  pose proof (registry_live_exec_calls trace (initial p) (registry_live_initial p)) as Hw.
  split; [exact Hw|].
  rewrite getActiveSessions_active_entries, (active_entries_live _ Hw). reflexivity.
Qed.

(** ** [closeAllSessions] *)

Lemma filter_all {A} (P : A -> Prop) `{forall x, Decision (P x)} (l : list A) :
  Forall P l -> filter P l = l.
Proof.
  induction 1 as [|x l Hx Hl IH]; [reflexivity|].
  rewrite filter_cons_True by exact Hx. now rewrite IH.
Qed.

Lemma closeAllSessions_loop (entries : list (jsstring * nat)) :
  forall w,
    sessions w = entries -> registry_live w ->
    exists results w',
      for_each entries
        (fun entry : jsstring * nat =>
           let* current := gets sessions in
           if JsMap.has current entry.1 then ChatProtocol.session_close entry.2
           else ret tt) w = (Normal results, w')
      /\ sessions w' = []
      /\ emitted w' = emitted w ++ (disconnected <$> JsMap.keys entries)
      /\ (forall p r s, (p, r) ∈ entries -> session_heap w !! r = Some s ->
            session_heap w' !! r = Some (closed_session s))
      /\ (forall r, r ∉ entries.*2 -> session_heap w' !! r = session_heap w !! r)
      /\ stream_heap w' = stream_heap w /\ localStorage w' = localStorage w
      /\ console w' = console w.
Proof.
  induction entries as [|[p r] entries IH]; intros w Hentries Hw.
  - exists [], w. cbn. rewrite app_nil_r. repeat split; auto.
    intros q r s Hin. inversion Hin.
  - pose proof Hw as [Hnd Hreg]. rewrite Hentries in Hnd, Hreg.
    destruct (Hreg p r) as (s & Hs & Hp & Hact); [left|].
    cbn in Hnd. apply NoDup_cons in Hnd as [Hfresh Hnd].
    assert (JsMap.delete (sessions w) p = entries) as Hdel.
    { rewrite Hentries. unfold JsMap.delete. rewrite filter_cons.
      rewrite decide_False by (cbn; auto).
      apply filter_all. apply Forall_forall. intros [q r'] Hin. cbn.
      intros ->. apply Hfresh. apply list_elem_of_fmap. exists (p, r'). auto. }
    pose proof (session_close_active w r s Hs Hact) as Hclose.
    rewrite Hp, Hdel in Hclose.
    match type of Hclose with _ = (_, ?w1') => set (w1 := w1') in * end.
    assert (registry_live w1) as Hw1.
    { pose proof (registry_live_close r w Hw) as H. unfold ChatProtocol.session_close in *.
      rewrite Hclose in H. exact H. }
    destruct (IH w1 eq_refl Hw1) as (results & w' & Hloop & Hreg' & Hem & Hclosed & Hother
                                      & Hst & Hls & Hco).
    exists (tt :: results), w'. split; [|split; [|split; [|split; [|split]]]].
    + cbn [for_each]. eapply bind_normal.
      * eapply bind_normal; [reflexivity|]. cbn [fst snd].
        replace (JsMap.has (sessions w) p) with true; [exact Hclose|].
        symmetry. apply bool_decide_eq_true. rewrite Hentries. unfold JsMap.get. cbn.
        rewrite bool_decide_eq_true_2 by reflexivity. eauto.
      * eapply bind_normal; [exact Hloop|reflexivity].
    + exact Hreg'.
    + rewrite Hem. unfold w1. cbn. rewrite <- app_assoc. reflexivity.
    + intros q r' s' Hin Hs'. apply elem_of_cons in Hin as [[= -> ->]|Hin].
      * rewrite Hs in Hs'. injection Hs' as <-.
        rewrite Hother.
        -- unfold w1. cbn. rewrite list_lookup_alter_eq, Hs. reflexivity.
        -- intros Hin. apply list_elem_of_fmap in Hin as [[q r'] [Heq Hin]].
           cbn in Heq. subst r'.
           destruct (Hreg q r) as (s' & Hs' & Hq & _); [right; exact Hin|].
           rewrite Hs in Hs'. injection Hs' as <-.
           apply Hfresh. apply list_elem_of_fmap. exists (q, r). split; [|exact Hin].
           cbn. congruence.
      * apply (Hclosed q r' s' Hin). unfold w1. cbn.
        rewrite list_lookup_alter_ne; [exact Hs'|].
        intros <-. destruct (Hreg q r) as (s'' & Hs'' & Hq & _); [right; exact Hin|].
        rewrite Hs in Hs''. injection Hs'' as <-.
        apply Hfresh. apply list_elem_of_fmap. exists (q, r). split; [|exact Hin].
        cbn. congruence.
    + intros r' Hnot. rewrite Hother.
      * unfold w1. cbn. apply list_lookup_alter_ne. intros <-. apply Hnot. cbn. left.
      * intros Hin. apply Hnot. cbn. right. exact Hin.
    + rewrite Hst, Hls, Hco. auto.
Qed.

(** X2. [closeAllSessions], on a registry of active sessions (which
    every reachable registry is), closes every registered session,
    empties the registry and emits one [chat:disconnected] per peer, in
    the order of the registry; sessions that are not registered, the
    streams and the stored histories are left as they are.  Deleting
    from the registry while the loop runs over it skips no session. *)
Theorem closeAllSessions_closes_every_session (w : world) :
  registry_live w ->
  let w' := run closeAllSessions w in
  (closeAllSessions w).1 = Normal tt
  /\ sessions w' = []
  /\ emitted w' = emitted w ++ (disconnected <$> JsMap.keys (sessions w))
  /\ (forall p r s, (p, r) ∈ sessions w -> session_heap w !! r = Some s ->
        session_heap w' !! r = Some (closed_session s))
  /\ (forall r, r ∉ (sessions w).*2 -> session_heap w' !! r = session_heap w !! r)
  /\ stream_heap w' = stream_heap w /\ localStorage w' = localStorage w.
Proof.
  intros Hw.
  destruct (closeAllSessions_loop (sessions w) w eq_refl Hw)
    as (results & w1 & Hloop & Hreg & Hem & Hclosed & Hother & Hst & Hls & _).
  assert (closeAllSessions w = (Normal tt, w1)) as Hrun.
  { unfold closeAllSessions. eapply bind_normal; [reflexivity|].
    eapply bind_normal; [exact Hloop|reflexivity]. }
  cbv zeta. unfold run. rewrite Hrun. cbn [fst snd]. auto 10.
Qed.

Lemma closeAllSessions_closes_every_session_witness :
  let w := exec_calls [Protocol (InboundStream (js "QmA")); Protocol (OpenStream (js "QmB"));
                       Protocol (DialSettled 0); Protocol (InboundStream (js "QmC"));
                       Protocol (SessionClose 1)] (initial demo) in
  let w' := run closeAllSessions w in
  registry_live w
  /\ sessions w = [(js "QmA", 0%nat); (js "QmC", 2%nat)]
  /\ sessions w' = []
  /\ emitted w' = emitted w ++ [disconnected (js "QmA"); disconnected (js "QmC")].
Proof.
  intros w.
  assert (registry_live w) as Hlive
    by apply registry_live_exec_calls, registry_live_initial.
  assert (sessions w = [(js "QmA", 0%nat); (js "QmC", 2%nat)]) as Hs
    by (vm_compute; reflexivity).
  destruct (closeAllSessions_closes_every_session w Hlive) as (_ & Hreg & Hem & _).
  rewrite Hs in Hem. cbv zeta. auto.
Defined.

(** ** Received frames *)

Lemma addMessage_accepted (w : world) (roomId message : jsval) :
  setItem (platform w) (S (ticks w)) (history_key (ToString roomId)) = None ->
  ChatHistoryStorage.addMessage roomId message w =
    (Normal tt,
     World (platform w) (session_heap w) (stream_heap w) (sessions w)
       (<[history_key (ToString roomId) :=
            ChatHistoryStorage.stored
              (ChatHistoryStorage.limit
                 (history w (ToString roomId) ++
                    [stored_entry message (Date_now (platform w) (ticks w))]))]>
          (localStorage w))
       (emitted w) (console w) (S (S (ticks w))) (suspended w)).
Proof.
  intros Hok. unfold ChatHistoryStorage.addMessage.
  eapply bind_normal; [reflexivity|].
  eapply bind_normal; [reflexivity|].
  unfold ChatHistoryStorage.set.
  eapply bind_normal; [reflexivity|].
  cbn [platform ticks with_ticks].
  change (ChatHistoryStorage._getKey (js "history-" ++ ToString roomId))
    with (history_key (ToString roomId)).
  rewrite Hok. reflexivity.
Qed.

Lemma addMessage_refused (w : world) (roomId message : jsval) (failure : jsstring) :
  setItem (platform w) (S (ticks w)) (history_key (ToString roomId)) = Some failure ->
  ChatHistoryStorage.addMessage roomId message w =
    (Throw (failed_to_store roomId failure),
     World (platform w) (session_heap w) (stream_heap w) (sessions w) (localStorage w)
       (emitted w) (console w ++ [Log Err (js "Storage set error:") [VStr failure]])
       (S (S (ticks w))) (suspended w)).
Proof.
  intros Hfail. unfold ChatHistoryStorage.addMessage.
  eapply bind_normal; [reflexivity|].
  eapply bind_normal; [reflexivity|].
  unfold ChatHistoryStorage.set.
  eapply bind_normal; [reflexivity|].
  cbn [platform ticks with_ticks].
  change (ChatHistoryStorage._getKey (js "history-" ++ ToString roomId))
    with (history_key (ToString roomId)).
  rewrite Hfail. reflexivity.
Qed.

Lemma inbound_data_registered (w : world) (this : nat) (s : ChatSession)
  (parsed : option jsval) :
  session_heap w !! this = Some s ->
  ChatProtocol.session_inbound_data this parsed w =
    try_catch
      (match parsed with
       | None => throw (SyntaxError (js "Unexpected token"))
       | Some message => ChatProtocol.handleMessage message (peerId s)
       end)
      (fun error => console_error (js "Message parse error:") [exn_value error]) w.
Proof.
  intros Hs. unfold ChatProtocol.session_inbound_data, ChatSession.inbound_data.
  eapply bind_normal; [apply deref_some, Hs|reflexivity].
Qed.

(** X3. Handling a received frame, whatever it holds (a text that is not
    JSON, [null], a message of any type, known or not), changes no
    session and no registry entry: nothing is queued for sending in
    reply, no session is closed or opened.  On a session that exists it
    completes without an exception. *)
Theorem received_frame_changes_no_session (w : world) (this : nat)
  (parsed : option jsval) :
  let result := ChatProtocol.session_inbound_data this parsed w in
  session_heap result.2 = session_heap w
  /\ sessions result.2 = sessions w
  /\ (result.1 = Normal tt \/ session_heap w !! this = None).
Proof.
  cbv zeta.
  pose (I := fun w' : world => session_heap w' = session_heap w /\ sessions w' = sessions w).
  assert (forall w1 w2, session_heap w2 = session_heap w1 -> sessions w2 = sessions w1 ->
                        I w1 -> I w2) as I_frame.
  { intros w1 w2 Hh Hs [H1 H2]. split; congruence. }
  destruct (kept_inbound_data I I_frame this parsed w (conj eq_refl eq_refl)) as [Hh Hs].
  split; [exact Hh|]. split; [exact Hs|].
  destruct (session_heap w !! this) as [s|] eqn:Hthis; [left|right; reflexivity].
  rewrite (inbound_data_registered w this s parsed Hthis). unfold try_catch.
  destruct parsed as [message|]; [|reflexivity].
  destruct (ChatProtocol.handleMessage message (peerId s) w) as [[[]|e] w1]; reflexivity.
Qed.

Lemma handleMessage_room_message (w : world) (props : list (jsstring * jsval))
  (peer : jsstring) :
  props_get props (js "type") = VStr (js "m.room.message") ->
  ChatProtocol.handleMessage (VObj props) peer w =
    ChatProtocol.handle_room_message (VObj props) peer w.
Proof.
  intros Htype. unfold ChatProtocol.handleMessage.
  eapply bind_normal; [reflexivity|]. rewrite Htype. reflexivity.
Qed.



(** X5. When the storage refuses the write for a received chat message,
    the message is not announced: no [message:received] is emitted and
    the history stays as it was.  The failure is logged twice, by the
    storage and by the inbound loop as a "Message parse error:", and
    the session goes on.  The [room_id] is a string, missing, [null], a
    boolean or a safe integer ([plain_id]). *)
Theorem received_room_message_lost_when_storage_refuses (w : world) (this : nat)
  (s : ChatSession) (props : list (jsstring * jsval)) (failure : jsstring) :
  session_heap w !! this = Some s ->
  props_get props (js "type") = VStr (js "m.room.message") ->
  let roomId := props_get props (js "room_id") in
  plain_id roomId ->
  setItem (platform w) (S (ticks w)) (history_key (ToString roomId)) = Some failure ->
  let w' := run (ChatProtocol.session_inbound_data this (Some (VObj props))) w in
  (ChatProtocol.session_inbound_data this (Some (VObj props)) w).1 = Normal tt
  /\ emitted w' = emitted w
  /\ localStorage w' = localStorage w
  /\ console w'
     = console w ++ [Log Err (js "Storage set error:") [VStr failure];
                     Log Err (js "Message parse error:")
                       [exn_value (failed_to_store roomId failure)]]
  /\ session_heap w' = session_heap w /\ sessions w' = sessions w.
Proof.
  intros Hs Htype roomId _ Hfail.
  assert (ChatProtocol.session_inbound_data this (Some (VObj props)) w =
            (Normal tt,
             World (platform w) (session_heap w) (stream_heap w) (sessions w)
               (localStorage w) (emitted w)
               ((console w ++ [Log Err (js "Storage set error:") [VStr failure]])
                  ++ [Log Err (js "Message parse error:")
                        [exn_value (failed_to_store roomId failure)]])
               (S (S (ticks w))) (suspended w))) as Hrun.
  { rewrite (inbound_data_registered w this s _ Hs).
    erewrite try_catch_throw; cycle 1.
    { rewrite (handleMessage_room_message w props _ Htype).
      unfold ChatProtocol.handle_room_message.
      eapply bind_normal; [reflexivity|].
      apply bind_throw. apply (addMessage_refused w _ _ failure Hfail). }
    reflexivity. }
  cbv zeta. unfold run. rewrite Hrun. cbn [fst snd emitted localStorage console
                                           session_heap sessions].
  rewrite <- app_assoc. auto 10.
Qed.

Lemma received_room_message_lost_when_storage_refuses_witness :
  let w := exec [InboundStream (js "QmPeer")] (initial full) in
  let message := ChatProtocol.chat_message (js "QmPeer") (js "room") 1700000000000 1
                   (js "1700000000000_abcdefg") (js "hi") in
  let w' := run (ChatProtocol.session_inbound_data 0 (Some message)) w in
  emitted w' = emitted w /\ localStorage w' = localStorage w
  /\ (isActive <$> session_heap w' !! 0%nat) = Some true.
Proof.
  intros w message.
  destruct (received_room_message_lost_when_storage_refuses w 0
              (opened_session 0 (js "QmPeer") (js "QmSelf"))
              [ (js "type", VStr (js "m.room.message"));
                (js "sender", VStr (js "QmPeer"));
                (js "room_id", VStr (js "room"));
                (js "origin_ts", VNum 1700000000000);
                (js "seq", VNum 1);
                (js "event_id", VStr (js "1700000000000_abcdefg"));
                (js "content",
                 VObj [(js "msgtype", VStr (js "m.text")); (js "body", VStr (js "hi"))]) ]
              (js "QuotaExceededError")
              eq_refl eq_refl I eq_refl) as (_ & Hem & Hls & _ & Hheap & _).
  cbv zeta. split; [exact Hem|]. split; [exact Hls|].
  unfold message, ChatProtocol.chat_message. rewrite Hheap. reflexivity.
Defined.

Lemma inbound_data_nickname (w : world) (this : nat) (s : ChatSession)
  (props : list (jsstring * jsval)) :
  session_heap w !! this = Some s ->
  props_get props (js "type") = VStr (js "m.nickname") ->
  ChatProtocol.session_inbound_data this (Some (VObj props)) w =
    (Normal tt,
     with_emitted
       (fun e => e ++ [peer_nickname (peerId s) (props_get props (js "nickname"))]) w).
Proof.
  intros Hs Htype.
  rewrite (inbound_data_registered w this s _ Hs). apply try_catch_normal.
  unfold ChatProtocol.handleMessage.
  eapply bind_normal; [reflexivity|]. rewrite Htype. reflexivity.
Qed.




(** ** Sending *)

Lemma sendMessage_registered (w : world) (p : jsstring) (r : nat) (s : ChatSession)
  (content roomId : jsstring) :
  JsMap.get (sessions w) p = Some r ->
  session_heap w !! r = Some s -> isActive s = true ->
  setItem (platform w) (S (S (S (S (ticks w))))) (history_key roomId) = None ->
  let m := message_at (platform w) (ticks w) content roomId s in
  ChatProtocol.sendMessage p content roomId w =
    (Normal m,
     World (platform w) (alter (pushed (payload m)) r (session_heap w)) (stream_heap w)
       (sessions w)
       (<[history_key roomId :=
            ChatHistoryStorage.stored
              (ChatHistoryStorage.limit
                 (history w roomId ++
                    [stored_entry m (Date_now (platform w) (S (S (S (ticks w)))))]))]>
          (localStorage w))
       (emitted w ++ [message_sent m]) (console w) (S (S (S (S (S (ticks w))))))
       (suspended w)).
Proof.
  intros Hget Hs Hact Hok m. unfold ChatProtocol.sendMessage.
  eapply bind_normal; [apply (sendMessage_send_registered w p r s _ _ Hget Hs Hact)|].
  fold m. rewrite sendMessage_record_stored; [reflexivity|exact Hok].
Qed.

Lemma seq_of_message_at (p : Platform) (t : nat) (content roomId : jsstring)
  (s : ChatSession) :
  seq_of (message_at p t content roomId s) = VNum (seq s).
Proof. reflexivity. Qed.

(** X7. The sequence number of a chat message is the number of
    messages the session has sent before it, of any kind: two messages
    sent one after the other to a peer carry consecutive numbers, and
    the Hello that opens a session takes number 0 without carrying
    it. *)
Theorem consecutive_messages_carry_consecutive_seq (w : world) (p : jsstring) (r : nat)
  (s : ChatSession) (content1 content2 roomId1 roomId2 : jsstring) :
  JsMap.get (sessions w) p = Some r ->
  session_heap w !! r = Some s -> isActive s = true ->
  (forall n key, setItem (platform w) n key = None) ->
  exists m1 m2 w1 w2,
    ChatProtocol.sendMessage p content1 roomId1 w = (Normal m1, w1)
    /\ ChatProtocol.sendMessage p content2 roomId2 w1 = (Normal m2, w2)
    /\ seq_of m1 = VNum (seq s) /\ seq_of m2 = VNum (seq s + 1)
    /\ (seq <$> session_heap w2 !! r) = Some (seq s + 2)%Z.
Proof.
  intros Hget Hs Hact Hok.
  pose proof (sendMessage_registered w p r s content1 roomId1 Hget Hs Hact (Hok _ _)) as H1.
  cbv zeta in H1.
  match type of H1 with _ = (Normal ?m, ?w') => set (m1 := m) in *; set (w1 := w') in * end.
  assert (session_heap w1 !! r = Some (pushed (payload m1) s)) as Hs1.
  { unfold w1. cbn. rewrite list_lookup_alter_eq, Hs. reflexivity. }
  pose proof (sendMessage_registered w1 p r _ content2 roomId2 Hget Hs1 Hact (Hok _ _)) as H2.
  cbv zeta in H2.
  match type of H2 with _ = (Normal ?m, ?w') => set (m2 := m) in *; set (w2 := w') in * end.
  exists m1, m2, w1, w2. split; [exact H1|]. split; [exact H2|].
  split; [reflexivity|]. split; [reflexivity|].
  unfold w2. cbn [session_heap]. rewrite list_lookup_alter_eq, Hs1. cbn. f_equal. lia.
Qed.

Lemma consecutive_messages_carry_consecutive_seq_witness :
  let w := exec [InboundStream (js "QmPeer")] (initial demo) in
  exists m1 m2 w1 w2,
    ChatProtocol.sendMessage (js "QmPeer") (js "one") (js "room") w = (Normal m1, w1)
    /\ ChatProtocol.sendMessage (js "QmPeer") (js "two") (js "room") w1 = (Normal m2, w2)
    /\ seq_of m1 = VNum 1 /\ seq_of m2 = VNum 2.
Proof.
  intros w.
  destruct (consecutive_messages_carry_consecutive_seq w (js "QmPeer") 0
              (opened_session 0 (js "QmPeer") (js "QmSelf"))
              (js "one") (js "two") (js "room") (js "room")
              eq_refl eq_refl eq_refl (fun _ _ => eq_refl))
    as (m1 & m2 & w1 & w2 & H1 & H2 & Hseq1 & Hseq2 & _).
  exists m1, m2, w1, w2. auto.
Defined.

(** X8. [sendMessage] hands the message to the session before it
    stores it: when the storage refuses the write, the message is
    already queued for the peer and the session's counter has advanced,
    while the caller gets the storage's error, no [message:sent] is
    emitted and the history stays as it was. *)
Theorem sendMessage_queues_before_it_stores (w : world) (p : jsstring) (r : nat)
  (s : ChatSession) (content roomId failure : jsstring) :
  JsMap.get (sessions w) p = Some r ->
  session_heap w !! r = Some s -> isActive s = true ->
  setItem (platform w) (S (S (S (S (ticks w))))) (history_key roomId) = Some failure ->
  let m := message_at (platform w) (ticks w) content roomId s in
  let w' := run (ChatProtocol.sendMessage p content roomId) w in
  (ChatProtocol.sendMessage p content roomId w).1
    = Throw (failed_to_store (VStr roomId) failure)
  /\ session_heap w' !! r = Some (pushed (payload m) s)
  /\ emitted w' = emitted w
  /\ localStorage w' = localStorage w.
Proof.
  intros Hget Hs Hact Hfail m.
  assert (ChatProtocol.sendMessage p content roomId w =
            (Throw (failed_to_store (VStr roomId) failure),
             World (platform w) (alter (pushed (payload m)) r (session_heap w))
               (stream_heap w) (sessions w) (localStorage w) (emitted w)
               (console w ++ [Log Err (js "Storage set error:") [VStr failure]])
               (S (S (S (S (S (ticks w)))))) (suspended w))) as Hrun.
  { unfold ChatProtocol.sendMessage.
    eapply bind_normal; [apply (sendMessage_send_registered w p r s _ _ Hget Hs Hact)|].
    fold m. unfold ChatProtocol.sendMessage_record.
    apply bind_throw.
    match goal with
    | |- ChatHistoryStorage.addMessage _ _ ?w1 = _ =>
        rewrite (addMessage_refused w1 (VStr roomId) m failure Hfail)
    end.
    reflexivity. }
  cbv zeta. unfold run. rewrite Hrun. cbn.
  rewrite list_lookup_alter_eq, Hs. auto.
Qed.

Lemma sendMessage_queues_before_it_stores_witness :
  let w := exec [InboundStream (js "QmPeer")] (initial full) in
  let w' := run (ChatProtocol.sendMessage (js "QmPeer") (js "hi") (js "room")) w in
  (length ∘ queue ∘ outbound <$> session_heap w) = [1%nat]
  /\ (length ∘ queue ∘ outbound <$> session_heap w') = [2%nat]
  /\ emitted w' = emitted w /\ history w' (js "room") = [].
Proof.
  intros w.
  destruct (sendMessage_queues_before_it_stores w (js "QmPeer") 0
              (opened_session 0 (js "QmPeer") (js "QmSelf"))
              (js "hi") (js "room") (js "QuotaExceededError")
              eq_refl eq_refl eq_refl eq_refl) as (_ & _ & Hem & Hls).
  cbv zeta. split; [reflexivity|]. split; [vm_compute; reflexivity|].
  split; [exact Hem|]. unfold history. rewrite Hls. reflexivity.
Defined.

(** ** Dialing *)

Lemma openStream_dial_fails (w : world) (peer message : jsstring) (retried : bool) :
  dialProtocol (platform w) (ticks w) peer = dial_failed retried message ->
  ChatProtocol.openStream_dial peer w =
    (Throw (dial_error (platform w) (ticks w) peer message),
     with_console (fun c => c ++ dial_lines (platform w) (ticks w) peer message retried)
       (with_ticks (fun t => S (S (S t))) w)).
Proof.
  destruct w as [p sh st ss ls em co ti su]. intros Hdial.
  unfold ChatProtocol.openStream_dial, try_catch, bind, ask, throw, console_error, modify.
  lazy beta iota zeta delta [fst snd platform ticks with_ticks with_console console
    session_heap stream_heap sessions localStorage emitted suspended] in Hdial |- *.
  rewrite Hdial. unfold dial_lines, open_failed, dial_error, retry_failed.
  destruct retried; cbn [dial_failed];
    lazy beta iota zeta delta [fst snd platform ticks with_ticks with_console console
      session_heap stream_heap sessions localStorage emitted suspended exn_message];
    destruct (getConnections p (S (S ti)) peer =? 0)%nat;
    lazy beta iota zeta delta [fst snd platform ticks with_ticks with_console console
      session_heap stream_heap sessions localStorage emitted suspended];
    rewrite <- ?app_assoc; reflexivity.
Qed.

(** X9. When the dial for a peer without a session fails, [openStream]
    and [sendMessage] throw and leave everything but the console and
    the platform's call count as it was: no session is created, the
    peer stays unregistered (a later call dials again), nothing is
    sent, stored or emitted.  The error is the dial's own when the node
    has a connection to the peer; without one it is replaced by "Not
    connected to peer ... Use /connect first.".  The failure is written
    to the console with [console.error]: the peer, the message and the
    stack of the error, after a line for the retry if it was the retry
    that failed, and before one more line if the node has no
    connection. *)
Theorem failed_dial_leaves_peer_unregistered (w : world)
  (peer message content roomId : jsstring) (retried : bool) :
  JsMap.get (sessions w) peer = None ->
  dialProtocol (platform w) (ticks w) peer = dial_failed retried message ->
  let error := dial_error (platform w) (ticks w) peer message in
  let lines := dial_lines (platform w) (ticks w) peer message retried in
  let w' := World (platform w) (session_heap w) (stream_heap w) (sessions w) (localStorage w)
              (emitted w) (console w ++ lines) (S (S (S (ticks w)))) (suspended w) in
  ChatProtocol.openStream peer w = (Throw error, w')
  /\ ChatProtocol.sendMessage peer content roomId w = (Throw error, w')
  /\ 3 <= length lines <= 5.
Proof.
  intros Hnone Hdial error lines w'.
  assert (ChatProtocol.openStream peer w = (Throw error, w')) as Hopen.
  { rewrite (openStream_unregistered w peer Hnone).
    apply (openStream_dial_fails w peer message retried Hdial). }
  split; [exact Hopen|]. split.
  - unfold ChatProtocol.sendMessage. apply bind_throw.
    unfold ChatProtocol.sendMessage_send.
    eapply bind_normal; [reflexivity|]. cbn beta. rewrite Hnone.
    apply bind_throw. exact Hopen.
  - unfold lines, dial_lines, open_failed. rewrite !length_app.
    destruct retried; destruct (_ =? 0)%nat; cbn [length]; lia.
Qed.

Lemma failed_dial_leaves_peer_unregistered_witness :
  let w := initial offline in
  ChatProtocol.sendMessage (js "QmPeer") (js "hi") (js "room") w
  = (Throw (dial_error (platform w) (ticks w) (js "QmPeer") (js "protocol not supported")),
     World (platform w) (session_heap w) (stream_heap w) (sessions w) (localStorage w)
       (emitted w)
       (console w
        ++ dial_lines (platform w) (ticks w) (js "QmPeer") (js "protocol not supported") true)
       (S (S (S (ticks w)))) (suspended w))
  /\ dial_error (platform w) (ticks w) (js "QmPeer") (js "protocol not supported")
     = Error (js "Not connected to peer QmPeer. Use /connect first.")
  /\ length (dial_lines (platform w) (ticks w) (js "QmPeer") (js "protocol not supported")
               true) = 5.
Proof.
  intros w.
  destruct (failed_dial_leaves_peer_unregistered w (js "QmPeer")
              (js "protocol not supported") (js "hi") (js "room") true eq_refl eq_refl)
    as (_ & Hsend & _).
  split; [exact Hsend|]. split; vm_compute; reflexivity.
Defined.

(** X10. [sendMessage] to a peer without a session, when the dial
    succeeds: a session is created over the new stream and registered,
    the Hello and then the message are queued on it, in this order, the
    message carrying sequence number 1; [chat:connected] and then
    [message:sent] are emitted and the message is stored in the room's
    history. *)
Theorem sendMessage_opens_a_session_first (w : world) (peer content roomId : jsstring) :
  JsMap.get (sessions w) peer = None ->
  dialProtocol (platform w) (ticks w) peer = Dialed ->
  setItem (platform w) (S (S (S (S (S (ticks w)))))) (history_key roomId) = None ->
  let opened := opened_session (length (stream_heap w)) peer (node_peerId (platform w)) in
  let m := message_at (platform w) (S (ticks w)) content roomId opened in
  let w' := run (ChatProtocol.sendMessage peer content roomId) w in
  (ChatProtocol.sendMessage peer content roomId w).1 = Normal m
  /\ seq_of m = VNum 1
  /\ session_heap w'
     = session_heap w ++
         [Session (length (stream_heap w)) peer
            (Pushable [payload (ChatSession.handshake (node_peerId (platform w)));
                       payload m] false) true 2]
  /\ sessions w' = JsMap.set (sessions w) peer (length (session_heap w))
  /\ emitted w' = emitted w ++ [connected peer; message_sent m]
  /\ history w' roomId
     = ChatHistoryStorage.stored
         (ChatHistoryStorage.limit
            (history w roomId ++
               [stored_entry m (Date_now (platform w) (S (S (S (S (ticks w))))))])).
Proof.
  intros Hnone Hdial Hok opened m.
  pose proof (openStream_dial_dialed w peer Hdial) as Hopen.
  match type of Hopen with _ = (_, ?w1') => set (w1 := w1') in * end.
  assert (ChatProtocol.sendMessage_send peer content roomId w =
            (Normal m,
             with_session_heap (alter (pushed (payload m)) (length (session_heap w)))
               (with_ticks (fun t => S (S (S t))) w1))) as Hsend.
  { unfold ChatProtocol.sendMessage_send.
    eapply bind_normal; [reflexivity|]. cbn beta. rewrite Hnone.
    eapply bind_normal; [rewrite (openStream_unregistered w peer Hnone); exact Hopen|].
    eapply bind_normal; [reflexivity|].
    eapply bind_normal; [reflexivity|].
    eapply bind_normal; [apply (deref_some _ _ opened); apply list_lookup_middle; reflexivity|].
    eapply bind_normal; [reflexivity|].
    eapply bind_normal.
    { unfold ChatProtocol.chat_message. eapply (send_object _ _ opened).
      - cbn. apply list_lookup_middle. reflexivity.
      - reflexivity. }
    reflexivity. }
  assert (ChatProtocol.sendMessage peer content roomId w =
            (Normal m,
             World (platform w) (session_heap w ++ [pushed (payload m) opened])
               (stream_heap w ++ [MkStream [] false false])
               (JsMap.set (sessions w) peer (length (session_heap w)))
               (<[history_key roomId :=
                    ChatHistoryStorage.stored
                      (ChatHistoryStorage.limit
                         (history w roomId ++
                            [stored_entry m
                               (Date_now (platform w) (S (S (S (S (ticks w))))))]))]>
                  (localStorage w))
               ((emitted w ++ [connected peer]) ++ [message_sent m]) (console w)
               (S (S (S (S (S (S (ticks w))))))) (suspended w))) as Hrun.
  { unfold ChatProtocol.sendMessage.
    eapply bind_normal; [exact Hsend|].
    rewrite sendMessage_record_stored; [|exact Hok].
    unfold w1. cbn. rewrite alter_snoc. reflexivity. }
  cbv zeta. unfold run. rewrite Hrun. cbn [fst snd session_heap sessions emitted].
  split; [reflexivity|]. split; [reflexivity|]. split; [reflexivity|].
  split; [reflexivity|]. split; [rewrite <- app_assoc; reflexivity|].
  unfold history at 1. cbn [localStorage]. rewrite lookup_insert_eq. reflexivity.
Qed.

Lemma sendMessage_opens_a_session_first_witness :
  let w := initial demo in
  let w' := run (ChatProtocol.sendMessage (js "QmPeer") (js "hi") (js "room")) w in
  sessions w' = [(js "QmPeer", 0%nat)]
  /\ (length ∘ queue ∘ outbound <$> session_heap w') = [2%nat]
  /\ (fst <$> emitted w') = [js "chat:connected"; js "message:sent"].
Proof.
  intros w.
  destruct (sendMessage_opens_a_session_first w (js "QmPeer") (js "hi") (js "room")
              eq_refl eq_refl eq_refl) as (_ & _ & Hheap & Hreg & Hem & _).
  cbv zeta. rewrite Hheap, Hreg, Hem. auto.
Defined.

(** ** The application's calls *)

Lemma nickname_loop (nickname : jsstring) (entries : list (jsstring * nat)) :
  forall w,
    NoDup entries.*2 ->
    (forall e, e ∈ entries ->
       exists s, session_heap w !! e.2 = Some s /\ isActive s = true) ->
    exists results w',
      for_each entries
        (fun entry : jsstring * nat =>
           try_catch
             (let* sender := ChatProtocol.self in
              ChatSession.send entry.2 (P2PChatApp.nickname_update sender nickname))
             (fun error =>
                console_error (js "Failed to send nickname update:") [exn_value error]))
        w = (Normal results, w')
      /\ platform w' = platform w /\ stream_heap w' = stream_heap w
      /\ sessions w' = sessions w /\ localStorage w' = localStorage w
      /\ emitted w' = emitted w /\ console w' = console w
      /\ (forall e s, e ∈ entries -> session_heap w !! e.2 = Some s ->
            session_heap w' !! e.2
            = Some (pushed (payload (P2PChatApp.nickname_update
                                       (node_peerId (platform w)) nickname)) s))
      /\ (forall r, r ∉ entries.*2 -> session_heap w' !! r = session_heap w !! r).
Proof.
  induction entries as [|[p r] rest IH]; intros w Hnd Hlive.
  - exists [], w. repeat split; auto. intros e s He. inversion He.
  - rewrite fmap_cons in Hnd. apply NoDup_cons in Hnd as [Hr Hnd]. cbn in Hr.
    destruct (Hlive (p, r)) as (s & Hs & Hact); [left|]. cbn in Hs.
    set (update := P2PChatApp.nickname_update (node_peerId (platform w)) nickname).
    set (w1 := with_session_heap (alter (pushed (payload update)) r) w).
    assert (try_catch
              (let* sender := ChatProtocol.self in
               ChatSession.send r (P2PChatApp.nickname_update sender nickname))
              (fun error =>
                 console_error (js "Failed to send nickname update:") [exn_value error])
              w = (Normal tt, w1)) as Hbody.
    { apply try_catch_normal. eapply bind_normal; [reflexivity|].
      apply (send_object w r s _ Hs Hact). }
    destruct (IH w1 Hnd) as (results & w' & Hloop & Hpl & Hst & Hreg & Hls & Hem & Hco
                              & Hsent & Hother).
    { intros e He. destruct (Hlive e) as (s' & Hs' & Hact'); [right; exact He|].
      exists s'. split; [|exact Hact']. unfold w1. cbn.
      rewrite list_lookup_alter_ne; [exact Hs'|].
      intros ->. apply Hr. apply list_elem_of_fmap. exists e. auto. }
    exists (tt :: results), w'.
    split; [|split; [|split; [|split; [|split; [|split; [|split; [|split]]]]]]];
      try (etransitivity; [eassumption|reflexivity]).
    + cbn [for_each]. eapply bind_normal; [exact Hbody|].
      eapply bind_normal; [exact Hloop|reflexivity].
    + intros e s' He Hs'. apply elem_of_cons in He as [->|He].
      * cbn [snd] in *. rewrite Hother by exact Hr. unfold w1. cbn.
        rewrite list_lookup_alter_eq, Hs'. reflexivity.
      * apply (Hsent e s' He). unfold w1. cbn.
        rewrite list_lookup_alter_ne; [exact Hs'|].
        intros ->. apply Hr. apply list_elem_of_fmap. exists e. auto.
    + intros r' Hnot. rewrite Hother.
      * unfold w1. cbn. apply list_lookup_alter_ne. intros <-. apply Hnot. left.
      * intros Hin. apply Hnot. right. exact Hin.
Qed.

Lemma active_entries_elem (w : world) (p : jsstring) (r : nat) :
  (p, r) ∈ active_entries w <->
  (p, r) ∈ sessions w /\ exists s, session_heap w !! r = Some s /\ isActive s = true.
Proof.
  unfold active_entries. rewrite list_elem_of_filter. cbn [snd].
  split; intros [H1 H2].
  - split; [exact H2|].
    destruct (session_heap w !! r) as [s|]; [|discriminate]. cbn in H1.
    exists s. split; [reflexivity|congruence].
  - split; [|exact H1]. destruct H2 as (s & -> & Hact). cbn. now rewrite Hact.
Qed.

Lemma active_entries_refs_NoDup (w : world) : registry_ok w -> NoDup (active_entries w).*2.
Proof.
  intros Hok. pose proof (registry_refs_NoDup w Hok) as Hnd.
  unfold active_entries. induction (sessions w) as [|e l IH]; [constructor|].
  rewrite fmap_cons in Hnd. apply NoDup_cons in Hnd as [He Hnd].
  rewrite filter_cons. case_decide; [|auto].
  rewrite fmap_cons. apply NoDup_cons. split; [|auto].
  intros Hin. apply He. apply list_elem_of_fmap in Hin as [e' [-> Hin]].
  apply list_elem_of_filter in Hin as [_ Hin]. apply list_elem_of_fmap. eauto.
Qed.

(** X11. [broadcastNicknameUpdate] queues one nickname update, with
    this node as sender, on every registered session that is active and
    on no other; it logs no failure, emits nothing, and changes neither
    the registry nor the storage.  The peer that parses the update
    announces the nickname under the identifier of the session it
    arrived on. *)
Theorem nickname_update_reaches_every_active_session (w : world) (nickname : jsstring) :
  registry_ok w ->
  let update := P2PChatApp.nickname_update (node_peerId (platform w)) nickname in
  let w' := run (P2PChatApp.broadcastNicknameUpdate nickname) w in
  (P2PChatApp.broadcastNicknameUpdate nickname w).1 = Normal tt
  /\ (forall p r s,
        (p, r) ∈ sessions w -> session_heap w !! r = Some s -> isActive s = true ->
        session_heap w' !! r = Some (pushed (payload update) s))
  /\ (forall r s,
        session_heap w !! r = Some s ->
        r ∉ (sessions w).*2 \/ isActive s = false ->
        session_heap w' !! r = Some s)
  /\ sessions w' = sessions w /\ emitted w' = emitted w
  /\ console w' = console w /\ localStorage w' = localStorage w
  /\ (forall remote this s,
        session_heap remote !! this = Some s ->
        ChatProtocol.session_inbound_data this (Some (json_roundtrip update)) remote =
          (Normal tt,
           with_emitted (fun e => e ++ [peer_nickname (peerId s) (VStr nickname)]) remote)).
Proof.
  intros Hok update.
  destruct (nickname_loop nickname (active_entries w) w (active_entries_refs_NoDup w Hok))
    as (results & w1 & Hloop & _ & _ & Hreg & Hls & Hem & Hco & Hsent & Hother).
  { intros [p r] He. apply active_entries_elem in He as [_ He]. exact He. }
  assert (P2PChatApp.broadcastNicknameUpdate nickname w = (Normal tt, w1)) as Hrun.
  { unfold P2PChatApp.broadcastNicknameUpdate.
    eapply bind_normal; [apply getActiveSessions_active_entries|].
    eapply bind_normal; [exact Hloop|reflexivity]. }
  cbv zeta. unfold run. rewrite Hrun. cbn [fst snd].
  split; [reflexivity|]. split; [|split; [|split; [|split; [|split; [|split]]]]];
    try assumption.
  - intros p r s Hin Hs Hact. apply (Hsent (p, r) s); [|exact Hs].
    apply active_entries_elem. eauto.
  - intros r s Hs Hnot. rewrite Hother; [exact Hs|].
    intros Hin. apply list_elem_of_fmap in Hin as [[p r'] [-> Hin]].
    apply active_entries_elem in Hin as [Hin (s' & Hs' & Hact)]. cbn [snd] in *.
    destruct Hnot as [Hnot|Hnot].
    + apply Hnot. apply list_elem_of_fmap. exists (p, r'). auto.
    + congruence.
  - intros remote this s Hs.
    exact (inbound_data_nickname remote this s
             [ (js "type", VStr (js "m.nickname"));
               (js "sender", VStr (node_peerId (platform w)));
               (js "nickname", VStr nickname) ] Hs eq_refl).
Qed.

Lemma nickname_update_reaches_every_active_session_witness :
  let w := exec [InboundStream (js "QmA"); InboundStream (js "QmB"); SessionClose 0]
             (initial demo) in
  let w' := run (P2PChatApp.broadcastNicknameUpdate (js "alice")) w in
  registry_ok w
  /\ (length ∘ queue ∘ outbound <$> session_heap w) = [1; 1]%nat
  /\ (length ∘ queue ∘ outbound <$> session_heap w') = [1; 2]%nat
  /\ console w' = console w.
Proof.
  intros w.
  assert (registry_ok w) as Hok by apply registry_ok_exec, registry_ok_initial.
  destruct (nickname_update_reaches_every_active_session w (js "alice") Hok)
    as (_ & _ & _ & _ & _ & Hco & _).
  cbv zeta. split; [exact Hok|]. split; [reflexivity|].
  split; [vm_compute; reflexivity|exact Hco].
Defined.



(** ** Sessions and their streams *)

Lemma sessions_ok_exec_calls (trace : list call) (w : world) :
  calls_not_overtaken trace w -> sessions_ok w -> sessions_ok (exec_calls trace w).
Proof.
  revert w. induction trace as [|c trace IH]; intros w Hfree Hw; [exact Hw|].
  destruct Hfree as [Hc Hfree]. cbn [exec_calls fold_left]. apply (IH _ Hfree). unfold run.
  destruct (dial_call_or_not c) as [[n ->]|Hnot].
  - apply (kept_dial_settled sessions_ok sessions_ok_frame); [|exact Hw].
    intros peer Hcall w1 Hh Hs Hw1. apply sessions_ok_openStream_dial; [|exact Hw1].
    rewrite Hs. apply JsMap_has_get, Hc, Hcall.
  - apply (kept_perform_call sessions_ok sessions_ok_frame sessions_ok_alter
             sessions_ok_close sessions_ok_incoming sessions_ok_openStream c Hnot w Hw).
Qed.

(** X13. In an execution in which no [openStream] is overtaken while
    it waits for its dial (no session is registered for its peer in the
    meantime), the registry is exactly the set of active sessions: a
    session is active if and only if it is the registered session of its
    peer, and no peer has two active sessions. *)
Theorem registry_is_the_active_sessions_without_races (p : Platform) (trace : list call) :
  calls_not_overtaken trace (initial p) ->
  let w := exec_calls trace (initial p) in
  one_live_session_per_peer w
  /\ (forall r s, session_heap w !! r = Some s ->
        (isActive s = true <-> (peerId s, r) ∈ sessions w)).
Proof.
  intros Hfree w.
  pose proof (sessions_ok_exec_calls trace (initial p) Hfree (sessions_ok_initial p)) as Hok.
  pose proof (registry_live_exec_calls trace (initial p) (registry_live_initial p)) as Hlive.
  fold w in Hok, Hlive. split; [exact (sessions_ok_one_live _ Hok)|].
  intros r s Hs. split.
  - intros Hact. exact (proj2 Hok r s Hs Hact).
  - intros Hin. destruct (proj2 Hlive _ _ Hin) as (s' & Hs' & _ & Hact). congruence.
Qed.

Lemma registry_is_the_active_sessions_without_races_witness :
  let trace := [Protocol (OpenStream (js "QmA")); Protocol (DialSettled 0);
                Protocol (InboundStream (js "QmA")); DirectMessage (js "QmB") (js "hi");
                Protocol (SessionClose 0); DirectMessage (js "QmA") (js "again")] in
  let w := exec_calls trace (initial demo) in
  calls_not_overtaken trace (initial demo)
  /\ one_live_session_per_peer w
  /\ sessions w = [(js "QmB", 1%nat); (js "QmA", 2%nat)]
  /\ (isActive <$> session_heap w) = [false; true; true].
Proof.
  intros trace w.
  assert (calls_not_overtaken trace (initial demo)) as Hfree.
  { cbn [calls_not_overtaken trace]. split; [exact I|]. split.
    - intros peer Hpeer. vm_compute in Hpeer. injection Hpeer as <-. reflexivity.
    - repeat split. }
  destruct (registry_is_the_active_sessions_without_races demo trace Hfree) as [Hone _].
  split; [exact Hfree|]. split; [exact Hone|]. split; vm_compute; reflexivity.
Defined.

Lemma inbound_end_closes (w : world) (this : nat) (s : ChatSession) (error : option exn) :
  session_heap w !! this = Some s -> isActive s = true ->
  exists lines,
    ChatProtocol.session_inbound_end this error w =
      (Normal tt,
       World (platform w) (alter closed_session this (session_heap w)) (stream_heap w)
         (JsMap.delete (sessions w) (peerId s)) (localStorage w)
         (emitted w ++ [disconnected (peerId s)]) (console w ++ lines) (ticks w)
         (suspended w)).
Proof.
  intros Hs Hact. unfold ChatProtocol.session_inbound_end, ChatSession.inbound_end.
  destruct error as [e|].
  - eexists [_]. eapply bind_normal; [reflexivity|].
    pose proof (session_close_active
                  (with_console
                     (fun c => c ++ [Log Err (js "Stream handling error:") [exn_value e]]) w)
                  this s Hs Hact) as Hclose.
    exact Hclose.
  - exists []. eapply bind_normal; [reflexivity|]. rewrite app_nil_r.
    exact (session_close_active w this s Hs Hact).
Qed.

Lemma outbound_pipe_breaks (w : world) (this : nat) (s : ChatSession) (chunk : bytes)
  (rest : list bytes) (st : Stream) :
  session_heap w !! this = Some s -> isActive s = true ->
  queue (outbound s) = chunk :: rest ->
  stream_heap w !! stream s = Some st -> broken st = true ->
  exists err,
    ChatProtocol.session_outbound_pipe this w =
      (Normal tt,
       World (platform w)
         (alter (fun s => closed_session (ChatSession.set_queue [] s)) this (session_heap w))
         (stream_heap w) (JsMap.delete (sessions w) (peerId s)) (localStorage w)
         (emitted w ++ [disconnected (peerId s)])
         (console w ++ [Log Err (js "Outbound pipe error:") [exn_value err]])
         (ticks w) (suspended w)).
Proof.
  intros Hs Hact Hq Hst Hbroken.
  destruct (outbound_pipe_fails w this s chunk rest st Hs Hact Hq Hst (or_intror Hbroken))
    as (err & _ & Hrun).
  exists err. exact Hrun.
Qed.

Lemma inactive_session_emits_nothing (w : world) (this : nat) (s : ChatSession)
  (a : action) :
  session_heap w !! this = Some s -> isActive s = false ->
  (exists error, a = InboundEnd this error) \/ a = OutboundPipe this \/ a = SessionClose this ->
  emitted (step w a) = emitted w /\ sessions (step w a) = sessions w.
Proof.
  intros Hs Hact [[error ->]|[->| ->]]; unfold step, run; cbn [perform].
  - unfold ChatProtocol.session_inbound_end, ChatSession.inbound_end.
    destruct error as [e|].
    + erewrite bind_normal; [|reflexivity|].
      2:{ apply (session_close_inactive _ this s); [exact Hs|exact Hact]. }
      split; reflexivity.
    + erewrite bind_normal; [|reflexivity|].
      2:{ apply (session_close_inactive _ this s); [exact Hs|exact Hact]. }
      split; reflexivity.
  - unfold ChatProtocol.session_outbound_pipe, ChatSession.outbound_pipe.
    erewrite bind_normal; [|apply deref_some, Hs|reflexivity].
    destruct (queue (outbound s)) as [|chunk rest]; [split; reflexivity|].
    destruct (stream_heap w !! stream s) as [st|] eqn:Hst.
    2:{ erewrite bind_throw; [split; reflexivity|].
        unfold stream_deref. rewrite Hst. reflexivity. }
    erewrite bind_normal; [|unfold stream_deref; rewrite Hst; reflexivity|reflexivity].
    assert (Hfailed : forall err w0,
               session_heap w0 = session_heap w -> sessions w0 = sessions w ->
               emitted w0 = emitted w ->
               let w1 := (ChatSession.outbound_failed ChatProtocol.handleSessionClose
                            this err w0).2 in
               emitted w1 = emitted w /\ sessions w1 = sessions w).
    { intros err w0 Hheap Hsessions Hemitted. cbv zeta.
      unfold ChatSession.outbound_failed.
      erewrite bind_normal; [|reflexivity|].
      2:{ eapply bind_normal; [reflexivity|].
          apply (session_close_inactive _ this (ChatSession.set_queue [] s)); [|exact Hact].
          cbn. rewrite Hheap, list_lookup_alter_eq, Hs. reflexivity. }
      split; cbn; assumption. }
    destruct (lp.encode chunk) as [frame|err]; [|now apply Hfailed].
    destruct (broken st); [|split; reflexivity].
    erewrite bind_normal; [|reflexivity|reflexivity]. now apply Hfailed.
  - rewrite (session_close_inactive w this s Hs Hact). split; reflexivity.
Qed.

(** X14. A failure of a session's stream closes the session, once.
    When the inbound side ends, with an error or without, and when a
    write of a queued frame fails, the session becomes inactive, its
    registry entry is removed and one [chat:disconnected] is emitted;
    a failed write also drops what was queued.  Once the session is
    inactive, the end of the other side, a later write or [close] emits
    nothing more and leaves the registry alone. *)
Theorem stream_failure_closes_the_session_once (w : world) (this : nat) (s : ChatSession) :
  session_heap w !! this = Some s -> isActive s = true ->
  (forall error,
     let w1 := step w (InboundEnd this error) in
     session_heap w1 !! this = Some (closed_session s)
     /\ sessions w1 = JsMap.delete (sessions w) (peerId s)
     /\ emitted w1 = emitted w ++ [disconnected (peerId s)])
  /\ (forall chunk rest st,
     queue (outbound s) = chunk :: rest ->
     stream_heap w !! stream s = Some st -> broken st = true ->
     let w1 := step w (OutboundPipe this) in
     session_heap w1 !! this = Some (closed_session (ChatSession.set_queue [] s))
     /\ stream_heap w1 = stream_heap w
     /\ sessions w1 = JsMap.delete (sessions w) (peerId s)
     /\ emitted w1 = emitted w ++ [disconnected (peerId s)])
  /\ (forall w1 s1 a,
     session_heap w1 !! this = Some s1 -> isActive s1 = false ->
     (exists error, a = InboundEnd this error) \/ a = OutboundPipe this
       \/ a = SessionClose this ->
     emitted (step w1 a) = emitted w1 /\ sessions (step w1 a) = sessions w1).
Proof.
  intros Hs Hact. split; [|split].
  - intros error. cbv zeta. unfold step, run. cbn [perform].
    destruct (inbound_end_closes w this s error Hs Hact) as [lines ->]. cbn.
    rewrite list_lookup_alter_eq, Hs. auto.
  - intros chunk rest st Hq Hst Hbroken. cbv zeta. unfold step, run. cbn [perform].
    destruct (outbound_pipe_breaks w this s chunk rest st Hs Hact Hq Hst Hbroken)
      as (err & ->). cbn.
    rewrite list_lookup_alter_eq, Hs. auto.
  - intros w1 s1 a. apply inactive_session_emits_nothing.
Qed.

Lemma stream_failure_closes_the_session_once_witness :
  let w := exec [InboundStream (js "QmPeer"); SinkBreaks 0] (initial demo) in
  let w' := exec [OutboundPipe 0; InboundEnd 0 (Some (Error (js "stream reset")));
                  SessionClose 0] w in
  emitted w = [connected (js "QmPeer")]
  /\ emitted (step w (OutboundPipe 0)) = [connected (js "QmPeer"); disconnected (js "QmPeer")]
  /\ emitted w' = [connected (js "QmPeer"); disconnected (js "QmPeer")]
  /\ sessions w' = [].
Proof.
  intros w.
  destruct (stream_failure_closes_the_session_once w 0
              (opened_session 0 (js "QmPeer") (js "QmSelf")) eq_refl eq_refl)
    as (_ & Hpipe & _).
  destruct (Hpipe (payload (ChatSession.handshake (js "QmSelf"))) []
              (MkStream [] true false) eq_refl eq_refl eq_refl) as (_ & _ & _ & Hem).
  cbv zeta. split; [reflexivity|]. split; [exact Hem|].
  split; vm_compute; reflexivity.
Defined.

(** X15. [close] does not discard what is queued: the frames of the
    chunks that were queued when an active session is closed are still
    written to its stream, in their order, by the outbound pipe, as long
    as the stream takes them and no chunk is above the 4 MiB that
    [lp.encode] accepts. *)
Theorem close_keeps_the_queued_frames (w : world) (this : nat) (s : ChatSession)
  (st : Stream) :
  session_heap w !! this = Some s -> isActive s = true ->
  stream_heap w !! stream s = Some st -> broken st = false ->
  Forall fits (queue (outbound s)) ->
  let w1 := step w (SessionClose this) in
  let w2 := exec (replicate (length (queue (outbound s))) (OutboundPipe this)) w1 in
  (isActive <$> session_heap w2 !! this) = Some false
  /\ (sink <$> stream_heap w2 !! stream s)
     = Some (sink st ++ (framed <$> queue (outbound s))).
Proof.
  intros Hs Hact Hst Hok Hfits. cbv zeta. unfold step at 1 2, run. cbn [perform].
  rewrite (session_close_active w this s Hs Hact). cbn [snd].
  match goal with |- context [exec _ ?w1'] => set (w1 := w1') end.
  assert (session_heap w1 !! this = Some (closed_session s)) as Hs1.
  { unfold w1. cbn. rewrite list_lookup_alter_eq, Hs. reflexivity. }
  destruct (outbound_pipe_drains (queue (outbound s)) w1 this (closed_session s) st
              Hs1 eq_refl Hst Hok Hfits) as (Hsink & Hheap & _).
  cbv zeta in Hsink, Hheap. change (stream (closed_session s)) with (stream s) in Hsink.
  rewrite Hsink, Hheap, (fmap_frame_framed _ Hfits). split; reflexivity.
Qed.

Lemma close_keeps_the_queued_frames_witness :
  let w := exec [InboundStream (js "QmPeer")] (initial demo) in
  let s := opened_session 0 (js "QmPeer") (js "QmSelf") in
  let w1 := step w (SessionClose 0) in
  let w2 := exec (replicate (length (queue (outbound s))) (OutboundPipe 0)) w1 in
  session_heap w !! 0%nat = Some s
  /\ (isActive <$> session_heap w2 !! 0%nat) = Some false
  /\ (sink <$> stream_heap w2 !! stream s)
     = Some ([] ++ (framed <$> [payload (ChatSession.handshake (js "QmSelf"))])).
Proof.
  intros w s.
  destruct (close_keeps_the_queued_frames w 0 s (MkStream [] false false)
              eq_refl eq_refl eq_refl eq_refl) as [Hact Hsink].
  - constructor; [unfold fits; vm_compute; discriminate|constructor].
  - split; [reflexivity|]. split; [exact Hact|exact Hsink].
Defined.

(** ** The stored histories *)

Lemma stored_length (messages : list jsval) :
  length (ChatHistoryStorage.stored messages) = length messages.
Proof. unfold ChatHistoryStorage.stored. cbn [json_roundtrip]. apply length_map. Qed.

Lemma bounded_leaf {A} (m : M A) :
  (forall w, localStorage (m w).2 = localStorage w) -> preserves histories_bounded m.
Proof. intros Hm w Hw key messages. rewrite Hm. apply Hw. Qed.

Lemma bounded_addMessage (roomId message : jsval) :
  preserves histories_bounded (ChatHistoryStorage.addMessage roomId message).
Proof.
  intros w Hw.
  destruct (setItem (platform w) (S (ticks w)) (history_key (ToString roomId)))
    as [failure|] eqn:Hset.
  - rewrite (addMessage_refused w roomId message failure Hset). exact Hw.
  - rewrite (addMessage_accepted w roomId message Hset).
    intros key messages. cbn [snd localStorage].
    destruct (decide (key = history_key (ToString roomId))) as [->|Hne].
    + rewrite lookup_insert_eq. intros [= <-]. rewrite stored_length, limit_length. lia.
    + rewrite lookup_insert_ne by congruence. apply Hw.
Qed.

Lemma bounded_delete (key : jsstring) :
  preserves histories_bounded (Storage.removeItem key).
Proof.
  intros w Hw k messages Hk. cbn in Hk. apply lookup_delete_Some in Hk as [_ Hk].
  exact (Hw k messages Hk).
Qed.

Lemma bounded_deref (this : nat) : preserves histories_bounded (ChatSession.deref this).
Proof.
  apply bounded_leaf. intros w. unfold ChatSession.deref. destruct (_ !! _); reflexivity.
Qed.

Lemma bounded_stream_deref (r : nat) : preserves histories_bounded (stream_deref r).
Proof.
  apply bounded_leaf. intros w. unfold stream_deref. destruct (_ !! _); reflexivity.
Qed.

Create HintDb bounded.

#[local] Hint Resolve bounded_addMessage bounded_delete bounded_deref bounded_stream_deref
  : bounded.

(** The pieces of the program leave the storage alone or write it
    through [addMessage]; [bounded] follows the structure of a piece
    down to those. *)
Ltac bounded_step :=
  first
    [ apply preserves_ret | apply preserves_throw | apply preserves_gets
    | solve [auto 1 with bounded]
    | apply preserves_bind; [|intros ?]
    | apply preserves_try_catch; [|intros ?]
    | apply preserves_for_each; intros ?
    | apply preserves_settle
    | apply bounded_leaf; intros ?; reflexivity
    | match goal with
      | |- preserves _ (match ?x with _ => _ end) => destruct x
      end ].

Ltac bounded := repeat bounded_step.

Lemma bounded_send (this : nat) (message : jsval) :
  preserves histories_bounded (ChatSession.send this message).
Proof. unfold ChatSession.send, ChatSession.update, console_error. bounded. Qed.

Lemma bounded_close (this : nat) :
  preserves histories_bounded (ChatProtocol.session_close this).
Proof.
  unfold ChatProtocol.session_close, ChatSession.close, ChatSession.update,
    ChatProtocol.handleSessionClose, ChatProtocol.emit.
  bounded.
Qed.

#[local] Hint Resolve bounded_send bounded_close : bounded.

Lemma bounded_handleMessage (message : jsval) (peer : jsstring) :
  preserves histories_bounded (ChatProtocol.handleMessage message peer).
Proof.
  unfold ChatProtocol.handleMessage.
  apply preserves_bind; [unfold get_prop; bounded|]. intros type.
  destruct (ChatProtocol.messageHandlers_get type) as [handler|] eqn:Hh;
    [|unfold console_warn; bounded].
  destruct type as [| | | |name| |]; try discriminate Hh.
  change (JsMap.get ChatProtocol.registerMessageHandlers name = Some handler) in Hh.
  apply JsMap_get_Some_elem in Hh. unfold ChatProtocol.registerMessageHandlers in Hh.
  repeat (apply elem_of_cons in Hh as [Hh|Hh]; [inversion Hh; subst handler; clear Hh|]);
    [| | | |inversion Hh].
  - unfold ChatProtocol.handle_hello, ChatProtocol.emit, get_prop. bounded.
  - unfold ChatProtocol.handle_room_message, ChatProtocol.emit, get_prop. bounded.
  - unfold ChatProtocol.handle_typing, ChatProtocol.emit, get_prop. bounded.
  - unfold ChatProtocol.handle_nickname, ChatProtocol.emit, get_prop. bounded.
Qed.

Lemma bounded_openStream_dial (peer : jsstring) :
  preserves histories_bounded (ChatProtocol.openStream_dial peer).
Proof.
  unfold ChatProtocol.openStream_dial, new_stream, ChatSession.new, ChatProtocol.self,
    ChatSession.sendHandshake, ChatProtocol.emit, ask.
  bounded.
Qed.

#[local] Hint Resolve bounded_handleMessage bounded_openStream_dial : bounded.

Lemma bounded_openStream (peer : jsstring) :
  preserves histories_bounded (ChatProtocol.openStream peer).
Proof. unfold ChatProtocol.openStream, ChatProtocol.openStream_existing. bounded. Qed.

#[local] Hint Resolve bounded_openStream : bounded.

Lemma bounded_sendMessage (peer content roomId : jsstring) :
  preserves histories_bounded (ChatProtocol.sendMessage peer content roomId).
Proof.
  unfold ChatProtocol.sendMessage, ChatProtocol.sendMessage_send,
    ChatProtocol.sendMessage_record, ChatProtocol.self, ChatProtocol.generateEventId,
    ChatProtocol.emit, ask.
  bounded.
Qed.

#[local] Hint Resolve bounded_sendMessage : bounded.

Lemma bounded_perform (a : action) : preserves histories_bounded (perform a).
Proof.
  destruct a; cbn [perform];
    unfold new_stream, ChatProtocol.handleIncomingStream, ChatProtocol.openStream_existing,
      ChatProtocol.broadcast, ChatProtocol.broadcast_call, ChatProtocol.broadcast_resume,
      ChatProtocol.sendMessage_send, ChatProtocol.sendMessage_record,
      ChatProtocol.closeSession, ChatProtocol.session_inbound_data,
      ChatProtocol.session_inbound_end, ChatProtocol.session_outbound_pipe,
      ChatSession.inbound_data, ChatSession.inbound_end, ChatSession.outbound_pipe,
      ChatSession.new, ChatSession.sendHandshake, ChatSession.update, ChatProtocol.self,
      ChatProtocol.generateEventId, ChatProtocol.emit, stream_close, sink_write,
      console_warn, console_error, ask;
    bounded.
Qed.

Lemma bounded_perform_call (c : call) : preserves histories_bounded (perform_call c).
Proof.
  destruct c; cbn [perform_call]; [apply bounded_perform| | | |];
    unfold closeAllSessions, P2PChatApp.broadcastNicknameUpdate,
      P2PChatApp.sendDirectMessage, ChatHistory.clearHistory, Storage.remove,
      ChatProtocol.getActiveSessions, ChatProtocol.self, console_error;
    bounded.
Qed.

Lemma histories_bounded_exec_calls (trace : list call) (w : world) :
  histories_bounded w -> histories_bounded (exec_calls trace w).
Proof.
  revert w. induction trace as [|c trace IH]; intros w Hw; [exact Hw|].
  cbn. apply IH. apply bounded_perform_call, Hw.
Qed.

(** X16. No stored history ever exceeds 1000 entries: in every
    execution of the protocol and of the application's calls, started
    with an empty storage, each room's stored history has at most
    [MAX_MESSAGES_PER_ROOM] entries, whatever is received or sent. *)
Theorem stored_histories_stay_bounded (p : Platform) (trace : list call)
  (roomId : jsstring) :
  length (history (exec_calls trace (initial p)) roomId)
    <= ChatHistoryStorage.MAX_MESSAGES_PER_ROOM.
Proof.
  assert (histories_bounded (exec_calls trace (initial p))) as Hw.
  { apply histories_bounded_exec_calls. intros key messages Hk. inversion Hk. }
  unfold history. destruct (_ !! _) as [messages|] eqn:Hk; cbn.
  - exact (Hw _ _ Hk).
  - unfold ChatHistoryStorage.MAX_MESSAGES_PER_ROOM. lia.
Qed.

Lemma last_drop_lt {A} (l : list A) (k : nat) : k < length l -> last (drop k l) = last l.
Proof. intros Hk. rewrite !last_lookup, lookup_drop, length_drop. f_equal. lia. Qed.

Lemma last_limit (messages : list jsval) :
  messages <> [] -> last (ChatHistoryStorage.limit messages) = last messages.
Proof.
  intros Hne. unfold ChatHistoryStorage.limit.
  destruct (Nat.ltb_spec ChatHistoryStorage.MAX_MESSAGES_PER_ROOM (length messages));
    [|reflexivity].
  apply last_drop_lt. unfold ChatHistoryStorage.MAX_MESSAGES_PER_ROOM in *. lia.
Qed.

Lemma last_map {A B} (f : A -> B) (l : list A) : last (map f l) = f <$> last l.
Proof.
  induction l as [|x [|y l] IH]; [reflexivity|reflexivity|].
  cbn [map]. rewrite !last_cons_cons. exact IH.
Qed.

Lemma last_stored_snoc (messages : list jsval) (props : list (jsstring * jsval)) :
  last (ChatHistoryStorage.stored (ChatHistoryStorage.limit (messages ++ [VObj props])))
  = Some (json_roundtrip (VObj props)).
Proof.
  unfold ChatHistoryStorage.stored. cbn [json_roundtrip].
  rewrite last_map, last_limit, last_snoc; [reflexivity|].
  intros H. apply app_eq_nil in H as [_ H]. discriminate H.
Qed.

Lemma stored_entry_stored_at (message : jsval) (now : Z) :
  exists props,
    json_roundtrip (stored_entry message now) = VObj props
    /\ props_get props (js "stored_at") = VNum now.
Proof.
  unfold stored_entry. cbn [json_roundtrip]. eexists. split; [reflexivity|].
  unfold props_get.
  induction (spread message) as [|[k v] rest IH]; cbn [props_set].
  - cbn. rewrite bool_decide_eq_true_2 by reflexivity. reflexivity.
  - case_bool_decide as Hk.
    + cbn. rewrite bool_decide_eq_true_2 by reflexivity. reflexivity.
    + cbn [omap list_omap snd fst]. destruct v; try exact IH;
        cbn [find fst]; rewrite bool_decide_eq_false_2 by exact Hk; exact IH.
Qed.

(** X17. [addMessage] appends the message, with the time of storing in
    [stored_at] (overriding a [stored_at] the message brought along), as
    the newest entry of the room's history, and keeps the newest 1000:
    a history that is full loses its oldest entry.  The room id is a
    string, [undefined], [null], a boolean or a safe integer
    ([plain_id]). *)
Theorem addMessage_keeps_the_newest (w : world) (roomId message : jsval) :
  plain_id roomId ->
  let room := ToString roomId in
  let now := Date_now (platform w) (ticks w) in
  setItem (platform w) (S (ticks w)) (history_key room) = None ->
  let w' := run (ChatHistoryStorage.addMessage roomId message) w in
  length (history w' room)
    = Nat.min (S (length (history w room))) ChatHistoryStorage.MAX_MESSAGES_PER_ROOM
  /\ (length (history w room) < ChatHistoryStorage.MAX_MESSAGES_PER_ROOM ->
      history w' room
      = ChatHistoryStorage.stored (history w room ++ [stored_entry message now]))
  /\ (length (history w room) = ChatHistoryStorage.MAX_MESSAGES_PER_ROOM ->
      history w' room
      = ChatHistoryStorage.stored (drop 1 (history w room) ++ [stored_entry message now]))
  /\ (exists props,
        last (history w' room) = Some (VObj props)
        /\ props_get props (js "stored_at") = VNum now).
Proof.
  intros _ room now Hok w'.
  assert (history w' room
          = ChatHistoryStorage.stored
              (ChatHistoryStorage.limit (history w room ++ [stored_entry message now])))
    as Hnew.
  { unfold w', run. rewrite (addMessage_accepted w roomId message Hok).
    unfold history at 1. cbn [snd localStorage]. rewrite lookup_insert_eq. reflexivity. }
  rewrite Hnew. split; [|split; [|split]].
  - rewrite stored_length, limit_length, length_app. cbn [length]. lia.
  - intros Hlen. rewrite limit_small; [reflexivity|]. rewrite length_app. cbn [length]. lia.
  - intros Hlen. f_equal. unfold ChatHistoryStorage.limit.
    rewrite length_app, Hlen. cbn [length].
    destruct (Nat.ltb_spec ChatHistoryStorage.MAX_MESSAGES_PER_ROOM
                (ChatHistoryStorage.MAX_MESSAGES_PER_ROOM + 1)) as [_|Hle]; [|lia].
    replace (ChatHistoryStorage.MAX_MESSAGES_PER_ROOM + 1
             - ChatHistoryStorage.MAX_MESSAGES_PER_ROOM) with 1 by lia.
    rewrite drop_app_le; [reflexivity|]. rewrite Hlen.
    unfold ChatHistoryStorage.MAX_MESSAGES_PER_ROOM. lia.
  - destruct (stored_entry_stored_at message now) as (props & Hrt & Hat).
    exists props. split; [|exact Hat]. unfold stored_entry in *.
    rewrite last_stored_snoc. f_equal. exact Hrt.
Qed.

Lemma addMessage_keeps_the_newest_witness :
  let w := initial demo in
  let message := VObj [(js "type", VStr (js "m.room.message")); (js "stored_at", VNum 1)] in
  let w' := run (ChatHistoryStorage.addMessage (VStr (js "room")) message) w in
  history w' (js "room")
  = [VObj [(js "type", VStr (js "m.room.message")); (js "stored_at", VNum 1700000000000)]].
Proof.
  intros w message.
  destruct (addMessage_keeps_the_newest w (VStr (js "room")) message I eq_refl)
    as (_ & Hsmall & _).
  cbv zeta. etransitivity; [apply Hsmall; vm_compute; lia|]. vm_compute. reflexivity.
Defined.

Lemma getHistory_reads (w : world) (roomId : jsval) (limit : option Z) :
  let messages := history w (ToString roomId) in
  let n := default 100%Z limit in
  ChatHistory.getHistory roomId limit w =
    (Normal (if negb (n =? 0)%Z && (n <? Z.of_nat (length messages))%Z
             then Array_slice (- n) messages else messages), w).
Proof.
  cbv zeta. unfold ChatHistory.getHistory.
  eapply bind_normal; [reflexivity|].
  change (default [] (localStorage w !! ChatHistoryStorage._getKey
                        (js "history-" ++ ToString roomId)))
    with (history w (ToString roomId)).
  destruct (negb _ && _); reflexivity.
Qed.

(** X18. [getHistory] changes nothing and returns the newest entries of
    the room's history, oldest first: the last 100 when no limit is
    given, the last [n] for a positive limit [n], and the whole history
    when the room has no more than that.  A limit of 0 does not return
    an empty list but the whole history, and a negative limit [-n]
    returns the history without its [n] oldest entries.  The room id is
    a string, [undefined], [null], a boolean or a safe integer
    ([plain_id]). *)
Theorem getHistory_returns_the_newest (w : world) (roomId : jsval) (limit : option Z) :
  plain_id roomId ->
  let messages := history w (ToString roomId) in
  ChatHistory.getHistory roomId limit w =
    (Normal
       match limit with
       | None => drop (length messages - 100) messages
       | Some n =>
           if (n =? 0)%Z then messages
           else if (0 <? n)%Z then drop (length messages - Z.to_nat n) messages
                else drop (Z.to_nat (- n)) messages
       end, w).
Proof.
  intros _. cbv zeta. rewrite getHistory_reads. cbv zeta. f_equal. f_equal.
  set (messages := history w (ToString roomId)). unfold Array_slice.
  assert (forall n : Z, (0 < n)%Z ->
            (if negb (n =? 0)%Z && (n <? Z.of_nat (length messages))%Z
             then drop (Z.to_nat
                          (if (- n <? 0)%Z then Z.max (Z.of_nat (length messages) + - n) 0
                           else Z.min (- n) (Z.of_nat (length messages)))) messages
             else messages)
            = drop (length messages - Z.to_nat n) messages) as Hpos.
  { intros n Hn. destruct (Z.eqb_spec n 0); [lia|]. cbn [negb andb].
    destruct (Z.ltb_spec n (Z.of_nat (length messages))) as [Hlt|Hge].
    - destruct (Z.ltb_spec (- n) 0); [|lia]. f_equal. lia.
    - replace (length messages - Z.to_nat n) with 0 by lia. reflexivity. }
  destruct limit as [n|]; [|exact (Hpos 100%Z eq_refl)].
  change (default 100%Z (Some n)) with n.
  destruct (Z.ltb_spec 0 n) as [Hn|Hn].
  - rewrite (Hpos n Hn). destruct (Z.eqb_spec n 0); [lia|reflexivity].
  - destruct (Z.eqb_spec n 0) as [->|Hn0]; [reflexivity|].
    cbn [negb andb]. destruct (Z.ltb_spec n (Z.of_nat (length messages))); [|lia].
    destruct (Z.ltb_spec (- n) 0); [lia|].
    destruct (Z.le_gt_cases (- n) (Z.of_nat (length messages))).
    + f_equal. lia.
    + rewrite !drop_ge by lia. reflexivity.
Qed.

(** A history of three entries, read with a limit of two, without a
    limit and with the limit 0. *)
Lemma getHistory_returns_the_newest_witness :
  let w := exec [InboundStream (js "QmA"); InboundStream (js "QmB");
                 InboundStream (js "QmC"); Broadcast (js "yo") (js "public")]
             (initial demo) in
  length (history w (js "public")) = 3%nat
  /\ (ChatHistory.getHistory (VStr (js "public")) (Some 2%Z) w).1
     = Normal (drop 1 (history w (js "public")))
  /\ (ChatHistory.getHistory (VStr (js "public")) None w).1
     = Normal (history w (js "public"))
  /\ (ChatHistory.getHistory (VStr (js "public")) (Some 0%Z) w).1
     = Normal (history w (js "public")).
Proof.
  intros w. split; [vm_compute; reflexivity|]. split; [|split].
  - rewrite (getHistory_returns_the_newest w (VStr (js "public")) (Some 2%Z) I).
    cbn [fst]. vm_compute. reflexivity.
  - rewrite (getHistory_returns_the_newest w (VStr (js "public")) None I).
    cbn [fst]. vm_compute. reflexivity.
  - rewrite (getHistory_returns_the_newest w (VStr (js "public")) (Some 0%Z) I).
    cbn [fst]. vm_compute. reflexivity.
Defined.

(** ** The keys of the storage *)

Lemma startsWith_spec (s p : jsstring) :
  startsWith s p = true <-> exists rest, s = p ++ rest.
Proof.
  unfold startsWith. rewrite bool_decide_eq_true. split.
  - intros Htake. exists (drop (length p) s). rewrite <- Htake at 1. symmetry. apply take_drop.
  - intros [rest ->]. apply take_app_length.
Qed.

Lemma js_dash : js "-" = [45%N].
Proof. reflexivity. Qed.

Lemma own_spec (prefix key : jsstring) :
  Storage.own prefix key = true <-> exists name, key = Storage._getKey prefix name.
Proof.
  unfold Storage.own, Storage._getKey. rewrite andb_true_iff, startsWith_spec. split.
  - intros [_ [name ->]]. exists name. now rewrite <- app_assoc.
  - intros [name ->]. split.
    + apply negb_true_iff, bool_decide_eq_false. rewrite js_dash.
      intros H. apply app_eq_nil in H as [_ H]. discriminate H.
    + exists name. now rewrite <- app_assoc.
Qed.

Lemma _getKey_drop (prefix name : jsstring) :
  drop (length prefix + 1) (Storage._getKey prefix name) = name.
Proof.
  unfold Storage._getKey. rewrite js_dash.
  change (prefix ++ [45%N] ++ name) with (prefix ++ ([45%N] ++ name)).
  rewrite app_assoc. apply drop_app_length'. rewrite length_app. reflexivity.
Qed.

Lemma _getKey_inj (prefix a b : jsstring) :
  Storage._getKey prefix a = Storage._getKey prefix b -> a = b.
Proof.
  intros H. rewrite <- (_getKey_drop prefix a), <- (_getKey_drop prefix b). now rewrite H.
Qed.

Lemma storage_keys_elem (w : world) (key : jsstring) :
  key ∈ Storage.storage_keys w <-> is_Some (localStorage w !! key).
Proof.
  unfold Storage.storage_keys. rewrite list_elem_of_fmap. split.
  - intros [[k v] [-> Hin]]. apply elem_of_map_to_list in Hin. cbn. eauto.
  - intros [v Hv]. exists (key, v). split; [reflexivity|]. now apply elem_of_map_to_list.
Qed.

Lemma keys_elem (prefix : jsstring) (w : world) (name : jsstring) :
  name ∈ drop (length prefix + 1)
           <$> filter (fun key => Storage.own prefix key = true) (Storage.storage_keys w)
  <-> is_Some (localStorage w !! Storage._getKey prefix name).
Proof.
  rewrite list_elem_of_fmap. split.
  - intros [key [-> Hin]]. apply list_elem_of_filter in Hin as [Hown Hin].
    apply own_spec in Hown as [name ->]. rewrite _getKey_drop.
    now apply storage_keys_elem.
  - intros Hsome. exists (Storage._getKey prefix name).
    split; [now rewrite _getKey_drop|]. apply list_elem_of_filter.
    split; [apply own_spec; eauto|now apply storage_keys_elem].
Qed.

Lemma keys_NoDup (prefix : jsstring) (w : world) :
  NoDup (drop (length prefix + 1)
           <$> filter (fun key => Storage.own prefix key = true) (Storage.storage_keys w)).
Proof.
  apply NoDup_fmap_2_strong.
  - intros k1 k2 H1 H2 Heq.
    apply list_elem_of_filter in H1 as [H1 _]. apply list_elem_of_filter in H2 as [H2 _].
    apply own_spec in H1 as [n1 ->]. apply own_spec in H2 as [n2 ->].
    rewrite !_getKey_drop in Heq. now subst.
  - apply NoDup_filter, NoDup_fst_map_to_list.
Qed.

(** X19. [keys] and [has] of a storage agree: [keys()] lists, without
    repeats, exactly the names for which [has] answers true, that is the
    stored keys that carry the storage's prefix, with the prefix taken
    off; neither changes anything. *)
Theorem keys_lists_what_has_finds (prefix : jsstring) (w : world) :
  exists names,
    Storage.keys prefix w = (Normal names, w)
    /\ NoDup names
    /\ (forall name, name ∈ names <-> Storage.has prefix name w = (Normal true, w)).
Proof.
  eexists. split; [reflexivity|]. split; [apply keys_NoDup|].
  intros name. rewrite keys_elem. unfold Storage.has, gets. split.
  - intros Hsome. now rewrite bool_decide_eq_true_2.
  - intros [= H]. now apply bool_decide_eq_true in H.
Qed.

Lemma history_key_getKey (room : jsstring) :
  history_key room = Storage._getKey ChatHistoryStorage.prefix (js "history-" ++ room).
Proof. reflexivity. Qed.

Lemma history_key_inj (a b : jsstring) : history_key a = history_key b -> a = b.
Proof.
  rewrite !history_key_getKey. intros H. apply _getKey_inj in H.
  now apply app_inv_head in H.
Qed.

Lemma getRoomIds_reads (w : world) :
  ChatHistory.getRoomIds w =
    (Normal (drop 8 <$> filter (fun key => startsWith key (js "history-") = true)
               (drop (length ChatHistoryStorage.prefix + 1)
                  <$> filter (fun key => Storage.own ChatHistoryStorage.prefix key = true)
                        (Storage.storage_keys w))), w).
Proof. reflexivity. Qed.

Lemma getRoomIds_elem (w : world) (room : jsstring) :
  room ∈ drop 8 <$> filter (fun key => startsWith key (js "history-") = true)
           (drop (length ChatHistoryStorage.prefix + 1)
              <$> filter (fun key => Storage.own ChatHistoryStorage.prefix key = true)
                    (Storage.storage_keys w))
  <-> is_Some (localStorage w !! history_key room).
Proof.
  rewrite list_elem_of_fmap. split.
  - intros [name [-> Hin]]. apply list_elem_of_filter in Hin as [Hstart Hin].
    apply startsWith_spec in Hstart as [room ->].
    apply keys_elem in Hin. rewrite drop_app_length' by reflexivity.
    rewrite history_key_getKey. exact Hin.
  - intros Hsome. exists (js "history-" ++ room).
    split; [now rewrite drop_app_length' by reflexivity|].
    apply list_elem_of_filter. split; [apply startsWith_spec; eauto|].
    apply keys_elem. rewrite <- history_key_getKey. exact Hsome.
Qed.

(** X20. [getRoomIds] lists exactly the rooms that have a stored
    history, each once: a room is listed as soon as a message was added
    to it (under the text of its id, for an id that is a string,
    [undefined], [null], a boolean or a safe integer) and until its
    history is cleared. *)
Theorem getRoomIds_lists_the_rooms_with_a_history (w : world) :
  exists rooms,
    ChatHistory.getRoomIds w = (Normal rooms, w)
    /\ NoDup rooms
    /\ (forall room, room ∈ rooms <-> is_Some (localStorage w !! history_key room))
    /\ (forall roomId message,
          plain_id roomId ->
          setItem (platform w) (S (ticks w)) (history_key (ToString roomId)) = None ->
          exists rooms',
            ChatHistory.getRoomIds (run (ChatHistoryStorage.addMessage roomId message) w)
            = (Normal rooms', run (ChatHistoryStorage.addMessage roomId message) w)
            /\ ToString roomId ∈ rooms').
Proof.
  eexists. split; [apply getRoomIds_reads|]. split; [|split].
  - apply NoDup_fmap_2_strong.
    + intros k1 k2 H1 H2 Heq.
      apply list_elem_of_filter in H1 as [H1 _]. apply list_elem_of_filter in H2 as [H2 _].
      apply startsWith_spec in H1 as [r1 ->]. apply startsWith_spec in H2 as [r2 ->].
      rewrite !drop_app_length' in Heq by reflexivity. now subst.
    + apply NoDup_filter, keys_NoDup.
  - apply getRoomIds_elem.
  - intros roomId message _ Hok. eexists. split; [apply getRoomIds_reads|].
    apply getRoomIds_elem. unfold run.
    rewrite (addMessage_accepted w roomId message Hok). cbn [snd localStorage].
    rewrite lookup_insert_eq. eauto.
Qed.

Lemma getRoomIds_lists_the_rooms_with_a_history_witness :
  let w := run (ChatHistoryStorage.addMessage (VStr (js "lobby"))
                  (ChatSession.handshake (js "QmPeer"))) (initial demo) in
  (ChatHistory.getRoomIds (initial demo)).1 = Normal []
  /\ (ChatHistory.getRoomIds w).1 = Normal [js "lobby"].
Proof.
  intros w.
  destruct (getRoomIds_lists_the_rooms_with_a_history (initial demo))
    as (rooms & _ & _ & _ & Hadd).
  destruct (Hadd (VStr (js "lobby")) (ChatSession.handshake (js "QmPeer")) I eq_refl)
    as (rooms' & _ & _).
  split; vm_compute; reflexivity.
Defined.

(** X21. [clearHistory] removes the history of one room and nothing
    else: afterwards the room has no history and is not listed by
    [getRoomIds], [getHistory] returns the empty list for it, and the
    history of every other room is as before.  It never throws, also
    for a room without a history.  The room id is a string,
    [undefined], [null], a boolean or a safe integer ([plain_id]). *)
Theorem clearHistory_forgets_one_room (w : world) (roomId : jsval) :
  plain_id roomId ->
  let room := ToString roomId in
  let w' := run (ChatHistory.clearHistory roomId) w in
  (ChatHistory.clearHistory roomId w).1 = Normal tt
  /\ history w' room = []
  /\ (forall other, other <> room -> history w' other = history w other)
  /\ (forall limit, ChatHistory.getHistory roomId limit w' = (Normal [], w'))
  /\ (exists rooms, ChatHistory.getRoomIds w' = (Normal rooms, w') /\ room ∉ rooms)
  /\ session_heap w' = session_heap w /\ sessions w' = sessions w
  /\ emitted w' = emitted w.
Proof.
  intros _. cbv zeta.
  assert (history (run (ChatHistory.clearHistory roomId) w) (ToString roomId) = []) as Hnone.
  { unfold history, run, ChatHistory.clearHistory, Storage.remove, Storage.removeItem.
    cbn [modify snd with_localStorage localStorage].
    rewrite <- history_key_getKey, lookup_delete_eq. reflexivity. }
  split; [reflexivity|]. split; [exact Hnone|]. split; [|split; [|split]].
  - intros other Hother.
    unfold history, run, ChatHistory.clearHistory, Storage.remove, Storage.removeItem.
    cbn [modify snd with_localStorage localStorage].
    rewrite <- history_key_getKey, lookup_delete_ne; [reflexivity|].
    intros Heq. apply Hother. symmetry. exact (history_key_inj _ _ Heq).
  - intros limit. rewrite getHistory_reads. cbv zeta. rewrite Hnone.
    destruct (negb _ && _); [|reflexivity]. unfold Array_slice. now rewrite drop_nil.
  - eexists. split; [apply getRoomIds_reads|]. rewrite getRoomIds_elem.
    unfold run, ChatHistory.clearHistory, Storage.remove, Storage.removeItem.
    cbn [modify snd with_localStorage localStorage].
    rewrite <- history_key_getKey, lookup_delete_eq. intros [? H]. discriminate H.
  - auto.
Qed.

(** Two rooms with a history each; the history of one is cleared. *)
Lemma clearHistory_forgets_one_room_witness :
  let w := exec [InboundStream (js "QmA"); SendMessage (js "QmA") (js "hi") (js "lobby");
                 SendMessage (js "QmA") (js "yo") (js "den")] (initial demo) in
  let w' := run (ChatHistory.clearHistory (VStr (js "lobby"))) w in
  length (history w (js "lobby")) = 1%nat
  /\ history w' (js "lobby") = []
  /\ history w' (js "den") = history w (js "den")
  /\ length (history w' (js "den")) = 1%nat.
Proof.
  intros w.
  destruct (clearHistory_forgets_one_room w (VStr (js "lobby")) I)
    as (_ & Hnone & Hother & _).
  cbv zeta. split; [vm_compute; reflexivity|]. split; [exact Hnone|].
  split; [apply Hother; discriminate|vm_compute; reflexivity].
Defined.

Lemma removeItem_loop (l : list jsstring) :
  forall w,
    exists results w',
      for_each l Storage.removeItem w = (Normal results, w')
      /\ (forall key, localStorage w' !! key
                      = if bool_decide (key ∈ l) then None else localStorage w !! key)
      /\ session_heap w' = session_heap w /\ sessions w' = sessions w
      /\ emitted w' = emitted w.
Proof.
  induction l as [|k rest IH]; intros w.
  - exists [], w. repeat split; auto.
  - destruct (IH (with_localStorage (delete k) w))
      as (results & w' & Hloop & Hkeys & Hheap & Hreg & Hem).
    exists (tt :: results), w'. split; [|split; [|auto]].
    + cbn [for_each]. eapply bind_normal; [reflexivity|].
      eapply bind_normal; [exact Hloop|reflexivity].
    + intros key. rewrite Hkeys. cbn [localStorage with_localStorage].
      destruct (decide (key = k)) as [->|Hne].
      * rewrite (bool_decide_eq_true_2 (k ∈ k :: rest)) by left.
        rewrite lookup_delete_eq. now destruct (bool_decide _).
      * rewrite lookup_delete_ne by congruence.
        destruct (bool_decide (key ∈ rest)) eqn:Hin.
        -- apply bool_decide_eq_true in Hin.
           now rewrite (bool_decide_eq_true_2 (key ∈ k :: rest)) by (right; exact Hin).
        -- apply bool_decide_eq_false in Hin.
           rewrite (bool_decide_eq_false_2 (key ∈ k :: rest)); [reflexivity|].
           intros H. apply elem_of_cons in H as [H|H]; auto.
Qed.

Lemma clear_lookup (prefix : jsstring) (w : world) (key : jsstring) :
  localStorage (run (Storage.clear prefix) w) !! key
  = if Storage.own prefix key then None else localStorage w !! key.
Proof.
  unfold run, Storage.clear.
  destruct (removeItem_loop
              (filter (fun key => Storage.own prefix key = true) (Storage.storage_keys w)) w)
    as (results & w' & Hloop & Hkeys & _).
  erewrite bind_normal; [|reflexivity|eapply bind_normal; [exact Hloop|reflexivity]].
  cbn [snd]. rewrite Hkeys.
  destruct (Storage.own prefix key) eqn:Hown.
  - destruct (bool_decide _) eqn:Hin; [reflexivity|].
    apply bool_decide_eq_false in Hin.
    destruct (localStorage w !! key) as [v|] eqn:Hv; [|reflexivity].
    exfalso. apply Hin. apply list_elem_of_filter. split; [exact Hown|].
    apply storage_keys_elem. eauto.
  - rewrite bool_decide_eq_false_2; [reflexivity|].
    intros Hin. apply list_elem_of_filter in Hin as [Hin _]. congruence.
Qed.

(** X22. [clear] of a storage removes exactly the stored keys that
    start with its prefix and a dash, and leaves every other key as it
    is; afterwards [keys()] is empty.  Resetting the settings therefore
    keeps the chat histories, while clearing the storage with the
    default prefix "libp2p" removes them, because the prefix of the
    history storage starts with it. *)
Theorem clear_removes_the_keys_under_the_prefix (prefix : jsstring) (w : world) :
  let w' := run (Storage.clear prefix) w in
  (Storage.clear prefix w).1 = Normal tt
  /\ (forall key, localStorage w' !! key
                  = if Storage.own prefix key then None else localStorage w !! key)
  /\ Storage.keys prefix w' = (Normal [], w')
  /\ (forall room, history (run SettingsStorage.resetToDefaults w) room = history w room)
  /\ (forall room, history (run (Storage.clear Storage_default_prefix) w) room = []).
Proof.
  cbv zeta. split; [|split; [|split; [|split]]].
  - unfold Storage.clear.
    destruct (removeItem_loop
                (filter (fun key => Storage.own prefix key = true) (Storage.storage_keys w)) w)
      as (results & w' & Hloop & _).
    erewrite bind_normal; [|reflexivity|eapply bind_normal; [exact Hloop|reflexivity]].
    reflexivity.
  - apply clear_lookup.
  - unfold Storage.keys. eapply bind_normal; [reflexivity|].
    cbv zeta. unfold ret. f_equal. f_equal. apply elem_of_nil_inv. intros name Hin.
    apply keys_elem in Hin as [v Hv]. rewrite clear_lookup in Hv.
    replace (Storage.own prefix (Storage._getKey prefix name)) with true in Hv;
      [discriminate Hv|].
    symmetry. apply own_spec. eauto.
  - intros room. unfold history, SettingsStorage.resetToDefaults.
    rewrite clear_lookup.
    replace (Storage.own SettingsStorage.prefix (history_key room)) with false;
      [reflexivity|].
    vm_compute. reflexivity.
  - intros room. unfold history. rewrite clear_lookup.
    replace (Storage.own Storage_default_prefix (history_key room)) with true;
      [reflexivity|].
    vm_compute. reflexivity.
Qed.

(** ** [closeSession] *)

Lemma JsMap_get_delete_eq {V} (m : list (jsstring * V)) (k : jsstring) :
  JsMap.get (JsMap.delete m k) k = None.
Proof.
  unfold JsMap.get, JsMap.delete. induction m as [|[k' v'] m IH]; [reflexivity|].
  rewrite filter_cons. case_decide as Hk; cbn in Hk; [|exact IH].
  cbn [find fst]. rewrite bool_decide_eq_false_2 by exact Hk. exact IH.
Qed.

Lemma JsMap_get_delete_ne {V} (m : list (jsstring * V)) (k q : jsstring) :
  q <> k -> JsMap.get (JsMap.delete m k) q = JsMap.get m q.
Proof.
  intros Hne. unfold JsMap.get, JsMap.delete. induction m as [|[k' v'] m IH]; [reflexivity|].
  rewrite filter_cons. case_decide as Hk; cbn in Hk.
  - cbn [find fst]. case_bool_decide; [reflexivity|exact IH].
  - subst k'. cbn [find fst].
    rewrite bool_decide_eq_false_2 by congruence. exact IH.
Qed.

(** X23. [closeSession] closes the session that is registered for the
    peer and no other: the peer is unregistered afterwards, the entries
    of all other peers stay, the session is closed with one
    [chat:disconnected], and the registry is again one of active
    sessions only.  For a peer without a session it does nothing.  A
    later [openStream] or [sendMessage] for the peer dials anew. *)
Theorem closeSession_unregisters_the_peer (w : world) (peer : jsstring) :
  registry_live w ->
  let w' := run (ChatProtocol.closeSession peer) w in
  (ChatProtocol.closeSession peer w).1 = Normal tt
  /\ JsMap.get (sessions w') peer = None
  /\ (forall q, q <> peer -> JsMap.get (sessions w') q = JsMap.get (sessions w) q)
  /\ (JsMap.get (sessions w) peer = None -> w' = w)
  /\ (forall r s,
        JsMap.get (sessions w) peer = Some r -> session_heap w !! r = Some s ->
        session_heap w' !! r = Some (closed_session s)
        /\ emitted w' = emitted w ++ [disconnected peer])
  /\ registry_live w'.
Proof.
  intros Hw. cbv zeta. unfold run, ChatProtocol.closeSession.
  destruct (JsMap.get (sessions w) peer) as [r|] eqn:Hget.
  - pose proof (JsMap_get_Some_elem _ _ _ Hget) as Hin.
    destruct (proj2 Hw _ _ Hin) as (s & Hs & Hp & Hact).
    pose proof (session_close_active w r s Hs Hact) as Hclose. rewrite Hp in Hclose.
    erewrite bind_normal; [|reflexivity|rewrite Hget; exact Hclose].
    cbn [fst snd sessions session_heap emitted].
    split; [reflexivity|]. split; [apply JsMap_get_delete_eq|].
    split; [intros q Hq; apply JsMap_get_delete_ne, Hq|].
    split; [discriminate|]. split.
    + intros r' s' [= <-] Hs'. rewrite list_lookup_alter_eq, Hs'. auto.
    + pose proof (registry_live_close r w Hw) as Hlive.
      rewrite Hclose in Hlive. exact Hlive.
  - erewrite bind_normal; [|reflexivity|rewrite Hget; reflexivity].
    cbn [fst snd]. split; [reflexivity|]. split; [exact Hget|].
    split; [reflexivity|]. split; [reflexivity|]. split; [discriminate|exact Hw].
Qed.

Lemma closeSession_unregisters_the_peer_witness :
  let w := exec_calls [Protocol (InboundStream (js "QmA"));
                       Protocol (InboundStream (js "QmB"))] (initial demo) in
  let w' := run (ChatProtocol.closeSession (js "QmA")) w in
  registry_live w
  /\ JsMap.get (sessions w') (js "QmA") = None
  /\ JsMap.get (sessions w') (js "QmB") = Some 1%nat
  /\ run (ChatProtocol.closeSession (js "QmC")) w = w.
Proof.
  intros w.
  assert (registry_live w) as Hlive
    by apply registry_live_exec_calls, registry_live_initial.
  destruct (closeSession_unregisters_the_peer w (js "QmA") Hlive)
    as (_ & Hnone & Hother & _).
  destruct (closeSession_unregisters_the_peer w (js "QmC") Hlive)
    as (_ & _ & _ & Hsame & _).
  cbv zeta. split; [exact Hlive|]. split; [exact Hnone|]. split.
  - rewrite Hother by discriminate. reflexivity.
  - apply Hsame. reflexivity.
Defined.

(** ** The frames on a session's stream *)

Lemma wire_ok_frame (p : Platform) (w w' : world) :
  platform w' = platform w -> session_heap w' = session_heap w ->
  stream_heap w' = stream_heap w -> wire_ok p w -> wire_ok p w'.
Proof. unfold wire_ok. intros -> -> ->. auto. Qed.

Lemma wire_leaf {A} (p : Platform) (m : M A) :
  (forall w, platform (m w).2 = platform w /\ session_heap (m w).2 = session_heap w
             /\ stream_heap (m w).2 = stream_heap w) ->
  preserves (wire_ok p) m.
Proof. intros Hm w Hw. destruct (Hm w) as (H1 & H2 & H3). eapply wire_ok_frame; eauto. Qed.

(** A change of one session that keeps its stream, and keeps what an
    active session's frames start with and how its counter relates to
    their number. *)
Lemma wire_ok_alter (p : Platform) (f : ChatSession -> ChatSession) (this : nat)
  (w : world) :
  (forall s, stream (f s) = stream s) ->
  (forall s st,
     session_heap w !! this = Some s -> isActive (f s) = true ->
     stream_heap w !! stream s = Some st ->
     isActive s = true
     /\ (forall h, head (wire st s) = Some h -> head (wire st (f s)) = Some h)
     /\ (seq s = Z.of_nat (length (wire st s)) ->
         seq (f s) = Z.of_nat (length (wire st (f s))))) ->
  wire_ok p w -> wire_ok p (with_session_heap (alter f this) w).
Proof.
  intros Hstream Hf (Hp & Hin & Hown & Hwire).
  assert (forall r s', alter f this (session_heap w) !! r = Some s' ->
            exists s, session_heap w !! r = Some s /\ stream s' = stream s
                      /\ (r <> this -> s' = s) /\ (r = this -> s' = f s)) as Hback.
  { intros r s' Hs'. destruct (decide (this = r)) as [->|Hne].
    - rewrite list_lookup_alter_eq in Hs'.
      destruct (session_heap w !! r) as [s|]; [|discriminate]. cbn in Hs'.
      injection Hs' as <-. exists s. rewrite Hstream. split; [reflexivity|].
      split; [reflexivity|]. split; [congruence|reflexivity].
    - rewrite list_lookup_alter_ne in Hs' by exact Hne. exists s'.
      split; [exact Hs'|]. split; [reflexivity|]. split; [reflexivity|congruence]. }
  split; [exact Hp|]. split; [|split]; cbn [session_heap stream_heap with_session_heap].
  - intros r s' Hs'. destruct (Hback r s' Hs') as (s & Hs & -> & _). eauto.
  - intros r1 r2 s1 s2 H1 H2 Heq.
    destruct (Hback r1 s1 H1) as (t1 & Ht1 & E1 & _).
    destruct (Hback r2 s2 H2) as (t2 & Ht2 & E2 & _).
    apply (Hown r1 r2 t1 t2 Ht1 Ht2). congruence.
  - intros r s' st Hs' Hact Hst.
    destruct (Hback r s' Hs') as (s & Hs & Estream & Hother & Hthis).
    rewrite Estream in Hst.
    destruct (decide (r = this)) as [->|Hne].
    + rewrite (Hthis eq_refl) in *.
      destruct (Hf s st Hs Hact Hst) as (Hact0 & Hhead & Hseq).
      destruct (Hwire this s st Hs Hact0 Hst) as [Hh Hn]. auto.
    + rewrite (Hother Hne) in *. exact (Hwire r s st Hs Hact Hst).
Qed.

Lemma wire_ok_pushed (p : Platform) (data : bytes) (this : nat) (w : world) :
  wire_ok p w -> wire_ok p (with_session_heap (alter (pushed data) this) w).
Proof.
  apply wire_ok_alter; [reflexivity|]. intros s st Hs Hact Hst.
  split; [exact Hact|]. unfold wire. cbn [pushed ChatSession.incr_seq
    ChatSession.outbound_push outbound queue seq].
  rewrite fmap_app, app_assoc. split.
  - intros h Hh. destruct (sink st ++ (lp.frame <$> queue (outbound s)));
      [discriminate|exact Hh].
  - intros ->. rewrite !length_app. cbn [length fmap list_fmap]. lia.
Qed.

Lemma wire_ok_inactive (p : Platform) (f : ChatSession -> ChatSession) (this : nat)
  (w : world) :
  (forall s, stream (f s) = stream s) ->
  (forall s, session_heap w !! this = Some s -> isActive (f s) = false) ->
  wire_ok p w -> wire_ok p (with_session_heap (alter f this) w).
Proof.
  intros Hstream Hoff. apply wire_ok_alter; [exact Hstream|].
  intros s st Hs Hact. rewrite (Hoff s Hs) in Hact. discriminate.
Qed.

Lemma wire_ok_stream_flags (p : Platform) (g : Stream -> Stream) (k : nat) (w : world) :
  (forall st, sink (g st) = sink st) ->
  wire_ok p w -> wire_ok p (with_stream_heap (alter g k) w).
Proof.
  intros Hg (Hp & Hin & Hown & Hwire). split; [exact Hp|].
  split; [|split]; cbn [session_heap stream_heap with_stream_heap].
  - intros r s Hs. rewrite length_alter. eauto.
  - exact Hown.
  - intros r s st' Hs Hact Hst'.
    destruct (decide (k = stream s)) as [->|Hne].
    + rewrite list_lookup_alter_eq in Hst'.
      destruct (stream_heap w !! stream s) as [st|] eqn:Hst; [|discriminate].
      cbn in Hst'. injection Hst' as <-. unfold wire. rewrite Hg.
      exact (Hwire r s st Hs Hact Hst).
    + rewrite list_lookup_alter_ne in Hst' by exact Hne.
      exact (Hwire r s st' Hs Hact Hst').
Qed.

Lemma wire_ok_new_stream (p : Platform) (st : Stream) (w : world) :
  wire_ok p w -> wire_ok p (with_stream_heap (fun h => h ++ [st]) w).
Proof.
  intros (Hp & Hin & Hown & Hwire). split; [exact Hp|].
  split; [|split]; cbn [session_heap stream_heap with_stream_heap].
  - intros r s Hs. rewrite length_app. specialize (Hin r s Hs). lia.
  - exact Hown.
  - intros r s st' Hs Hact Hst'. apply (Hwire r s st' Hs Hact).
    rewrite lookup_app_l in Hst' by eauto. exact Hst'.
Qed.

(** A new session over a new stream, with its Hello queued. *)
Lemma wire_ok_opened (p : Platform) (peer : jsstring) (w w' : world) :
  platform w' = p ->
  session_heap w'
  = session_heap w ++ [opened_session (length (stream_heap w)) peer (node_peerId p)] ->
  stream_heap w' = stream_heap w ++ [MkStream [] false false] ->
  wire_ok p w -> wire_ok p w'.
Proof.
  intros Hp' Hheap Hstreams (Hp & Hin & Hown & Hwire). split; [exact Hp'|].
  rewrite Hheap, Hstreams. split; [|split].
  - intros r s Hs. rewrite length_app. cbn [length].
    apply lookup_snoc_Some in Hs as [[_ Hs]|[_ <-]]; [specialize (Hin r s Hs); lia|].
    cbn. lia.
  - intros r1 r2 s1 s2 H1 H2 Heq.
    apply lookup_snoc_Some in H1 as [[Hr1 H1]|[Hr1 <-]];
      apply lookup_snoc_Some in H2 as [[Hr2 H2]|[Hr2 <-]].
    + exact (Hown r1 r2 s1 s2 H1 H2 Heq).
    + specialize (Hin r1 s1 H1). cbn in Heq. lia.
    + specialize (Hin r2 s2 H2). cbn in Heq. lia.
    + congruence.
  - intros r s st Hs Hact Hst.
    apply lookup_snoc_Some in Hs as [[Hr Hs]|[Hr <-]].
    + apply (Hwire r s st Hs Hact). specialize (Hin r s Hs).
      rewrite lookup_app_l in Hst by exact Hin. exact Hst.
    + cbn [stream opened_session] in Hst.
      rewrite list_lookup_middle in Hst by reflexivity. injection Hst as <-.
      unfold wire, hello_frame. cbn. auto.
Qed.

Lemma wire_send (p : Platform) (this : nat) (message : jsval) :
  preserves (wire_ok p) (ChatSession.send this message).
Proof.
  intros w Hw. destruct (session_heap w !! this) as [s|] eqn:Hs.
  - destruct (isActive s) eqn:Hact.
    + destruct (JSON_stringify message) as [text|] eqn:Htext.
      * rewrite (send_active w this s message text Hs Hact Htext).
        apply wire_ok_pushed, Hw.
      * unfold ChatSession.send.
        erewrite bind_normal; [|apply deref_some, Hs|reflexivity].
        rewrite Hact, Htext. cbn [negb]. eapply wire_ok_frame; [| | |exact Hw]; reflexivity.
    + rewrite (send_inactive w this s message Hs Hact).
      eapply wire_ok_frame; [| | |exact Hw]; reflexivity.
  - unfold ChatSession.send, ChatSession.deref, bind. rewrite Hs. exact Hw.
Qed.

Lemma wire_close (p : Platform) (this : nat) :
  preserves (wire_ok p) (ChatProtocol.session_close this).
Proof.
  intros w Hw. destruct (session_heap w !! this) as [s|] eqn:Hs.
  - destruct (isActive s) eqn:Hact.
    + rewrite (session_close_active w this s Hs Hact). cbn [snd].
      eapply wire_ok_frame;
        [| | |apply (wire_ok_inactive p closed_session this w); [| |exact Hw]];
        reflexivity.
    + rewrite (session_close_inactive w this s Hs Hact). exact Hw.
  - unfold ChatProtocol.session_close, ChatSession.close, ChatSession.deref, bind.
    rewrite Hs. exact Hw.
Qed.

Lemma outbound_pipe_fails_inactive (w : world) (this : nat) (s : ChatSession)
  (chunk : bytes) (rest : list bytes) (st : Stream) :
  session_heap w !! this = Some s -> isActive s = false ->
  queue (outbound s) = chunk :: rest ->
  stream_heap w !! stream s = Some st ->
  ~ fits chunk \/ broken st = true ->
  exists err,
    ChatProtocol.session_outbound_pipe this w =
      (Normal tt,
       with_console (fun c => c ++ [Log Err (js "Outbound pipe error:") [exn_value err]])
         (with_session_heap (alter (ChatSession.set_queue []) this) w)).
Proof.
  intros Hs Hact Hq Hst Hfail.
  assert (Hfailed : forall err,
             ChatSession.outbound_failed ChatProtocol.handleSessionClose this err w =
               (Normal tt,
                with_console
                  (fun c => c ++ [Log Err (js "Outbound pipe error:") [exn_value err]])
                  (with_session_heap (alter (ChatSession.set_queue []) this) w))).
  { intros err. unfold ChatSession.outbound_failed.
    eapply bind_normal; [reflexivity|].
    eapply bind_normal; [reflexivity|].
    apply (session_close_inactive _ this (ChatSession.set_queue [] s)); [|exact Hact].
    cbn. rewrite list_lookup_alter_eq, Hs. reflexivity. }
  unfold ChatProtocol.session_outbound_pipe, ChatSession.outbound_pipe.
  destruct (decide (fits chunk)) as [Hfits|Hfits].
  - destruct Hfail as [Hno|Hbroken]; [contradiction|].
    eexists. eapply bind_normal; [apply deref_some, Hs|]. rewrite Hq.
    eapply bind_normal; [unfold stream_deref; rewrite Hst; reflexivity|].
    rewrite (encode_fits chunk Hfits), Hbroken.
    eapply bind_normal; [reflexivity|]. apply Hfailed.
  - eexists. eapply bind_normal; [apply deref_some, Hs|]. rewrite Hq.
    eapply bind_normal; [unfold stream_deref; rewrite Hst; reflexivity|].
    rewrite (encode_refuses chunk Hfits). apply Hfailed.
Qed.

Lemma wire_outbound_pipe (p : Platform) (this : nat) :
  preserves (wire_ok p) (ChatProtocol.session_outbound_pipe this).
Proof.
  intros w Hw. unfold ChatProtocol.session_outbound_pipe.
  destruct (session_heap w !! this) as [s|] eqn:Hs.
  2:{ unfold ChatSession.outbound_pipe, ChatSession.deref, bind. rewrite Hs. exact Hw. }
  destruct (queue (outbound s)) as [|chunk rest] eqn:Hq.
  { unfold ChatSession.outbound_pipe.
    erewrite bind_normal; [|apply deref_some, Hs|reflexivity]. rewrite Hq. exact Hw. }
  destruct (stream_heap w !! stream s) as [st|] eqn:Hst.
  2:{ unfold ChatSession.outbound_pipe.
      erewrite bind_normal; [|apply deref_some, Hs|reflexivity]. rewrite Hq.
      erewrite bind_throw; [exact Hw|]. unfold stream_deref. rewrite Hst. reflexivity. }
  assert (Hfails : ~ fits chunk \/ broken st = true ->
                   wire_ok p (ChatSession.outbound_pipe ChatProtocol.handleSessionClose
                                this w).2).
  { intros Hfail. destruct (isActive s) eqn:Hact.
    - destruct (outbound_pipe_fails w this s chunk rest st Hs Hact Hq Hst Hfail)
        as (err & _ & Hrun).
      unfold ChatProtocol.session_outbound_pipe in Hrun. rewrite Hrun. cbn [snd].
      eapply wire_ok_frame;
        [| | |apply (wire_ok_inactive p
                       (fun s => closed_session (ChatSession.set_queue [] s)) this w);
              [| |exact Hw]];
        reflexivity.
    - destruct (outbound_pipe_fails_inactive w this s chunk rest st Hs Hact Hq Hst Hfail)
        as (err & Hrun).
      unfold ChatProtocol.session_outbound_pipe in Hrun. rewrite Hrun. cbn [snd].
      eapply wire_ok_frame;
        [| | |apply (wire_ok_inactive p (ChatSession.set_queue []) this w); [| |exact Hw]];
        try reflexivity.
      intros s' Hs'. rewrite Hs in Hs'. injection Hs' as <-. exact Hact. }
  destruct (decide (fits chunk)) as [Hfits|Hfits]; [|apply Hfails; left; exact Hfits].
  destruct (broken st) eqn:Hbroken; [apply Hfails; right; reflexivity|].
  - pose proof (outbound_pipe_writes w this s chunk rest st Hs Hq Hst Hbroken Hfits) as Hrun.
    unfold ChatProtocol.session_outbound_pipe in Hrun. rewrite Hrun. cbn [snd].
    destruct Hw as (Hp & Hin & Hown & Hwire). split; [exact Hp|].
    split; [|split]; cbn [session_heap stream_heap with_session_heap with_stream_heap].
    + intros r s' Hs'. rewrite length_alter.
      destruct (decide (this = r)) as [->|Hne].
      * rewrite list_lookup_alter_eq, Hs in Hs'. injection Hs' as <-. cbn. eauto.
      * rewrite list_lookup_alter_ne in Hs' by exact Hne. eauto.
    + intros r1 r2 s1 s2 H1 H2 Heq.
      assert (forall r s', alter (ChatSession.set_queue rest) this (session_heap w) !! r
                           = Some s' ->
                exists t, session_heap w !! r = Some t /\ stream s' = stream t) as Hback.
      { intros r s' Hs'. destruct (decide (this = r)) as [->|Hne].
        - rewrite list_lookup_alter_eq, Hs in Hs'. injection Hs' as <-. eauto.
        - rewrite list_lookup_alter_ne in Hs' by exact Hne. eauto. }
      destruct (Hback r1 s1 H1) as (t1 & Ht1 & E1).
      destruct (Hback r2 s2 H2) as (t2 & Ht2 & E2).
      apply (Hown r1 r2 t1 t2 Ht1 Ht2). congruence.
    + intros r s' st' Hs' Hact Hst'.
      destruct (decide (this = r)) as [->|Hne].
      * rewrite list_lookup_alter_eq, Hs in Hs'. injection Hs' as <-.
        cbn [stream ChatSession.set_queue] in Hst'.
        rewrite list_lookup_alter_eq, Hst in Hst'. injection Hst' as <-.
        destruct (Hwire r s st Hs Hact Hst) as [Hh Hn].
        unfold wire in *. cbn [sink ChatSession.set_queue outbound queue seq].
        rewrite Hq in Hh, Hn. rewrite <- app_assoc. auto.
      * rewrite list_lookup_alter_ne in Hs' by exact Hne.
        rewrite list_lookup_alter_ne in Hst'.
        -- exact (Hwire r s' st' Hs' Hact Hst').
        -- intros Heq. apply Hne. exact (Hown this r s s' Hs Hs' Heq).
Qed.

Lemma wire_openStream_dial (p : Platform) (peer : jsstring) :
  preserves (wire_ok p) (ChatProtocol.openStream_dial peer).
Proof.
  intros w Hw. destruct (dialed_or_not (dialProtocol (platform w) (ticks w) peer)) as [Hdial|Hdial].
  - rewrite (openStream_dial_dialed w peer Hdial). cbn [snd].
    pose proof (proj1 Hw) as Hp.
    apply (wire_ok_opened p peer w); [exact Hp| |reflexivity|exact Hw].
    cbn [session_heap]. now rewrite Hp.
  - destruct (openStream_dial_failed w peer Hdial) as (e & lines & ->).
    eapply wire_ok_frame; [| | |exact Hw]; reflexivity.
Qed.

Lemma wire_openStream (p : Platform) (peer : jsstring) :
  preserves (wire_ok p) (ChatProtocol.openStream peer).
Proof.
  intros w Hw. destruct (JsMap.get (sessions w) peer) as [session|] eqn:Hget.
  - rewrite (openStream_registered w peer session Hget). exact Hw.
  - rewrite (openStream_unregistered w peer Hget). apply wire_openStream_dial, Hw.
Qed.

Lemma wire_inbound_stream (p : Platform) (peer : jsstring) :
  preserves (wire_ok p) (perform (InboundStream peer)).
Proof.
  intros w Hw. cbn [perform]. unfold bind at 1, new_stream.
  set (w1 := with_stream_heap (fun h => h ++ [MkStream [] false false]) w).
  destruct (JsMap.has (sessions w1) peer) eqn:Hhas.
  - rewrite (handleIncomingStream_duplicate w1 _ peer Hhas). cbn [snd].
    apply wire_ok_stream_flags; [reflexivity|].
    eapply wire_ok_frame; [| | |apply (wire_ok_new_stream p (MkStream [] false false) w Hw)];
      reflexivity.
  - rewrite (handleIncomingStream_new w1 _ peer Hhas). cbn [snd].
    pose proof (proj1 Hw) as Hp.
    apply (wire_ok_opened p peer w); [exact Hp| |reflexivity|exact Hw].
    cbn [session_heap]. unfold w1. cbn. now rewrite Hp.
Qed.

Lemma wire_deref (p : Platform) (this : nat) : preserves (wire_ok p) (ChatSession.deref this).
Proof.
  apply wire_leaf. intros w. unfold ChatSession.deref. destruct (_ !! _); auto.
Qed.

Lemma wire_addMessage (p : Platform) (roomId message : jsval) :
  preserves (wire_ok p) (ChatHistoryStorage.addMessage roomId message).
Proof.
  apply wire_leaf. intros w.
  destruct (setItem (platform w) (S (ticks w)) (history_key (ToString roomId)))
    as [failure|] eqn:Hset.
  - rewrite (addMessage_refused w roomId message failure Hset). auto.
  - rewrite (addMessage_accepted w roomId message Hset). auto.
Qed.

Create HintDb wired.

#[local] Hint Resolve wire_send wire_close wire_outbound_pipe wire_openStream_dial
  wire_openStream wire_deref wire_addMessage : wired.

Ltac wired_step :=
  first
    [ apply preserves_ret | apply preserves_throw | apply preserves_gets
    | solve [auto 1 with wired]
    | apply preserves_bind; [|intros ?]
    | apply preserves_try_catch; [|intros ?]
    | apply preserves_for_each; intros ?
    | apply preserves_settle
    | apply wire_leaf; intros ?; repeat split; reflexivity
    | match goal with
      | |- preserves _ (match ?x with _ => _ end) => destruct x
      end ].

Ltac wired := repeat wired_step.

Lemma wire_handleMessage (p : Platform) (message : jsval) (peer : jsstring) :
  preserves (wire_ok p) (ChatProtocol.handleMessage message peer).
Proof.
  unfold ChatProtocol.handleMessage.
  apply preserves_bind; [unfold get_prop; wired|]. intros type.
  destruct (ChatProtocol.messageHandlers_get type) as [handler|] eqn:Hh;
    [|unfold console_warn; wired].
  destruct type as [| | | |name| |]; try discriminate Hh.
  change (JsMap.get ChatProtocol.registerMessageHandlers name = Some handler) in Hh.
  apply JsMap_get_Some_elem in Hh. unfold ChatProtocol.registerMessageHandlers in Hh.
  repeat (apply elem_of_cons in Hh as [Hh|Hh]; [inversion Hh; subst handler; clear Hh|]);
    [| | | |inversion Hh].
  - unfold ChatProtocol.handle_hello, ChatProtocol.emit, get_prop. wired.
  - unfold ChatProtocol.handle_room_message, ChatProtocol.emit, get_prop. wired.
  - unfold ChatProtocol.handle_typing, ChatProtocol.emit, get_prop. wired.
  - unfold ChatProtocol.handle_nickname, ChatProtocol.emit, get_prop. wired.
Qed.

#[local] Hint Resolve wire_handleMessage : wired.

Lemma wire_perform (p : Platform) (a : action) : preserves (wire_ok p) (perform a).
Proof.
  destruct a; [apply wire_inbound_stream|..]; cbn [perform];
    unfold ChatProtocol.openStream_existing, ChatProtocol.sendMessage,
      ChatProtocol.broadcast, ChatProtocol.broadcast_call, ChatProtocol.broadcast_resume,
      ChatProtocol.sendMessage_send, ChatProtocol.sendMessage_record,
      ChatProtocol.closeSession, ChatProtocol.session_inbound_data,
      ChatProtocol.session_inbound_end, ChatSession.inbound_data, ChatSession.inbound_end,
      ChatProtocol.self, ChatProtocol.generateEventId, ChatProtocol.emit,
      console_warn, console_error, ask;
    wired.
  apply preserves_modify. intros w. apply wire_ok_stream_flags. reflexivity.
Qed.

Lemma wire_perform_call (p : Platform) (c : call) : preserves (wire_ok p) (perform_call c).
Proof.
  destruct c; cbn [perform_call]; [apply wire_perform| | | |];
    unfold closeAllSessions, P2PChatApp.broadcastNicknameUpdate,
      P2PChatApp.sendDirectMessage, ChatHistory.clearHistory, Storage.remove,
      Storage.removeItem, ChatProtocol.getActiveSessions, ChatProtocol.sendMessage,
      ChatProtocol.sendMessage_send, ChatProtocol.sendMessage_record, ChatProtocol.self,
      ChatProtocol.generateEventId, ChatProtocol.emit, console_error, ask;
    wired.
Qed.

Lemma wire_ok_initial (p : Platform) : wire_ok p (initial p).
Proof.
  split; [reflexivity|]. split; [|split].
  - intros r s Hs. inversion Hs.
  - intros r1 r2 s1 s2 Hs. inversion Hs.
  - intros r s st Hs. inversion Hs.
Qed.

Lemma wire_ok_exec_calls (p : Platform) (trace : list call) (w : world) :
  wire_ok p w -> wire_ok p (exec_calls trace w).
Proof.
  revert w. induction trace as [|c trace IH]; intros w Hw; [exact Hw|].
  cbn. apply IH. apply wire_perform_call, Hw.
Qed.

(** X24. The Hello is the first frame on the stream of every session:
    in every execution of the protocol and of the application's calls,
    the frames of an active session (those written to its stream,
    followed by those of the chunks still queued) start with the frame
    of this node's Hello, whatever was sent on the session since. *)
Theorem hello_is_the_first_frame (p : Platform) (trace : list call) (r : nat)
  (s : ChatSession) (st : Stream) :
  let w := exec_calls trace (initial p) in
  session_heap w !! r = Some s -> isActive s = true ->
  stream_heap w !! stream s = Some st ->
  head (wire st s) = Some (hello_frame p).
Proof.
  intros w Hs Hact Hst.
  destruct (wire_ok_exec_calls p trace (initial p) (wire_ok_initial p))
    as (_ & _ & _ & Hwire).
  exact (proj1 (Hwire r s st Hs Hact Hst)).
Qed.

Lemma hello_is_the_first_frame_witness :
  let trace := [Protocol (InboundStream (js "QmPeer"));
                Protocol (SendMessage (js "QmPeer") (js "hi") (js "room"));
                Protocol (OutboundPipe 0); NicknameUpdate (js "alice")] in
  let w := exec_calls trace (initial demo) in
  exists s st,
    session_heap w !! 0%nat = Some s /\ stream_heap w !! 0%nat = Some st
    /\ length (sink st) = 1%nat /\ length (queue (outbound s)) = 2%nat
    /\ head (wire st s) = Some (hello_frame demo).
Proof.
  intros trace w.
  destruct (session_heap w !! 0%nat) as [s|] eqn:Hs; [|vm_compute in Hs; discriminate Hs].
  destruct (stream_heap w !! 0%nat) as [st|] eqn:Hst; [|vm_compute in Hst; discriminate Hst].
  exists s, st. split; [reflexivity|]. split; [reflexivity|].
  assert (stream s = 0%nat /\ isActive s = true /\ length (sink st) = 1%nat
          /\ length (queue (outbound s)) = 2%nat) as (Hstream & Hact & Hlen1 & Hlen2).
  { vm_compute in Hs, Hst. injection Hs as <-. injection Hst as <-. auto. }
  split; [exact Hlen1|]. split; [exact Hlen2|].
  apply (hello_is_the_first_frame demo trace 0 s st); [exact Hs|exact Hact|].
  rewrite Hstream. exact Hst.
Defined.

(** X25. A session's counter counts its frames: in every execution, the
    [seq] of an active session equals the number of frames written to
    its stream plus the number of chunks still queued, so a chat message
    carries the position its frame has on the stream (the Hello being
    frame 0). *)
Theorem seq_counts_the_frames (p : Platform) (trace : list call) (r : nat)
  (s : ChatSession) (st : Stream) :
  let w := exec_calls trace (initial p) in
  session_heap w !! r = Some s -> isActive s = true ->
  stream_heap w !! stream s = Some st ->
  seq s = Z.of_nat (length (sink st) + length (queue (outbound s))).
Proof.
  intros w Hs Hact Hst.
  destruct (wire_ok_exec_calls p trace (initial p) (wire_ok_initial p))
    as (_ & _ & _ & Hwire).
  destruct (Hwire r s st Hs Hact Hst) as [_ ->].
  unfold wire. now rewrite length_app, length_fmap.
Qed.

Lemma seq_counts_the_frames_witness :
  let trace := [Protocol (InboundStream (js "QmPeer"));
                Protocol (SendMessage (js "QmPeer") (js "hi") (js "room"));
                Protocol (OutboundPipe 0); NicknameUpdate (js "alice")] in
  let w := exec_calls trace (initial demo) in
  exists s st,
    session_heap w !! 0%nat = Some s /\ stream_heap w !! 0%nat = Some st
    /\ seq s = 3%Z
    /\ seq s = Z.of_nat (length (sink st) + length (queue (outbound s))).
Proof.
  intros trace w.
  destruct (session_heap w !! 0%nat) as [s|] eqn:Hs; [|vm_compute in Hs; discriminate Hs].
  destruct (stream_heap w !! 0%nat) as [st|] eqn:Hst; [|vm_compute in Hst; discriminate Hst].
  exists s, st. split; [reflexivity|]. split; [reflexivity|].
  assert (stream s = 0%nat /\ isActive s = true /\ seq s = 3%Z) as (Hstream & Hact & Hseq).
  { vm_compute in Hs. injection Hs as <-. auto. }
  split; [exact Hseq|].
  apply (seq_counts_the_frames demo trace 0 s st); [exact Hs|exact Hact|].
  rewrite Hstream. exact Hst.
Defined.
